(** * py-radiosity: patch refinement, form factors and the radiosity solver

    A shallow embedding of the three computational cells of
    [Radiosity.ipynb]:

    - the refiner ([project_triangle_2D], [splitViaDelaunay],
      [subdivide_triangles], [refine_scene] and the material extraction);
    - the form-factor cell (the loop that fills [F]);
    - the radiosity loop ([B = E + rho * (F_sparse @ B)]);

    and of the arrays around them: the vertex and face arrays the meshes
    are built from, and the rows [create_ply_with_vertex_color] and
    [create_ply_with_face_color] write.

    Numbers.  The notebook computes in binary64; here every float is a real
    number ([R]), so [sqrt], [/], [np.pi] are exact and no rounding (also
    none to [float32] in the extraction), overflow or NaN occurs.  Division
    of a numpy array by [0.] (which yields [nan]/[inf] and a warning, never
    an exception) is [x / 0 = 0] in [R]; division of two Python floats raises
    [ZeroDivisionError] and is modelled as such.  The two places where numpy
    would produce NaN agree with the model in what the program does next:
    coincident centroids give a direction that fails [cos > epsilon] both as
    NaN and as [0] (as [epsilon >= 0]), and a triangle of zero area gives
    projected points on which the triangulation raises, NaN or collinear.

    Rounding is kept in one place.  The occlusion test of the form-factor
    cell, [hit_dists < expected_dists - epsilon], compares two numbers that
    are equal in real arithmetic whenever the ray reaches its target patch
    (the ray starts [epsilon] along the way, the margin is [epsilon]), so
    rounding alone decides it there.  Its two sides are therefore the
    numbers binary64 arithmetic computes, section variables as well; the
    module [Binary64] evaluates them with the kernel's binary64 floats at one
    scene.

    External libraries.  [scipy.spatial.Delaunay], the iteration order of a
    Python [set], [trimesh]'s [fix_normals], the ray intersector and
    [np.unique] are not code of the repository: they are section variables,
    and what a theorem needs from them is a stated hypothesis. *)

From Stdlib Require Import Reals List ZArith Lra Lia Bool Permutation.
From Stdlib Require String Floats.
Import ListNotations.
Open Scope R_scope.

(* ================================================================= *)
(** * Part I: the program *)
(* ================================================================= *)

(** ** Arrays *)

Abbreviation vec := (list R).
Abbreviation matrix := (list (list R)).

Fixpoint map2 {A B C : Type} (f : A -> B -> C) (l : list A) (l' : list B) : list C :=
  match l, l' with
  | a :: t, b :: t' => f a b :: map2 f t t'
  | _, _ => []
  end.

Definition Rsum (l : list R) : R := fold_right Rplus 0 l.

(** [a[idx]] for an index array. *)
Definition take {A : Type} (idx : list nat) (a : list A) (d : A) : list A :=
  map (fun j => nth j a d) idx.

(** [a[mask]] for a boolean mask. *)
Definition mask_select {A : Type} (mask : list bool) (a : list A) : list A :=
  map snd (filter fst (combine mask a)).

(** [row[j] = x]; an index out of range raises in numpy and is left alone
    here (the callers below only write indices of [range(N)]). *)
Fixpoint set_nth (row : list R) (j : nat) (x : R) : list R :=
  match row, j with
  | [], _ => []
  | _ :: t, O => x :: t
  | a :: t, S k => a :: set_nth t k x
  end.

(** [row[idx] = vals] *)
Definition assign (row : list R) (idx : list nat) (vals : list R) : list R :=
  fold_left (fun r jv => set_nth r (fst jv) (snd jv)) (combine idx vals) row.

Definition Rltb (x y : R) : bool := if Rlt_dec x y then true else false.

(** [np.clip(x, lo, hi)] *)
Definition clip (x lo hi : R) : R := Rmin (Rmax x lo) hi.

(** ** Vectors of R^3 *)

Record V3 : Type := mkV3 { vx : R; vy : R; vz : R }.

Definition v3zero : V3 := mkV3 0 0 0.
Definition v3add (a b : V3) : V3 := mkV3 (vx a + vx b) (vy a + vy b) (vz a + vz b).
Definition v3sub (a b : V3) : V3 := mkV3 (vx a - vx b) (vy a - vy b) (vz a - vz b).
Definition v3scale (k : R) (a : V3) : V3 := mkV3 (k * vx a) (k * vy a) (k * vz a).
Definition v3div (a : V3) (k : R) : V3 := mkV3 (vx a / k) (vy a / k) (vz a / k).
Definition dot (a b : V3) : R := vx a * vx b + vy a * vy b + vz a * vz b.
Definition cross (a b : V3) : V3 :=
  mkV3 (vy a * vz b - vz a * vy b) (vz a * vx b - vx a * vz b) (vx a * vy b - vy a * vx b).
Definition norm (a : V3) : R := sqrt (dot a a).
Definition v3min (a b : V3) : V3 := mkV3 (Rmin (vx a) (vx b)) (Rmin (vy a) (vy b)) (Rmin (vz a) (vz b)).
Definition v3max (a b : V3) : V3 := mkV3 (Rmax (vx a) (vx b)) (Rmax (vy a) (vy b)) (Rmax (vz a) (vz b)).

(** ** Exceptions

    [QhullError] stands for whatever [scipy.spatial.Delaunay] raises. *)

Inductive exn : Type :=
| QhullError | ZeroDivisionError | IndexError | RecursionError
| AttributeError | ValueError.

Inductive result (A : Type) : Type :=
| Returned (a : A)
| Raised (e : exn).
Arguments Returned {A} a.
Arguments Raised {A} e.

(* ----------------------------------------------------------------- *)
(** ** The radiosity loop (last code cell) *)

Module Solver.

(** [np.zeros_like(E)] *)
Definition zeros_like (E : matrix) : matrix := map (map (fun _ => 0)) E.

(** [B.shape[1]] *)
Definition ncols (B : matrix) : nat := length (hd [] B).

Definition is_nonzero (x : R) : bool := if Req_dec_T x 0 then false else true.

(** One row of a compressed-sparse-row matrix: the stored entries, each a
    column index with its value. *)
Definition csr_row := list (nat * R).

(** [csr_matrix(F)]: the non-zero entries of every row of the dense [F]. *)
Definition csr_matrix (F : matrix) : list csr_row :=
  map (fun row => filter (fun jv => is_nonzero (snd jv))
                         (combine (seq 0 (length row)) row)) F.

Definition vadd (a b : vec) : vec := map2 Rplus a b.
Definition vscale (k : R) (a : vec) : vec := map (Rmult k) a.

(** Row [i] of [F_sparse @ B]: the stored entries of row [i] accumulate
    [v * B[j]] into a zero row of [B.shape[1]] channels. *)
Definition csr_row_dot (r : csr_row) (B : matrix) : vec :=
  fold_left (fun acc jv => vadd acc (vscale (snd jv) (nth (fst jv) B [])))
            r (repeat 0 (ncols B)).

(** [F_sparse @ B] *)
Definition matmul (Fs : list csr_row) (B : matrix) : matrix :=
  map (fun r => csr_row_dot r B) Fs.

(** Element-wise [+] and [*] of two arrays of one shape. *)
Definition madd (X Y : matrix) : matrix := map2 (map2 Rplus) X Y.
Definition mmul (X Y : matrix) : matrix := map2 (map2 Rmult) X Y.

(** The loop body:
    [incoming_light = F_sparse @ B; B = E + rho * incoming_light]. *)
Definition bounce (Fs : list csr_row) (rho E B : matrix) : matrix :=
  let incoming_light := matmul Fs B in
  madd E (mmul rho incoming_light).

(** [for i in range(n): B = bounce(B)] *)
Fixpoint radiosity_loop (n : nat) (Fs : list csr_row) (rho E B : matrix) : matrix :=
  match n with
  | O => B
  | S k => radiosity_loop k Fs rho E (bounce Fs rho E B)
  end.

(** The values [B] takes after each pass of the loop, in order (what the
    commented-out [radiosity_per_bounce.append(B.copy())] would record). *)
Fixpoint radiosity_per_bounce (n : nat) (Fs : list csr_row) (rho E B : matrix)
  : list matrix :=
  match n with
  | O => []
  | S k => let B' := bounce Fs rho E B in
           B' :: radiosity_per_bounce k Fs rho E B'
  end.

(** The cell: [B = np.zeros_like(E)], then [range(num_iterations)] passes.
    [range] of a non-positive integer is empty. *)
Definition solve (F rho E : matrix) (num_iterations : Z) : matrix :=
  radiosity_loop (Z.to_nat num_iterations) (csr_matrix F) rho E (zeros_like E).

(** The arrays the cell's [B] holds after the first, second, ... pass. *)
Definition solve_trace (F rho E : matrix) (num_iterations : Z) : list matrix :=
  radiosity_per_bounce (Z.to_nat num_iterations) (csr_matrix F) rho E (zeros_like E).

(** *** The update rule as the specification words it *)

(** [incoming(i) = sum_j F[i][j] * B[j]], channel [c]. *)
Definition incoming_spec (N : nat) (F B : matrix) (i c : nat) : R :=
  Rsum (map (fun j => nth j (nth i F []) 0 * nth c (nth j B []) 0) (seq 0 N)).

(** [B[i] = E[i] + rho[i] (.) incoming(i)] for [N] patches, [C] channels. *)
Definition update_spec (N C : nat) (F rho E B : matrix) : matrix :=
  map (fun i =>
         map (fun c => nth c (nth i E []) 0
                       + nth c (nth i rho []) 0 * incoming_spec N F B i c)
             (seq 0 C))
      (seq 0 N).

(** The [n]-th iterate of the rule from [B = 0]. *)
Definition iterate_spec (N C : nat) (F rho E : matrix) (n : nat) : matrix :=
  Nat.iter n (update_spec N C F rho E) (repeat (repeat 0 C) N).

(** [X] is an [N] by [C] array. *)
Definition has_shape (N C : nat) (X : matrix) : Prop :=
  length X = N /\ Forall (fun row => length row = C) X.

(** Component-wise order. *)
Definition mle (X Y : matrix) : Prop := Forall2 (Forall2 Rle) X Y.
Definition nonneg (X : matrix) : Prop := Forall (Forall (Rle 0)) X.

End Solver.

(* ----------------------------------------------------------------- *)
(** ** The form-factor cell *)

Module FormFactor.

(** [bbox_min = np.min(centroids, axis=0)], [bbox_max] alike, and
    [epsilon = 1e-5 * np.linalg.norm(bbox_max - bbox_min)].  [np.min] of an
    empty array raises [ValueError]. *)
Definition epsilon (centroids : list V3) : result R :=
  match centroids with
  | [] => Raised ValueError
  | c :: cs =>
      let bbox_min := fold_left v3min cs c in
      let bbox_max := fold_left v3max cs c in
      Returned (1e-5 * norm (v3sub bbox_max bbox_min))
  end.

Definition is_empty {A : Type} (l : list A) : bool :=
  match l with [] => true | _ => false end.

(** [mask[idx] = False] *)
Definition clear_at (mask : list bool) (idx : list nat) : list bool :=
  map (fun kb => snd kb && negb (existsb (Nat.eqb (fst kb)) idx))
      (combine (seq 0 (length mask)) mask).

Section Engine.

(** [scene_rays.intersects_location(ray_origins, ray_directions,
    multiple_hits=False)]: the hits it reports, each a hit location with the
    index of its ray ([hit_locations[k]], [index_ray[k]]); [index_tri] is not
    read by the cell. *)
Variable intersects_location : list V3 -> list V3 -> list (V3 * nat).

(** The two sides of the occlusion test as binary64 computes them:
    [np.linalg.norm(hit - ray_origin)] for a hit location and the origin of
    its ray, and [expected_dist - epsilon]. *)
Variable hit_dist64 : V3 -> V3 -> R.
Variable reach64 : R -> R -> R.

Variables (centroids normals : list V3) (areas : list R).
Variable epsilon : R.

(** [N = len(T)]; [centroids], [normals] and [areas] have one entry a patch. *)
Definition N : nat := length centroids.

(** The body of [for i in range(N)]: row [i] of [F], which starts as the
    zero row of [np.zeros((N, N))] and is written once at most. *)
Definition form_factor_row (i : nat) : list R :=
  let zero_row := repeat 0 N in
  let origin_i := nth i centroids v3zero in
  let normal_i := nth i normals v3zero in
  let potential_j_indices := remove Nat.eq_dec i (seq 0 N) in
  if is_empty potential_j_indices then zero_row else
  let vecs_ij :=
    map (fun c => v3sub c origin_i) (take potential_j_indices centroids v3zero) in
  let distances_ij := map norm vecs_ij in
  let directions_ij := map2 v3div vecs_ij distances_ij in
  let cos_theta_i := map (fun d => dot d normal_i) directions_ij in
  let cos_theta_j :=
    map2 (fun d n => - dot d n) directions_ij (take potential_j_indices normals v3zero) in
  let valid_mask :=
    map2 (fun ci cj => Rltb epsilon ci && Rltb epsilon cj) cos_theta_i cos_theta_j in
  if negb (existsb (fun b => b) valid_mask) then zero_row else
  let j_indices := mask_select valid_mask potential_j_indices in
  let dirs := mask_select valid_mask directions_ij in
  let dists := mask_select valid_mask distances_ij in
  let ray_origins := map (fun d => v3add origin_i (v3scale epsilon d)) dirs in
  let hits := intersects_location ray_origins dirs in
  let hit_locations := map fst hits in
  let index_ray := map snd hits in
  let is_visible :=
    let ones := repeat true (length j_indices) in
    if is_empty hits then ones else
    let hit_dists :=
      map2 hit_dist64 hit_locations (take index_ray ray_origins v3zero) in
    let expected_dists := take index_ray dists 0 in
    let blocked := map2 (fun h e => Rltb h (reach64 e epsilon)) hit_dists expected_dists in
    clear_at ones (mask_select blocked index_ray) in
  let visible_j_indices := mask_select is_visible j_indices in
  if is_empty visible_j_indices then zero_row else
  let visible_cos_i := mask_select is_visible (mask_select valid_mask cos_theta_i) in
  let visible_cos_j := mask_select is_visible (mask_select valid_mask cos_theta_j) in
  let visible_dists := mask_select is_visible dists in
  let form_factor_value :=
    map2 Rdiv
         (map2 Rmult (map2 Rmult visible_cos_i visible_cos_j)
               (take visible_j_indices areas 0))
         (map (fun d => PI * d ^ 2) visible_dists) in
  assign zero_row visible_j_indices (map (fun x => clip x 0 1) form_factor_value).

(** The matrix the loop leaves in [F]. *)
Definition form_factors : matrix := map form_factor_row (seq 0 N).

(** *** The quantities of one ordered pair, as the specification names them *)

(** [r = |centroid(j) - centroid(i)|] *)
Definition r (i j : nat) : R :=
  norm (v3sub (nth j centroids v3zero) (nth i centroids v3zero)).

(** [d = normalize(centroid(j) - centroid(i))] *)
Definition d (i j : nat) : V3 :=
  v3div (v3sub (nth j centroids v3zero) (nth i centroids v3zero)) (r i j).

Definition cos_i (i j : nat) : R := dot (d i j) (nth i normals v3zero).
Definition cos_j (i j : nat) : R := - dot (d i j) (nth j normals v3zero).

(** The patches face each other. *)
Definition facing (i j : nat) : bool :=
  Rltb epsilon (cos_i i j) && Rltb epsilon (cos_j i j).

(** The targets row [i] casts rays at, in the order of the ray batch. *)
Definition targets (i : nat) : list nat :=
  filter (facing i) (remove Nat.eq_dec i (seq 0 N)).

(** The origin of the ray from patch [i] towards patch [j]:
    [centroid(i)] moved by [epsilon] along [d]. *)
Definition ray_origin (i j : nat) : V3 :=
  v3add (nth i centroids v3zero) (v3scale epsilon (d i j)).

(** What the intersector answers for the batch of row [i]. *)
Definition row_hits (i : nat) : list (V3 * nat) :=
  intersects_location (map (ray_origin i) (targets i)) (map (d i) (targets i)).

(** A reported hit that blocks its ray: its computed distance from the
    ray's origin is below the computed [expected_dist - epsilon]. *)
Definition blocked_hit (i : nat) (hit : V3 * nat) : bool :=
  Rltb (hit_dist64 (fst hit) (nth (snd hit) (map (ray_origin i) (targets i)) v3zero))
       (reach64 (nth (snd hit) (map (r i) (targets i)) 0) epsilon).

(** The rays of row [i] that are blocked, and the targets left visible. *)
Definition blocked_rays (i : nat) : list nat :=
  map snd (filter (blocked_hit i) (row_hits i)).

Definition visible (i : nat) : list nat :=
  mask_select (clear_at (repeat true (length (targets i))) (blocked_rays i)) (targets i).

(** The test of the cell finds the ray from [i] towards [j] blocked: a hit
    is reported for it whose computed distance is below the computed
    [r - epsilon]. *)
Definition occluded (i j : nat) : Prop :=
  exists k loc,
    nth_error (targets i) k = Some j /\
    In (loc, k) (row_hits i) /\
    hit_dist64 loc (ray_origin i j) < reach64 (r i j) epsilon.

(** The geometry behind the test: a hit is reported for the ray from [i]
    towards [j] at a distance from the ray's origin strictly below
    [bound]. *)
Definition hit_closer (i j : nat) (bound : R) : Prop :=
  exists k loc,
    nth_error (targets i) k = Some j /\
    In (loc, k) (row_hits i) /\
    norm (v3sub loc (ray_origin i j)) < bound.

(** [(cos_i * cos_j * area(j)) / (pi * r^2)] *)
Definition point_to_patch (i j : nat) : R :=
  (cos_i i j * cos_j i j * nth j areas 0) / (PI * r i j ^ 2).

End Engine.

(** The cell with its [epsilon]: the matrix is computed when no cached file
    is loaded in its place. *)
Definition form_factor_cell (intersects_location : list V3 -> list V3 -> list (V3 * nat))
           (hit_dist64 : V3 -> V3 -> R) (reach64 : R -> R -> R)
           (centroids normals : list V3) (areas : list R) : result matrix :=
  match epsilon centroids with
  | Raised e => Raised e
  | Returned eps =>
      Returned (form_factors intersects_location hit_dist64 reach64
                             centroids normals areas eps)
  end.

(** Arithmetic without rounding, and arithmetic whose two results are
    within [delta] of the exact ones. *)
Definition exact_hit_dist (hit origin : V3) : R := norm (v3sub hit origin).
Definition exact_reach (dist eps : R) : R := dist - eps.

Definition accurate (hit_dist64 : V3 -> V3 -> R) (reach64 : R -> R -> R) (delta : R) : Prop :=
  (forall hit origin, Rabs (hit_dist64 hit origin - norm (v3sub hit origin)) <= delta) /\
  (forall dist eps, Rabs (reach64 dist eps - (dist - eps)) <= delta).

(** *** A scene of two patches

    Two patches of area 1/2 one unit apart along [z], each facing the
    other, and an intersector that reports no hit. *)
Definition two_centroids : list V3 := [mkV3 0 0 0; mkV3 0 0 1].
Definition two_normals : list V3 := [mkV3 0 0 1; mkV3 0 0 (-1)].
Definition two_areas : list R := [1 / 2; 1 / 2].
Definition no_hits : list V3 -> list V3 -> list (V3 * nat) := fun _ _ => [].

(** An intersector that reports, for the first ray of every batch, a hit at
    [(0, 0, 1/2)]. *)
Definition half_way_hit : list V3 -> list V3 -> list (V3 * nat) :=
  fun _ _ => [(mkV3 0 0 (1 / 2), 0%nat)].

End FormFactor.

(* ----------------------------------------------------------------- *)
(** ** The occlusion test in binary64

    The lines of the form-factor cell that lead to the test
    [hit_dists < expected_dists - epsilon], evaluated with the kernel's
    binary64 numbers for one ray: from the centroid [ci] towards the
    centroid [cj], with the hit reported at [hit]. *)

Module Binary64.

Import Floats.

Abbreviation F3 := (float * float * float)%type.

Definition sub3 (a b : F3) : F3 :=
  let '(ax, ay, az) := a in
  let '(bx, by_, bz) := b in
  ((ax - bx)%float, (ay - by_)%float, (az - bz)%float).

Definition add3 (a b : F3) : F3 :=
  let '(ax, ay, az) := a in
  let '(bx, by_, bz) := b in
  ((ax + bx)%float, (ay + by_)%float, (az + bz)%float).

Definition scale3 (k : float) (a : F3) : F3 :=
  let '(ax, ay, az) := a in ((k * ax)%float, (k * ay)%float, (k * az)%float).

Definition div3 (a : F3) (k : float) : F3 :=
  let '(ax, ay, az) := a in ((ax / k)%float, (ay / k)%float, (az / k)%float).

(** [np.linalg.norm(v)]: the root of the squares added in order. *)
Definition norm3 (a : F3) : float :=
  let '(ax, ay, az) := a in sqrt (ax * ax + ay * ay + az * az)%float.

Section Ray.

Variables (epsilon : float) (ci cj hit : F3).

Definition vec : F3 := sub3 cj ci.
Definition dist : float := norm3 vec.
Definition dir : F3 := div3 vec dist.
(** [ray_origins = origin_i + epsilon * dirs] *)
Definition ray_origin : F3 := add3 ci (scale3 epsilon dir).
(** [hit_dists = np.linalg.norm(hit_locations - ray_origins[index_ray], axis=1)] *)
Definition hit_dist : float := norm3 (sub3 hit ray_origin).
(** [expected_dists - epsilon] *)
Definition reach : float := (dist - epsilon)%float.
(** [blocked = hit_dists < expected_dists - epsilon] *)
Definition blocked : bool := ltb hit_dist reach.

End Ray.

(** *** Two facing patches with nothing between them

    The triangles [(-1,-1,1), (2,-1,1), (-1,2,1)] and
    [(-1,-1,2), (-1,2,2), (2,-1,2)]: centroids [(0,0,1)] and [(0,0,2)],
    normals [(0,0,1)] and [(0,0,-1)], areas [9/2]. *)
Definition lower : F3 := (0, 0, 1)%float.
Definition upper : F3 := (0, 0, 2)%float.

(** [epsilon = 1e-5 * np.linalg.norm(bbox_max - bbox_min)]; the literal is
    the binary64 number nearest to [1e-5]. *)
Definition scene_epsilon : float :=
  (0x1.4f8b588e368f1p-17 * norm3 (sub3 upper lower))%float.

(** The real number a finite binary64 number stands for. *)
Definition SF2R (f : spec_float) : R :=
  match f with
  | S754_finite s m e => (if s then -1 else 1) * IZR (Zpos m) * powerRZ 2 e
  | _ => 0
  end.

Definition B2R (x : float) : R := SF2R (Prim2SF x).

(** The scene as the form-factor loop takes it. *)
Definition centroids : list V3 := [mkV3 0 0 1; mkV3 0 0 2].
Definition normals : list V3 := [mkV3 0 0 1; mkV3 0 0 (-1)].
Definition areas : list R := [9 / 2; 9 / 2].
Definition epsilon : R := B2R scene_epsilon.

(** The intersector on this scene: the one ray of a batch reaches the
    patch opposite, the hit is reported at that patch's centroid. *)
Definition hits_target : list V3 -> list V3 -> list (V3 * nat) :=
  fun ray_origins _ =>
    match ray_origins with
    | [o] => [(if Rlt_dec (vz o) (3 / 2) then mkV3 0 0 2 else mkV3 0 0 1, 0%nat)]
    | _ => []
    end.

(** The two numbers the test compares on this scene, as binary64 computes
    them; the ray up from the lower patch and the ray down from the upper
    one give the same two numbers. *)
Definition hit_dist64 : V3 -> V3 -> R :=
  fun _ _ => B2R (hit_dist scene_epsilon lower upper upper).
Definition reach64 : R -> R -> R :=
  fun _ _ => B2R (reach scene_epsilon lower upper).

End Binary64.

(* ----------------------------------------------------------------- *)
(** ** The refiner *)

Module Refiner.

(** A 2D point [[x, y]], a triangle of three vertices, a simplex of
    [tri.simplices] (three indices into the point list), an edge. *)
Abbreviation point := (R * R)%type.
Abbreviation triangle := (V3 * V3 * V3)%type.
Abbreviation simplex := (nat * nat * nat)%type.
Abbreviation edge := (nat * nat)%type.

Definition project_to_2d (origin u v p : V3) : point :=
  let relative := v3sub p origin in
  (dot relative u, dot relative v).

Definition project_triangle_2D (t : triangle)
  : point * point * point * V3 * V3 * V3 :=
  let '(v0, v1, v2) := t in
  let origin := v0 in
  let u := v3sub v1 v0 in
  let u := v3div u (norm u) in
  let normal := cross (v3sub v1 v0) (v3sub v2 v0) in
  let normal := v3div normal (norm normal) in
  let v := cross normal u in
  (project_to_2d origin u v v0, project_to_2d origin u v v1,
   project_to_2d origin u v v2, origin, u, v).

Definition to_3d (p : point) (origin u v : V3) : V3 :=
  let '(x, y) := p in
  v3add (v3add origin (v3scale x u)) (v3scale y v).

(** The frame [(u, v)] of a non-degenerate triangle, and its normal. *)
Definition frame_u (t : triangle) : V3 :=
  let '(v0, v1, v2) := t in v3div (v3sub v1 v0) (norm (v3sub v1 v0)).
Definition frame_n (t : triangle) : V3 :=
  let '(v0, v1, v2) := t in
  v3div (cross (v3sub v1 v0) (v3sub v2 v0)) (norm (cross (v3sub v1 v0) (v3sub v2 v0))).
Definition frame_v (t : triangle) : V3 := cross (frame_n t) (frame_u t).

(** *** Computations over the mutable list [points]

    [splitViaDelaunay] appends to the list it is given and returns nothing:
    a computation takes the list and gives back an outcome and the list as
    it stands then, also when an exception is raised. *)
Definition M (A : Type) : Type := list point -> result A * list point.

Definition ret {A : Type} (a : A) : M A := fun s => (Returned a, s).
Definition raise {A : Type} (e : exn) : M A := fun s => (Raised e, s).
Definition bind {A B : Type} (m : M A) (f : A -> M B) : M B :=
  fun s => match m s with
           | (Returned a, s') => f a s'
           | (Raised e, s') => (Raised e, s')
           end.

Notation "x <- m ;; k" := (bind m (fun x => k))
  (at level 61, m at next level, right associativity).
Notation "m ;;; k" := (bind m (fun _ => k))
  (at level 61, right associativity).

(** [points[i]] *)
Definition getitem (i : nat) : M point :=
  fun s => match nth_error s i with
           | Some p => (Returned p, s)
           | None => (Raised IndexError, s)
           end.

(** [points.append(p)] *)
Definition append (p : point) : M unit := fun s => (Returned tt, s ++ [p]).

Definition lift {A : Type} (x : result A) : M A := fun s => (x, s).

(** [for a in l: body(a)] *)
Fixpoint for_each {A : Type} (l : list A) (body : A -> M unit) : M unit :=
  match l with
  | [] => ret tt
  | a :: t => body a ;;; for_each t body
  end.

(** [a / b] on Python floats. *)
Definition py_div (a b : R) : result R :=
  if Req_dec_T b 0 then Raised ZeroDivisionError else Returned (a / b).

(** [math.ceil] *)
Definition ceil (x : R) : Z := (1 - up (- x))%Z.

(** [range(lo, hi)] *)
Definition range (lo hi : Z) : list Z :=
  map (fun k => (lo + Z.of_nat k)%Z) (seq 0 (Z.to_nat (hi - lo))).

(** [sqrt((x2-x1)*(x2-x1)+(y2-y1)*(y2-y1))] *)
Definition length2d (p1 p2 : point) : R :=
  let '(x1, y1) := p1 in
  let '(x2, y2) := p2 in
  sqrt ((x2 - x1) * (x2 - x1) + (y2 - y1) * (y2 - y1)).

(** The three edges a simplex adds to [edges]. *)
Definition simplex_edges (s : simplex) : list edge :=
  let '(a, b, c) := s in [(a, b); (b, c); (a, c)].

Section Refine.

(** [Delaunay(points).simplices]; [None] when scipy raises (Qhull cannot
    triangulate the points). *)
Variable Delaunay : list point -> option (list simplex).

(** The order in which [for edge in edges] visits the set built by adding
    the given edges one after the other. *)
Variable set_order : list edge -> list edge.

(** [trimesh.Trimesh.fix_normals] on the triangles of a mesh. *)
Variable fix_normals : list triangle -> list triangle.

Definition triangulate : M (list simplex) :=
  fun s => match Delaunay s with
           | Some t => (Returned t, s)
           | None => (Raised QhullError, s)
           end.

(** The body of [for edge in edges], with the flag [isFinished] it may
    clear. *)
Definition split_edge (maxLength : R) (isFinished : bool) (e : edge) : M bool :=
  let '(p1, p2) := e in
  P1 <- getitem p1 ;;
  P2 <- getitem p2 ;;
  let '(x1, y1) := P1 in
  let '(x2, y2) := P2 in
  let length := length2d P1 P2 in
  if Rlt_dec maxLength length then
    q <- lift (py_div length maxLength) ;;
    let nPieces := ceil q in
    for_each (range 1 nPieces)
      (fun piece =>
         append (x1 + IZR piece / IZR nPieces * (x2 - x1),
                 y1 + IZR piece / IZR nPieces * (y2 - y1))) ;;;
    ret false
  else ret isFinished.

Fixpoint for_edges (maxLength : R) (edges : list edge) (isFinished : bool) : M bool :=
  match edges with
  | [] => ret isFinished
  | e :: t => f <- split_edge maxLength isFinished e ;; for_edges maxLength t f
  end.

(** One call of [splitViaDelaunay] up to its recursive call: triangulate,
    collect the edges, split the long ones; the result is [isFinished]. *)
Definition split_pass (maxLength : R) : M bool :=
  simplices <- triangulate ;;
  let edges := set_order (flat_map simplex_edges simplices) in
  for_edges maxLength edges true.

(** [splitViaDelaunay(points, maxLength)]; [depth] is the number of nested
    calls the interpreter still allows, and the call that exceeds it raises
    [RecursionError]. *)
Fixpoint splitViaDelaunay (depth : nat) (maxLength : R) : M unit :=
  match depth with
  | O => raise RecursionError
  | S depth' =>
      isFinished <- split_pass maxLength ;;
      if isFinished then ret tt else splitViaDelaunay depth' maxLength
  end.

(** [points[i]] after the list is no longer written. *)
Definition index (points : list point) (i : nat) : result point :=
  match nth_error points i with
  | Some p => Returned p
  | None => Raised IndexError
  end.

(** [for x, y, z in tri.simplices: refined_triangles.append(...)] *)
Fixpoint lift_simplices (points : list point) (origin u v : V3)
         (simplices : list simplex) : result (list triangle) :=
  match simplices with
  | [] => Returned []
  | (x, y, z) :: rest =>
      match index points x, index points y, index points z with
      | Returned v0, Returned v1, Returned v2 =>
          match lift_simplices points origin u v rest with
          | Returned ts =>
              Returned ((to_3d v0 origin u v, to_3d v1 origin u v, to_3d v2 origin u v) :: ts)
          | Raised e => Raised e
          end
      | Raised e, _, _ => Raised e
      | _, Raised e, _ => Raised e
      | _, _, Raised e => Raised e
      end
  end.

(** The body of the loop of [subdivide_triangles] for one triangle: the
    triangles it appends to [refined_triangles]. *)
Definition subdivide_triangle (depth : nat) (maxLength : R) (t : triangle)
  : result (list triangle) :=
  let '(v0_2d, v1_2d, v2_2d, origin, u, v) := project_triangle_2D t in
  let points := [v0_2d; v1_2d; v2_2d] in
  match splitViaDelaunay depth maxLength points with
  | (Raised e, _) => Raised e
  | (Returned _, points) =>
      match Delaunay points with
      | None => Raised QhullError
      | Some simplices => lift_simplices points origin u v simplices
      end
  end.

(** [subdivide_triangles(triangles, maxLength)]: an exception in any
    triangle leaves the function, nothing is returned. *)
Fixpoint subdivide_triangles (depth : nat) (triangles : list triangle) (maxLength : R)
  : result (list triangle) :=
  match triangles with
  | [] => Returned []
  | t :: rest =>
      match subdivide_triangle depth maxLength t with
      | Raised e => Raised e
      | Returned new =>
          match subdivide_triangles depth rest maxLength with
          | Raised e => Raised e
          | Returned refined => Returned (new ++ refined)
          end
      end
  end.

(** *** Meshes and materials *)

(** The entries of [material.kwargs] the notebook reads. *)
Record material : Type := mkMaterial { kd : option vec; ke : option vec }.

(** A mesh: its triangles, and [mesh.visual.material] where the visual has
    one. *)
Record mesh : Type := mkMesh { triangles : list triangle; visual_material : option material }.

Definition scene := list (String.string * mesh).

(** [refine_scene(scene, maxLength)].  The new mesh is listed here under the
    key of the mesh it refines; the name [add_geometry] files it under is
    [trimesh]'s choice, and the theorems speak of the meshes of the refined
    scene and of their order, not of their keys. *)
Fixpoint refine_scene (depth : nat) (sc : scene) (maxLength : R) : result scene :=
  match sc with
  | [] => Returned []
  | (key, m) :: rest =>
      match subdivide_triangles depth (triangles m) maxLength with
      | Raised e => Raised e
      | Returned refined_triangles =>
          let mat := visual_material m in
          let new_mesh := mkMesh (fix_normals refined_triangles) mat in
          match refine_scene depth rest maxLength with
          | Raised e => Raised e
          | Returned refined_scene => Returned ((key, new_mesh) :: refined_scene)
          end
      end
  end.

End Refine.

Definition default_kd : vec := [0.5; 0.5; 0.5].
Definition default_ke : vec := [0; 0; 0].

Definition get_default (o : option vec) (dflt : vec) : vec :=
  match o with Some x => x | None => dflt end.

(** The extraction cell: [T], [rho] and [E], one entry a triangle.  A mesh
    whose visual has no material raises [AttributeError] at
    [mesh.visual.material]. *)
Fixpoint extract (sc : scene) : result (list triangle * matrix * matrix) :=
  match sc with
  | [] => Returned ([], [], [])
  | (key, m) :: rest =>
      match visual_material m with
      | None => Raised AttributeError
      | Some mat =>
          let n := length (triangles m) in
          let kd := get_default (kd mat) default_kd in
          let ke := get_default (ke mat) default_ke in
          match extract rest with
          | Raised e => Raised e
          | Returned (T, rho, E) =>
              Returned (triangles m ++ T, repeat kd n ++ rho, repeat ke n ++ E)
          end
      end
  end.

(** *** Geometry the claims speak of *)

(** [p] lies in the closed triangle [a b c]. *)
Definition in_triangle (a b c p : point) : Prop :=
  exists al be ga : R,
    0 <= al /\ 0 <= be /\ 0 <= ga /\ al + be + ga = 1 /\
    fst p = al * fst a + be * fst b + ga * fst c /\
    snd p = al * snd a + be * snd b + ga * snd c.

(** [p] is a proper convex combination of [a] and [b]. *)
Definition between (a b p : point) : Prop :=
  exists t : R, 0 < t < 1 /\
    fst p = fst a + t * (fst b - fst a) /\
    snd p = snd a + t * (snd b - snd a).

(** The list only grows: [s'] is [s] followed by points each of which was,
    when appended, a proper convex combination of two points already in the
    list. *)
Inductive grows (s : list point) : list point -> Prop :=
| grows_refl : grows s s
| grows_step (s' : list point) (pa pb p : point) :
    grows s s' -> In pa s' -> In pb s' -> between pa pb p -> grows s (s' ++ [p]).

(** The edge joins two points of the list that are at most [maxLength]
    apart. *)
Definition short (points : list point) (maxLength : R) (e : edge) : Prop :=
  exists P1 P2,
    nth_error points (fst e) = Some P1 /\ nth_error points (snd e) = Some P2 /\
    length2d P1 P2 <= maxLength.

(** Both ends of the edge index the list. *)
Definition in_bounds (points : list point) (e : edge) : Prop :=
  (fst e < length points)%nat /\ (snd e < length points)%nat.

(** The edge joins two distinct points of the list. *)
Definition proper (points : list point) (e : edge) : Prop :=
  exists P1 P2,
    nth_error points (fst e) = Some P1 /\ nth_error points (snd e) = Some P2 /\
    0 < length2d P1 P2.

(** A computation under which the list only grows, whatever its outcome. *)
Definition grows_in {A : Type} (m : M A) : Prop := forall s, grows s (snd (m s)).

Definition area3 (t : triangle) : R :=
  let '(a, b, c) := t in norm (cross (v3sub b a) (v3sub c a)) / 2.

Definition area2 (a b c : point) : R :=
  Rabs ((fst b - fst a) * (snd c - snd a) - (snd b - snd a) * (fst c - fst a)) / 2.

(** The area of a simplex of the 2D triangulation. *)
Definition simplex_area2 (points : list point) (s : simplex) : R :=
  let '(x, y, z) := s in
  area2 (nth x points (0, 0)) (nth y points (0, 0)) (nth z points (0, 0)).

Definition dist3 (a b : V3) : R := norm (v3sub b a).

(** Every edge of the triangle is at most [m] long. *)
Definition edges_le (m : R) (t : triangle) : Prop :=
  let '(a, b, c) := t in dist3 a b <= m /\ dist3 b c <= m /\ dist3 a c <= m.

Definition nondegenerate (t : triangle) : Prop :=
  let '(a, b, c) := t in cross (v3sub b a) (v3sub c a) <> v3zero.

(** A triangle of zero area: its vertices lie on one line. *)
Definition degenerate (t : triangle) : Prop :=
  let '(a, b, c) := t in cross (v3sub b a) (v3sub c a) = v3zero.

(** *** A triangulation of the smallest inputs

    Three points not on a line are their own triangulation; with the
    midpoint of the second and third as a fourth point there are two
    triangles; on anything else this triangulation gives up, as Qhull does
    on points of one line.  The edges of a set are visited in the order of
    [nodup]. *)
Definition collinear (a b c : point) : bool :=
  if Req_dec_T ((fst b - fst a) * (snd c - snd a) - (snd b - snd a) * (fst c - fst a)) 0
  then true else false.

Definition is_midpoint (m a b : point) : bool :=
  (if Req_dec_T (fst m) ((fst a + fst b) / 2) then true else false)
  && (if Req_dec_T (snd m) ((snd a + snd b) / 2) then true else false).

Definition Delaunay_small (points : list point) : option (list simplex) :=
  match points with
  | [a; b; c] => if collinear a b c then None else Some [(0, 1, 2)%nat]
  | [a; b; c; m] =>
      if collinear a b c then None
      else if is_midpoint m b c then Some [(0, 1, 3)%nat; (0, 3, 2)%nat] else None
  | _ => None
  end.

Definition edge_eq_dec (a b : edge) : {a = b} + {a <> b}.
Proof.
  decide equality; apply Nat.eq_dec.
Defined.

Definition insertion_order (l : list edge) : list edge := nodup edge_eq_dec l.

(** The same triangulation with the indices of a single simplex in the order
    [(1, 2, 0)]. *)
Definition Delaunay_rotated (points : list point) : option (list simplex) :=
  match points with
  | [a; b; c] => if collinear a b c then None else Some [(1, 2, 0)%nat]
  | _ => None
  end.

(** The right triangle with unit legs in the plane [z = 0], and a triangle
    whose vertices lie on the [x] axis. *)
Definition unit_triangle : triangle := (mkV3 0 0 0, mkV3 1 0 0, mkV3 0 1 0).
Definition flat_triangle : triangle := (mkV3 0 0 0, mkV3 1 0 0, mkV3 2 0 0).

(** A scene of one mesh: the unit triangle under a red material that does
    not emit. *)
Definition unit_scene : scene :=
  [(String.EmptyString, mkMesh [unit_triangle] (Some (mkMaterial (Some [1; 0; 0]) None)))].

End Refiner.

(* ----------------------------------------------------------------- *)
(** ** Geometry of a subdivision *)

Module Subdivision.

Import Refiner.

(** The point [piece / nPieces] of the way from [P1] to [P2]: what the
    inner loop of [splitViaDelaunay] appends for [piece]. *)
Definition piece_point (P1 P2 : point) (nPieces piece : Z) : point :=
  (fst P1 + IZR piece / IZR nPieces * (fst P2 - fst P1),
   snd P1 + IZR piece / IZR nPieces * (snd P2 - snd P1)).

Definition vertices (t : triangle) : list V3 := let '(a, b, c) := t in [a; b; c].

(** [p] lies in the closed triangle [t]. *)
Definition in_triangle3 (t : triangle) (p : V3) : Prop :=
  let '(a, b, c) := t in
  exists al be ga : R,
    0 <= al /\ 0 <= be /\ 0 <= ga /\ al + be + ga = 1 /\
    p = v3add (v3add (v3scale al a) (v3scale be b)) (v3scale ga c).

(** [p] lies in the plane of [t]. *)
Definition in_plane (t : triangle) (p : V3) : Prop :=
  let '(a, b, c) := t in dot (v3sub p a) (cross (v3sub b a) (v3sub c a)) = 0.

(** The mesh has a material. *)
Definition has_material (km : String.string * mesh) : Prop :=
  visual_material (snd km) <> None.

(** The patches of a mesh: each of its triangles, in order, with the
    reflectance and the emission its material gives; and the patches of a
    scene, mesh after mesh. *)
Definition mesh_patches (m : mesh) : list (triangle * (vec * vec)) :=
  match visual_material m with
  | Some mat =>
      map (fun t => (t, (get_default (kd mat) default_kd, get_default (ke mat) default_ke)))
          (triangles m)
  | None => []
  end.

Definition scene_patches (sc : scene) : list (triangle * (vec * vec)) :=
  flat_map (fun km => mesh_patches (snd km)) sc.

(** The mesh [km'] is the refinement of the mesh [km]: it keeps the
    material, and its triangles are those [subdivide_triangles] returns for
    the triangles of [km], after [fix_normals]. *)
Definition refined_from (Delaunay : list point -> option (list simplex))
           (set_order : list edge -> list edge)
           (fix_normals : list triangle -> list triangle)
           (depth : nat) (maxLength : R) (km km' : String.string * mesh) : Prop :=
  visual_material (snd km') = visual_material (snd km) /\
  exists refined,
    subdivide_triangles Delaunay set_order depth (triangles (snd km)) maxLength
    = Returned refined /\
    triangles (snd km') = fix_normals refined.

(** The six orders of the indices of three points, and a triangle with its
    vertices taken in such an order. *)
Definition orders3 : list simplex :=
  [(0, 1, 2); (0, 2, 1); (1, 0, 2); (1, 2, 0); (2, 0, 1); (2, 1, 0)]%nat.

Definition reorder (s : simplex) (t : triangle) : triangle :=
  let '(x, y, z) := s in
  (nth x (vertices t) v3zero, nth y (vertices t) v3zero, nth z (vertices t) v3zero).

(** A colour of three non-negative channels. *)
Definition rgb_nonneg (c : vec) : Prop := length c = 3%nat /\ Forall (Rle 0) c.

(** The [kd] and [ke] the material gives, where it gives them, are such
    colours. *)
Definition material_ok (mat : material) : Prop :=
  (forall c, kd mat = Some c -> rgb_nonneg c) /\
  (forall c, ke mat = Some c -> rgb_nonneg c).

End Subdivision.

(* ----------------------------------------------------------------- *)
(** ** Vertex and face arrays, and the PLY export

    The arrays [create_ply_with_vertex_color] and
    [create_ply_with_face_color] hand to [PlyData]; the file is not written
    here.  Colours are rows of three channels, as the shapes in the source's
    comments say. *)

Module Mesh.

Import Refiner.

Abbreviation face := (nat * nat * nat)%type.

Definition rbind {A B : Type} (x : result A) (f : A -> result B) : result B :=
  match x with
  | Returned a => f a
  | Raised e => Raised e
  end.

Notation "x <-- m ;; k" := (rbind m (fun x => k))
  (at level 61, m at next level, right associativity).

(** [triangles.reshape(-1, 3)]: the vertices of all triangles, in order. *)
Definition reshape_vertices (T : list triangle) : list V3 :=
  flat_map (fun t : triangle => let '(a, b, c) := t in [a; b; c]) T.

(** [a.reshape(-1, 3)] of a flat array: rows of three; [ValueError] when
    the size is no multiple of 3. *)
Fixpoint reshape3 {A : Type} (l : list A) : result (list (A * A * A)) :=
  match l with
  | [] => Returned []
  | a :: b :: c :: rest =>
      match reshape3 rest with
      | Returned rows => Returned ((a, b, c) :: rows)
      | Raised e => Raised e
      end
  | _ => Raised ValueError
  end.

(** [np.arange(n).reshape(-1, 3)] *)
Definition arange_faces (n : nat) : result (list face) := reshape3 (seq 0 n).

(** [vertices[i]] *)
Definition vertex_at (vertices : list V3) (i : nat) : result V3 :=
  match nth_error vertices i with
  | Some p => Returned p
  | None => Raised IndexError
  end.

(** [vertices[faces]]: the three vertices of every face (what
    [Trimesh.triangles] holds). *)
Fixpoint mesh_triangles (vertices : list V3) (faces : list face)
  : result (list triangle) :=
  match faces with
  | [] => Returned []
  | (a, b, c) :: rest =>
      va <-- vertex_at vertices a ;;
      vb <-- vertex_at vertices b ;;
      vc <-- vertex_at vertices c ;;
      ts <-- mesh_triangles vertices rest ;;
      Returned ((va, vb, vc) :: ts)
  end.

(** [np.repeat(a, 3, axis=0)] *)
Definition repeat3 {A : Type} (l : list A) : list A := flat_map (fun c => [c; c; c]) l.

(** A row of [vertex_data]: [x, y, z] and [red, green, blue]. *)
Record ply_vertex : Type := mkPlyVertex { position : V3; colour : V3 }.

(** [vertex_data = np.zeros(len(vertices), dtype)] and the six column
    assignments: a colour column of another length is broadcast when it has
    one entry and raises [ValueError] otherwise. *)
Definition pack (vertices colours : list V3) : result (list ply_vertex) :=
  if Nat.eqb (length colours) (length vertices) then
    Returned (map2 mkPlyVertex vertices colours)
  else
    match colours with
    | [c] => Returned (map (fun v => mkPlyVertex v c) vertices)
    | _ => Raised ValueError
    end.

(** [create_ply_with_face_color(triangles, face_colors, ...)]: the vertex
    rows and the faces written to the file. *)
Definition create_ply_with_face_color (triangles : list triangle) (face_colors : list V3)
  : result (list ply_vertex * list face) :=
  let all_vertices := reshape_vertices triangles in
  all_faces <-- arange_faces (length all_vertices) ;;
  let triangle_colors := face_colors in
  duplicated <-- mesh_triangles all_vertices all_faces ;;
  let duplicated_vertices := reshape_vertices duplicated in
  let n_faces := length all_faces in
  duplicated_faces <-- arange_faces (n_faces * 3) ;;
  let per_vertex_colors := repeat3 triangle_colors in
  vertex_data <-- pack duplicated_vertices per_vertex_colors ;;
  Returned (vertex_data, duplicated_faces).

(** [+ 1] on an [int32]. *)
Definition wrap32 (z : Z) : Z := ((z + 2 ^ 31) mod 2 ^ 32 - 2 ^ 31)%Z.

(** [a[i] = f(a[i])] *)
Fixpoint update_at {A : Type} (l : list A) (i : nat) (f : A -> A) : result (list A) :=
  match l, i with
  | [], _ => Raised IndexError
  | a :: t, O => Returned (f a :: t)
  | a :: t, S k =>
      match update_at t k f with
      | Returned t' => Returned (a :: t')
      | Raised e => Raised e
      end
  end.

(** A loop whose body may raise. *)
Fixpoint rfold {A S : Type} (body : S -> A -> result S) (l : list A) (s : S) : result S :=
  match l with
  | [] => Returned s
  | a :: t => s' <-- body s a ;; rfold body t s'
  end.

Section VertexColor.

(** [np.unique(all_vertices, axis=0, return_inverse=True)]: the distinct
    vertices, and for every vertex its index among them. *)
Variable unique : list V3 -> list V3 * list nat.

(** The body of the two loops, for the corner [local_vidx] of triangle
    [tri_idx]. *)
Definition add_corner (inverse_indices : list nat) (triangle_colors : list V3)
           (acc : list V3 * list Z) (corner : nat * nat) : result (list V3 * list Z) :=
  let '(vertex_colors, vertex_counts) := acc in
  let '(tri_idx, local_vidx) := corner in
  match nth_error inverse_indices (tri_idx * 3 + local_vidx) with
  | None => Raised IndexError
  | Some global_vidx =>
      match nth_error vertex_colors global_vidx, nth_error triangle_colors tri_idx with
      | None, _ => Raised IndexError
      | _, None => Raised IndexError
      | Some _, Some c =>
          vertex_colors <-- update_at vertex_colors global_vidx (fun x => v3add x c) ;;
          vertex_counts <-- update_at vertex_counts global_vidx (fun k => wrap32 (k + 1)) ;;
          Returned (vertex_colors, vertex_counts)
      end
  end.

(** The corners in the order the loops visit them. *)
Definition corners (n_faces : nat) : list (nat * nat) :=
  flat_map (fun tri_idx => map (fun local_vidx => (tri_idx, local_vidx)) (seq 0 3))
           (seq 0 n_faces).

(** [create_ply_with_vertex_color(triangles, vertex_colors, ...)]: the
    vertex rows and the faces written to the file.  A vertex no corner maps
    to would be divided by a count of zero. *)
Definition create_ply_with_vertex_color (triangles : list triangle) (vertex_colors : list V3)
  : result (list ply_vertex * list face) :=
  let all_vertices := reshape_vertices triangles in
  all_faces <-- arange_faces (length all_vertices) ;;
  let triangle_colors := vertex_colors in
  let '(unique_vertices, inverse_indices) := unique all_vertices in
  let num_unique := length unique_vertices in
  let vertex_colors := repeat v3zero num_unique in
  let vertex_counts := repeat 0%Z num_unique in
  acc <-- rfold (add_corner inverse_indices triangle_colors)
                (corners (length all_faces)) (vertex_colors, vertex_counts) ;;
  let '(vertex_colors, vertex_counts) := acc in
  let vertex_colors := map2 (fun c k => v3div c (IZR k)) vertex_colors vertex_counts in
  vertex_data <-- pack unique_vertices vertex_colors ;;
  remapped_faces <-- reshape3 inverse_indices ;;
  Returned (vertex_data, remapped_faces).

End VertexColor.

(** *** What [np.unique] promises, and an implementation of it *)

(** The inverse has an index for every vertex, each index gives the vertex
    back, and every distinct vertex is the image of some index. *)
Definition unique_contract (unique : list V3 -> list V3 * list nat) (V : list V3) : Prop :=
  let '(U, inv) := unique V in
  length inv = length V /\
  (forall k v, nth_error V k = Some v ->
               exists g, nth_error inv k = Some g /\ nth_error U g = Some v) /\
  (forall g, (g < length U)%nat -> In g inv).

(** The vertex the corner maps to, the corners of [n_faces] triangles that
    map to the vertex [g], and the mean of their triangles' colours. *)
Definition corner_vertex (inverse_indices : list nat) (corner : nat * nat) : nat :=
  nth (fst corner * 3 + snd corner) inverse_indices 0%nat.

Definition corners_at (inverse_indices : list nat) (n_faces g : nat) : list (nat * nat) :=
  filter (fun corner => Nat.eqb (corner_vertex inverse_indices corner) g) (corners n_faces).

Definition v3sum (l : list V3) : V3 := fold_right v3add v3zero l.

Definition mean_colour (inverse_indices : list nat) (triangle_colors : list V3)
           (n_faces g : nat) : V3 :=
  let at_g := corners_at inverse_indices n_faces g in
  v3div (v3sum (map (fun corner => nth (fst corner) triangle_colors v3zero) at_g))
        (IZR (Z.of_nat (length at_g))).

(** Every channel of the colour lies in [[lo, hi]]. *)
Definition colour_within (lo hi : R) (c : V3) : Prop :=
  lo <= vx c <= hi /\ lo <= vy c <= hi /\ lo <= vz c <= hi.

(** Two triangles that share an edge, and the four distinct vertices with
    the index of every corner. *)
Definition two_triangles : list triangle :=
  [(mkV3 0 0 0, mkV3 1 0 0, mkV3 0 1 0); (mkV3 1 0 0, mkV3 1 1 0, mkV3 0 1 0)].

Definition unique_two : list V3 -> list V3 * list nat :=
  fun _ => ([mkV3 0 0 0; mkV3 0 1 0; mkV3 1 0 0; mkV3 1 1 0], [0; 2; 1; 2; 3; 1]%nat).

End Mesh.

(* ----------------------------------------------------------------- *)
(** ** Bounds on arrays *)

Module Energy.

(** Every entry of the array is at most [M]. *)
Definition all_le (M : R) (X : matrix) : Prop := Forall (Forall (fun x => x <= M)) X.

(** Every row of [F] sums to at most 1: no patch sends out more than it
    emits and reflects. *)
Definition row_sums_le_1 (F : matrix) : Prop := Forall (fun row => Rsum row <= 1) F.

Definition zero_row (r : vec) : Prop := Forall (fun x => x = 0) r.

(** Component-wise order of vectors. *)
Definition v3le (a b : V3) : Prop := vx a <= vx b /\ vy a <= vy b /\ vz a <= vz b.

(** [k * X] *)
Definition mscale (k : R) (X : matrix) : matrix := map (map (Rmult k)) X.

End Energy.

(* ================================================================= *)
(** * Part II: properties *)
(* ================================================================= *)

(** ** Lists *)

Section ListFacts.

Context {A B C : Type}.

Lemma map2_length (f : A -> B -> C) (l : list A) (l' : list B) :
  length (map2 f l l') = Nat.min (length l) (length l').
Proof.
  revert l'; induction l as [|a t IH]; intros [|b t']; simpl; auto.
Qed.

Lemma nth_map2 (f : A -> B -> C) (l : list A) (l' : list B) k d da db :
  (k < length l)%nat -> (k < length l')%nat ->
  nth k (map2 f l l') d = f (nth k l da) (nth k l' db).
Proof.
  revert l' k; induction l as [|a t IH]; intros [|b t'] [|k]; simpl; intros; try lia; auto.
  apply IH; lia.
Qed.

Lemma map2_map_same {X : Type} (f : A -> B -> C) (g : X -> A) (h : X -> B) (l : list X) :
  map2 f (map g l) (map h l) = map (fun x => f (g x) (h x)) l.
Proof.
  induction l; simpl; congruence.
Qed.

Lemma mask_select_map {X : Type} (p : X -> bool) (g : X -> A) (l : list X) :
  mask_select (map p l) (map g l) = map g (filter p l).
Proof.
  unfold mask_select; induction l as [|x t IH]; simpl; auto.
  destruct (p x); simpl; congruence.
Qed.

End ListFacts.

Lemma mask_select_id {X : Type} (p : X -> bool) (l : list X) :
  mask_select (map p l) l = filter p l.
Proof.
  rewrite <- (map_id l) at 2. rewrite mask_select_map. apply map_id.
Qed.

Lemma nth_map_seq {X : Type} (f : nat -> X) (n i : nat) (d : X) :
  (i < n)%nat -> nth i (map f (seq 0 n)) d = f i.
Proof.
  intros Hi. rewrite (nth_indep _ d (f 0%nat)) by (rewrite length_map, length_seq; lia).
  rewrite map_nth, seq_nth by lia. reflexivity.
Qed.

(** Equality of explicit arrays, entry by entry. *)
Ltac list_eq :=
  repeat match goal with
         | |- _ :: _ = _ :: _ => apply (f_equal2 cons)
         | |- [] = [] => reflexivity
         | |- @eq R _ _ => lra
         end.

Lemma Rsum_app (l l' : list R) : Rsum (l ++ l') = Rsum l + Rsum l'.
Proof.
  unfold Rsum; induction l; simpl; lra.
Qed.

Lemma Rsum_nonneg (l : list R) : Forall (Rle 0) l -> 0 <= Rsum l.
Proof.
  induction 1; simpl; lra.
Qed.

Lemma Rsum_le {X : Type} (f g : X -> R) (l : list X) :
  (forall x, In x l -> f x <= g x) -> Rsum (map f l) <= Rsum (map g l).
Proof.
  induction l as [|x t IH]; simpl; intros H; [lra|].
  pose proof (H x (or_introl eq_refl)).
  assert (Rsum (map f t) <= Rsum (map g t)) by (apply IH; auto).
  unfold Rsum in *; lra.
Qed.

Lemma Rsum_zero {X : Type} (f : X -> R) (l : list X) :
  (forall x, In x l -> f x = 0) -> Rsum (map f l) = 0.
Proof.
  induction l as [|x t IH]; simpl; intros H; auto.
  rewrite (H x (or_introl eq_refl)), IH; auto; lra.
Qed.

(* ----------------------------------------------------------------- *)
(** ** The radiosity loop *)

Section SolverFacts.

Import Solver.

Lemma has_shape_nth N C X i :
  has_shape N C X -> (i < N)%nat -> length (nth i X []) = C.
Proof.
  intros [HN HC] Hi. rewrite Forall_forall in HC. apply HC, nth_In. lia.
Qed.

Lemma zeros_like_shape N C E :
  has_shape N C E -> zeros_like E = repeat (repeat 0 C) N.
Proof.
  intros [HN HC]. subst N. unfold zeros_like.
  induction E as [|row E IH]; simpl; auto.
  inversion HC; subst. f_equal; auto.
  clear. induction row; simpl; congruence.
Qed.

Lemma has_shape_zeros N C : has_shape N C (repeat (repeat 0 C) N).
Proof.
  split; [apply repeat_length|].
  apply Forall_forall; intros x Hx. apply repeat_spec in Hx; subst. apply repeat_length.
Qed.

Lemma has_shape_update N C F rho E B : has_shape N C (update_spec N C F rho E B).
Proof.
  unfold update_spec; split.
  - rewrite length_map, length_seq; auto.
  - apply Forall_forall; intros x Hx. apply in_map_iff in Hx as (i & <- & _).
    rewrite length_map, length_seq; auto.
Qed.

Lemma ncols_shape N C X : has_shape N C X -> (0 < N)%nat -> ncols X = C.
Proof.
  intros H HN. unfold ncols. destruct X as [|row X]; simpl.
  - destruct H as [H _]; simpl in H; lia.
  - destruct H as [_ H]; inversion H; auto.
Qed.

(** The accumulation over the stored entries of one row. *)
Lemma fold_dot (B : matrix) (C : nat) (r : csr_row) :
  forall acc : vec,
    length acc = C ->
    (forall jv, In jv r -> length (nth (fst jv) B []) = C) ->
    let out := fold_left (fun acc jv => vadd acc (vscale (snd jv) (nth (fst jv) B []))) r acc in
    length out = C /\
    forall c, (c < C)%nat ->
      nth c out 0 = nth c acc 0 + Rsum (map (fun jv => snd jv * nth c (nth (fst jv) B []) 0) r).
Proof.
  induction r as [|[j v] r IH]; simpl; intros acc Hacc Hr.
  - split; auto. intros; lra.
  - assert (Hj : length (nth j B []) = C) by (apply (Hr (j, v)); auto).
    assert (Hlen : length (vadd acc (vscale v (nth j B []))) = C).
    { unfold vadd, vscale. rewrite map2_length, length_map. lia. }
    destruct (IH _ Hlen (fun jv H => Hr jv (or_intror H))) as [H1 H2].
    split; auto. intros c Hc. rewrite (H2 c Hc).
    unfold vadd, vscale.
    rewrite (nth_map2 Rplus _ _ c 0 0 0) by (rewrite ?length_map; lia).
    rewrite (nth_indep (map (Rmult v) (nth j B [])) 0 (v * 0)) by (rewrite length_map; lia).
    rewrite map_nth. lra.
Qed.

Lemma Rsum_filter_nonzero (h : nat -> R) (l : list (nat * R)) :
  Rsum (map (fun jv => snd jv * h (fst jv)) (filter (fun jv => is_nonzero (snd jv)) l))
  = Rsum (map (fun jv => snd jv * h (fst jv)) l).
Proof.
  induction l as [|[j v] l IH]; simpl; auto.
  unfold is_nonzero at 1; simpl. destruct (Req_dec_T v 0) as [->|Hv]; simpl; rewrite IH; lra.
Qed.

Lemma Rsum_combine_seq (h : nat -> R) (row : list R) :
  forall a,
    Rsum (map (fun jv => snd jv * h (fst jv)) (combine (seq a (length row)) row))
    = Rsum (map (fun j => nth (j - a) row 0 * h j) (seq a (length row))).
Proof.
  induction row as [|x row IH]; simpl; intros a; auto.
  rewrite IH, Nat.sub_diag. f_equal.
  f_equal. apply map_ext_in. intros j Hj. apply in_seq in Hj.
  replace (j - a)%nat with (S (j - S a)) by lia. reflexivity.
Qed.

(** A stored row against [B] is the full sum over the columns. *)
Lemma csr_row_dot_spec N C (row : list R) (B : matrix) :
  length row = N -> has_shape N C B -> (0 < N)%nat ->
  let out := csr_row_dot (filter (fun jv => is_nonzero (snd jv))
                                 (combine (seq 0 (length row)) row)) B in
  length out = C /\
  forall c, (c < C)%nat ->
    nth c out 0 = Rsum (map (fun j => nth j row 0 * nth c (nth j B []) 0) (seq 0 N)).
Proof.
  intros Hrow HB HN. unfold csr_row_dot.
  rewrite (ncols_shape N C B HB HN).
  edestruct (fold_dot B C) as [H1 H2]; [apply repeat_length| |split; [exact H1|]].
  - intros [j v] Hin. apply filter_In in Hin as [Hin _].
    apply in_combine_l in Hin. apply in_seq in Hin. simpl.
    apply (has_shape_nth N C); auto. lia.
  - intros c Hc. rewrite (H2 c Hc).
    rewrite nth_repeat.
    rewrite (Rsum_filter_nonzero (fun j => nth c (nth j B []) 0)).
    rewrite (Rsum_combine_seq (fun j => nth c (nth j B []) 0)), Hrow.
    rewrite Rplus_0_l. f_equal. apply map_ext. intros j. rewrite Nat.sub_0_r. reflexivity.
Qed.

(** One pass of the loop is one application of the rule. *)
Lemma bounce_spec N C F rho E B :
  has_shape N N F -> has_shape N C rho -> has_shape N C E -> has_shape N C B ->
  bounce (csr_matrix F) rho E B = update_spec N C F rho E B.
Proof.
  intros HF Hrho HE HB.
  destruct (Nat.eq_dec N 0) as [->|HN].
  { destruct HE as [HE _]. apply length_zero_iff_nil in HE. subst E. reflexivity. }
  assert (Hrowlen : forall i, (i < N)%nat ->
            length (nth i (matmul (csr_matrix F) B) []) = C /\
            forall c, (c < C)%nat ->
              nth c (nth i (matmul (csr_matrix F) B) []) 0 = incoming_spec N F B i c).
  { intros i Hi. unfold matmul, csr_matrix. rewrite map_map.
    set (g := fun x : list R => _).
    assert (Hg : nth i (map g F) [] = g (nth i F [])).
    { rewrite (nth_indep (map g F) [] (g [])) by (rewrite length_map; destruct HF; lia).
      apply map_nth. }
    rewrite Hg. subst g. simpl.
    apply (csr_row_dot_spec N C); auto; try lia.
    apply (has_shape_nth N N); auto. }
  assert (Hmm : length (matmul (csr_matrix F) B) = N).
  { unfold matmul, csr_matrix. rewrite !length_map. apply HF. }
  unfold bounce, madd, mmul, update_spec.
  apply (nth_ext _ _ [] []).
  - rewrite !map2_length, length_map, length_seq, Hmm.
    destruct Hrho as [-> _], HE as [-> _]. lia.
  - intros i Hi.
    rewrite !map2_length, Hmm in Hi.
    destruct Hrho as [Hr1 Hr2], HE as [HE1 HE2]. rewrite Hr1, HE1 in Hi.
    assert (HiN : (i < N)%nat) by lia.
    rewrite (nth_map2 _ _ _ i [] [] []) by (rewrite ?map2_length; lia).
    rewrite (nth_map2 _ _ _ i [] [] []) by lia.
    rewrite nth_map_seq by lia.
    destruct (Hrowlen i HiN) as [Hl Hv].
    assert (HEi : length (nth i E []) = C) by (apply (has_shape_nth N C); auto; split; auto).
    assert (Hri : length (nth i rho []) = C) by (apply (has_shape_nth N C); auto; split; auto).
    apply (nth_ext _ _ 0 0).
    + rewrite !map2_length, length_map, length_seq. lia.
    + intros c Hc. rewrite !map2_length in Hc.
      assert (HcC : (c < C)%nat) by lia.
      rewrite (nth_map2 _ _ _ c 0 0 0) by (rewrite ?map2_length; lia).
      rewrite (nth_map2 _ _ _ c 0 0 0) by lia.
      rewrite nth_map_seq by lia.
      rewrite (Hv c HcC). reflexivity.
Qed.

Lemma radiosity_loop_iter n Fs rho E B :
  radiosity_loop n Fs rho E B = Nat.iter n (bounce Fs rho E) B.
Proof.
  revert B; induction n as [|n IH]; intros B; simpl; auto.
  rewrite IH. clear IH. induction n; simpl; congruence.
Qed.

Lemma has_shape_iterate N C F rho E n : has_shape N C (iterate_spec N C F rho E n).
Proof.
  destruct n; simpl; [apply has_shape_zeros | apply has_shape_update].
Qed.

Lemma solve_iterate N C F rho E (n : nat) :
  has_shape N N F -> has_shape N C rho -> has_shape N C E ->
  solve F rho E (Z.of_nat n) = iterate_spec N C F rho E n.
Proof.
  intros HF Hrho HE. unfold solve. rewrite Nat2Z.id, radiosity_loop_iter.
  rewrite (zeros_like_shape N C E HE).
  induction n as [|n IH]; simpl; auto.
  rewrite IH. apply bounce_spec; auto. apply has_shape_iterate.
Qed.

End SolverFacts.

Section SolverOrder.

Import Solver.

Lemma nonneg_nth X i c : nonneg X -> 0 <= nth c (nth i X []) 0.
Proof.
  intros H. unfold nonneg in H. rewrite Forall_forall in H.
  destruct (Nat.lt_ge_cases i (length X)) as [Hi|Hi].
  - specialize (H _ (nth_In X [] Hi)). rewrite Forall_forall in H.
    destruct (Nat.lt_ge_cases c (length (nth i X []))) as [Hc|Hc].
    + apply H, nth_In, Hc.
    + rewrite (nth_overflow _ 0 Hc). lra.
  - rewrite (nth_overflow X [] Hi). destruct c; simpl; lra.
Qed.

Lemma Forall_map2 (P : R -> Prop) (f : R -> R -> R) (a b : list R) :
  (forall x y, P x -> P y -> P (f x y)) ->
  Forall P a -> Forall P b -> Forall P (map2 f a b).
Proof.
  intros Hf Ha. revert b. induction Ha; intros b Hb; destruct Hb; simpl; auto.
Qed.

Lemma nonneg_row X j : nonneg X -> Forall (Rle 0) (nth j X []).
Proof.
  intros H. unfold nonneg in H. rewrite Forall_forall in H.
  destruct (Nat.lt_ge_cases j (length X)) as [Hj|Hj].
  - apply H, nth_In, Hj.
  - rewrite (nth_overflow X [] Hj). constructor.
Qed.

Lemma csr_row_dot_nonneg (r : csr_row) (B : matrix) :
  Forall (fun jv => 0 <= snd jv) r -> nonneg B -> Forall (Rle 0) (csr_row_dot r B).
Proof.
  intros Hr HB. unfold csr_row_dot.
  assert (Hacc : Forall (Rle 0) (repeat 0 (ncols B))).
  { apply Forall_forall. intros x Hx. apply repeat_spec in Hx. lra. }
  revert Hacc. generalize (repeat 0 (ncols B)).
  induction Hr as [|[j v] r Hv Hr IH]; simpl; intros acc Hacc; auto.
  apply IH. unfold vadd, vscale. apply Forall_map2; auto.
  - intros; lra.
  - apply Forall_forall. intros x Hx. apply in_map_iff in Hx as (y & <- & Hy).
    pose proof (nonneg_row B j HB) as Hrow. rewrite Forall_forall in Hrow.
    specialize (Hrow y Hy). simpl in Hv. nra.
Qed.

Lemma csr_matrix_nonneg (F : matrix) :
  nonneg F -> Forall (Forall (fun jv : nat * R => 0 <= snd jv)) (csr_matrix F).
Proof.
  intros HF. unfold csr_matrix. apply Forall_forall. intros r Hr.
  apply in_map_iff in Hr as (row & <- & Hrow).
  unfold nonneg in HF. rewrite Forall_forall in HF. specialize (HF row Hrow).
  rewrite Forall_forall in HF.
  apply Forall_forall. intros [j v] Hjv. apply filter_In in Hjv as [Hjv _].
  apply in_combine_r in Hjv. simpl. auto.
Qed.

(** A pass of the loop keeps [B] non-negative. *)
Lemma bounce_nonneg Fs rho E B :
  Forall (Forall (fun jv : nat * R => 0 <= snd jv)) Fs ->
  nonneg rho -> nonneg E -> nonneg B -> nonneg (bounce Fs rho E B).
Proof.
  intros HFs Hrho HE HB. unfold bounce, madd, mmul, nonneg.
  assert (Hm : Forall (Forall (Rle 0)) (matmul Fs B)).
  { unfold matmul. apply Forall_forall. intros x Hx.
    apply in_map_iff in Hx as (r & <- & Hr). rewrite Forall_forall in HFs.
    apply csr_row_dot_nonneg; auto. }
  assert (Hrm : Forall (Forall (Rle 0)) (map2 (map2 Rmult) rho (matmul Fs B))).
  { clear HE. revert Hm. generalize (matmul Fs B).
    induction Hrho as [|a rho Ha Hrho IH]; intros m Hm'; destruct Hm'; simpl; constructor; auto.
    apply Forall_map2; auto. intros; nra. }
  revert Hrm. generalize (map2 (map2 Rmult) rho (matmul Fs B)).
  induction HE as [|a E' Ha HE' IH]; intros m Hm'; destruct Hm'; simpl; constructor; auto.
  apply Forall_map2; auto. intros; lra.
Qed.

Lemma zeros_like_nonneg E : nonneg (zeros_like E).
Proof.
  unfold zeros_like, nonneg. apply Forall_forall. intros x Hx.
  apply in_map_iff in Hx as (row & <- & _).
  apply Forall_forall. intros y Hy. apply in_map_iff in Hy as (z & <- & _). lra.
Qed.

Lemma radiosity_per_bounce_nonneg n Fs rho E B :
  Forall (Forall (fun jv : nat * R => 0 <= snd jv)) Fs ->
  nonneg rho -> nonneg E -> nonneg B ->
  Forall nonneg (radiosity_per_bounce n Fs rho E B) /\ nonneg (radiosity_loop n Fs rho E B).
Proof.
  intros HFs Hrho HE. revert B. induction n as [|n IH]; intros B HB; simpl.
  - split; auto.
  - pose proof (bounce_nonneg Fs rho E B HFs Hrho HE HB) as Hb.
    destruct (IH _ Hb) as [H1 H2]. split; auto.
Qed.

(** The recorded values are the states of the loop: the [k]-th recorded
    array is what a run of [k + 1] passes ends with. *)
Lemma radiosity_per_bounce_nth n Fs rho E :
  forall B k, (k < n)%nat ->
    nth k (radiosity_per_bounce n Fs rho E B) [] = radiosity_loop (S k) Fs rho E B.
Proof.
  induction n as [|n IH]; intros B k Hk; [lia|].
  destruct k as [|k]; simpl; auto.
  rewrite IH by lia. reflexivity.
Qed.

Lemma radiosity_per_bounce_length n Fs rho E B :
  length (radiosity_per_bounce n Fs rho E B) = n.
Proof.
  revert B; induction n; intros; simpl; auto.
Qed.

(** Entries of the rule. *)
Lemma update_entry N C F rho E B i c :
  (i < N)%nat -> (c < C)%nat ->
  nth c (nth i (update_spec N C F rho E B) []) 0
  = nth c (nth i E []) 0 + nth c (nth i rho []) 0 * incoming_spec N F B i c.
Proof.
  intros Hi Hc. unfold update_spec. rewrite nth_map_seq by auto.
  rewrite nth_map_seq by auto. reflexivity.
Qed.

Lemma shape_ext N C X Y :
  has_shape N C X -> has_shape N C Y ->
  (forall i c, (i < N)%nat -> (c < C)%nat ->
               nth c (nth i X []) 0 = nth c (nth i Y []) 0) ->
  X = Y.
Proof.
  intros HX HY H. apply (nth_ext _ _ [] []).
  - destruct HX as [-> _], HY as [-> _]; auto.
  - intros i Hi. assert (HiN : (i < N)%nat) by (destruct HX as [<- _]; auto).
    pose proof (has_shape_nth N C X i HX HiN) as H1.
    pose proof (has_shape_nth N C Y i HY HiN) as H2.
    apply (nth_ext _ _ 0 0); [congruence|].
    intros c Hc. apply H; auto. lia.
Qed.

Lemma row_le (x y : list R) :
  length x = length y ->
  (forall c, (c < length x)%nat -> nth c x 0 <= nth c y 0) ->
  Forall2 Rle x y.
Proof.
  revert y. induction x as [|a x IH]; intros [|b y] Hl H; simpl in *;
    try discriminate; constructor.
  - apply (H 0%nat); lia.
  - apply IH; [lia|]. intros c Hc. apply (H (S c)); lia.
Qed.

Lemma shape_mle N C X Y :
  has_shape N C X -> has_shape N C Y ->
  (forall i c, (i < N)%nat -> (c < C)%nat ->
               nth c (nth i X []) 0 <= nth c (nth i Y []) 0) ->
  mle X Y.
Proof.
  intros [HX1 HX2] [HY1 HY2]. subst N. revert Y HY1 HY2.
  induction X as [|x X IH]; intros [|y Y] HY1 HY2 H; simpl in *; try discriminate.
  - constructor.
  - inversion HX2; subst. inversion HY2; subst. constructor.
    + apply row_le; [congruence|]. intros c Hc. apply (H 0%nat c); lia.
    + apply IH; auto. intros i c Hi Hc. apply (H (S i) c); auto. lia.
Qed.

Lemma iterate_entry_zero N C i c : nth c (nth i (repeat (repeat 0 C) N) []) 0 = 0.
Proof.
  destruct (Nat.lt_ge_cases i N) as [Hi|Hi].
  - rewrite (nth_indep (repeat (repeat 0 C) N) [] (repeat 0 C)) by (rewrite repeat_length; auto).
    rewrite nth_repeat. destruct (Nat.lt_ge_cases c C) as [Hc|Hc].
    + rewrite nth_repeat; auto.
    + apply nth_overflow. rewrite repeat_length; auto.
  - rewrite (nth_overflow (repeat (repeat 0 C) N) []) by (rewrite repeat_length; auto).
    destruct c; auto.
Qed.

(** The iterates grow entry by entry. *)
Lemma iterate_entries_grow N C F rho E :
  nonneg F -> nonneg rho -> nonneg E ->
  forall n i c, (i < N)%nat -> (c < C)%nat ->
    nth c (nth i (iterate_spec N C F rho E n) []) 0
    <= nth c (nth i (iterate_spec N C F rho E (S n)) []) 0.
Proof.
  intros HF Hrho HE. induction n as [|n IH]; intros i c Hi Hc.
  - simpl. rewrite iterate_entry_zero, update_entry by auto.
    pose proof (nonneg_nth E i c HE). pose proof (nonneg_nth rho i c Hrho).
    assert (0 <= incoming_spec N F (repeat (repeat 0 C) N) i c).
    { unfold incoming_spec. apply Rsum_nonneg, Forall_forall. intros x Hx.
      apply in_map_iff in Hx as (j & <- & _). rewrite iterate_entry_zero.
      pose proof (nonneg_nth F i j HF). lra. }
    nra.
  - change (iterate_spec N C F rho E (S (S n)))
      with (update_spec N C F rho E (iterate_spec N C F rho E (S n))).
    change (iterate_spec N C F rho E (S n))
      with (update_spec N C F rho E (iterate_spec N C F rho E n)) at 1.
    rewrite !update_entry by auto.
    pose proof (nonneg_nth rho i c Hrho).
    assert (incoming_spec N F (iterate_spec N C F rho E n) i c
            <= incoming_spec N F (iterate_spec N C F rho E (S n)) i c).
    { unfold incoming_spec. apply Rsum_le. intros j Hj. apply in_seq in Hj.
      pose proof (nonneg_nth F i j HF). specialize (IH j c ltac:(lia) Hc). nra. }
    nra.
Qed.

End SolverOrder.

Section SolverClaims.

Import Solver.

(** The stored entries of a matrix with a zero diagonal. *)
Example csr_matrix_two_patches :
  csr_matrix [[0; 1/2]; [1/2; 0]] = [[(1%nat, 1/2)]; [(0%nat, 1/2)]].
Proof.
  unfold csr_matrix, is_nonzero; simpl.
  destruct (Req_dec_T 0 0) as [_|H]; [|lra].
  destruct (Req_dec_T (1/2) 0) as [H|_]; [lra|]. reflexivity.
Qed.

(** A run of two patches and one channel: the light of the emitter reaches
    the other patch in the second pass. *)
Example solve_two_patches :
  solve [[0; 1/2]; [1/2; 0]] [[1/2]; [1/2]] [[1]; [0]] 2 = [[1]; [1/4]].
Proof.
  change 2%Z with (Z.of_nat 2).
  rewrite (solve_iterate 2 1) by (split; [reflexivity | repeat constructor]).
  unfold iterate_spec, update_spec, incoming_spec, Rsum. simpl.
  list_eq.
Qed.

(** C2.  For a coupling matrix [F] (N by N), reflectance [rho] and emission
    [E] (N by C) and an iteration budget [n], the solver starts from
    [B = 0], makes exactly [n] passes, each one the update
    [B <- E + rho (.) (F . B)] whose product over the stored entries of the
    sparse [F] is the full sum [sum_j F[i][j] * B[j]], and returns the
    [n]-th iterate; the array held after pass [k + 1] is iterate [k + 1]. *)
Theorem solve_performs_n_updates (N C : nat) (F rho E : matrix) (n : nat) :
  has_shape N N F -> has_shape N C rho -> has_shape N C E ->
  solve F rho E (Z.of_nat n) = iterate_spec N C F rho E n /\
  length (solve_trace F rho E (Z.of_nat n)) = n /\
  forall k, (k < n)%nat ->
    nth k (solve_trace F rho E (Z.of_nat n)) [] = iterate_spec N C F rho E (S k).
Proof.
  intros HF Hrho HE. split; [apply solve_iterate; auto|]. unfold solve_trace.
  rewrite Nat2Z.id. split; [apply radiosity_per_bounce_length|].
  intros k Hk. rewrite radiosity_per_bounce_nth by auto.
  rewrite <- (solve_iterate N C F rho E (S k)) by auto.
  unfold solve. rewrite Nat2Z.id. reflexivity.
Qed.

Lemma solve_performs_n_updates_witness :
  solve [[0; 1/2]; [1/2; 0]] [[1/2]; [1/2]] [[1]; [0]] (Z.of_nat 2)
  = iterate_spec 2 1 [[0; 1/2]; [1/2; 0]] [[1/2]; [1/2]] [[1]; [0]] 2 /\
  length (solve_trace [[0; 1/2]; [1/2; 0]] [[1/2]; [1/2]] [[1]; [0]] (Z.of_nat 2)) = 2%nat /\
  forall k, (k < 2)%nat ->
    nth k (solve_trace [[0; 1/2]; [1/2; 0]] [[1/2]; [1/2]] [[1]; [0]] (Z.of_nat 2)) []
    = iterate_spec 2 1 [[0; 1/2]; [1/2; 0]] [[1/2]; [1/2]] [[1]; [0]] (S k).
Proof.
  apply (solve_performs_n_updates 2 1 [[0; 1/2]; [1/2; 0]] [[1/2]; [1/2]] [[1]; [0]] 2);
    (split; [reflexivity | repeat constructor]).
Defined.

(** C4.  When [rho], [E] and [F] are non-negative in every component, the
    array [B] held after each pass of the loop, and the array returned, are
    non-negative in every component. *)
Theorem solver_radiosity_nonneg (F rho E : matrix) (num_iterations : Z) :
  nonneg rho -> nonneg E -> nonneg F ->
  Forall nonneg (solve_trace F rho E num_iterations) /\
  nonneg (solve F rho E num_iterations).
Proof.
  intros Hrho HE HF. unfold solve_trace, solve.
  apply radiosity_per_bounce_nonneg; auto.
  - apply csr_matrix_nonneg; auto.
  - apply zeros_like_nonneg.
Qed.

Lemma solver_radiosity_nonneg_witness :
  Forall nonneg (solve_trace [[0; 1/2]; [1/2; 0]] [[1/2]; [1/2]] [[1]; [0]] 3) /\
  nonneg (solve [[0; 1/2]; [1/2; 0]] [[1/2]; [1/2]] [[1]; [0]] 3).
Proof.
  apply (solver_radiosity_nonneg [[0; 1/2]; [1/2; 0]] [[1/2]; [1/2]] [[1]; [0]] 3);
    repeat constructor; lra.
Defined.

(** C9.  When [rho], [E] and [F] are non-negative, the iterates never
    decrease in any component: the array after [n + 1] passes is at least
    the array after [n] passes; and after one pass from [B = 0] the array is
    [E] itself. *)
Theorem solver_iterates_grow (N C : nat) (F rho E : matrix) :
  has_shape N N F -> has_shape N C rho -> has_shape N C E ->
  nonneg rho -> nonneg E -> nonneg F ->
  (forall n : nat, mle (solve F rho E (Z.of_nat n)) (solve F rho E (Z.of_nat (S n)))) /\
  solve F rho E 1 = E.
Proof.
  intros HF Hrho HE Nrho NE NF. split.
  - intros n. rewrite !(solve_iterate N C) by auto.
    apply (shape_mle N C); try apply has_shape_iterate.
    intros i c Hi Hc. apply iterate_entries_grow; auto.
  - change 1%Z with (Z.of_nat 1). rewrite (solve_iterate N C) by auto.
    apply (shape_ext N C); auto; [apply has_shape_iterate|].
    intros i c Hi Hc. simpl. rewrite update_entry by auto.
    assert (H0 : incoming_spec N F (repeat (repeat 0 C) N) i c = 0).
    { unfold incoming_spec. apply Rsum_zero. intros j _.
      rewrite iterate_entry_zero. lra. }
    rewrite H0. lra.
Qed.

Lemma solver_iterates_grow_witness :
  (forall n : nat,
      mle (solve [[0; 1/2]; [1/2; 0]] [[1/2]; [1/2]] [[1]; [0]] (Z.of_nat n))
          (solve [[0; 1/2]; [1/2; 0]] [[1/2]; [1/2]] [[1]; [0]] (Z.of_nat (S n)))) /\
  solve [[0; 1/2]; [1/2; 0]] [[1/2]; [1/2]] [[1]; [0]] 1 = [[1]; [0]].
Proof.
  apply (solver_iterates_grow 2 1 [[0; 1/2]; [1/2; 0]] [[1/2]; [1/2]] [[1]; [0]]);
    try (split; [reflexivity | repeat constructor]);
    repeat constructor; lra.
Defined.

End SolverClaims.

(* ----------------------------------------------------------------- *)
(** ** The form-factor cell *)

Lemma mask_select_map_r {X Y : Type} (g : X -> Y) (m : list bool) (l : list X) :
  mask_select m (map g l) = map g (mask_select m l).
Proof.
  unfold mask_select. revert l; induction m as [|b m IH]; intros [|x l]; simpl; auto.
  destruct b; simpl; rewrite IH; auto.
Qed.

Lemma mask_select_nil_r {X : Type} (m : list bool) : mask_select m (@nil X) = [].
Proof.
  unfold mask_select. destruct m; reflexivity.
Qed.

Lemma clear_at_nil (n : nat) : FormFactor.clear_at (repeat true n) [] = repeat true n.
Proof.
  unfold FormFactor.clear_at. rewrite repeat_length. simpl.
  generalize 0%nat. induction n as [|n IH]; simpl; intros a; auto. rewrite IH; auto.
Qed.

Lemma existsb_id_map {X : Type} (p : X -> bool) (l : list X) :
  existsb (fun b : bool => b) (map p l) = false -> filter p l = [].
Proof.
  induction l as [|x l IH]; simpl; auto.
  destruct (p x); simpl; [discriminate|auto].
Qed.

Lemma set_nth_length (row : list R) (k : nat) (x : R) : length (set_nth row k x) = length row.
Proof.
  revert k; induction row as [|a row IH]; intros [|k]; simpl; auto.
Qed.

Lemma set_nth_nth (row : list R) (k j : nat) (x : R) :
  (k < length row)%nat ->
  nth j (set_nth row k x) 0 = if Nat.eqb j k then x else nth j row 0.
Proof.
  revert k j; induction row as [|a row IH]; intros [|k] [|j]; simpl; intros H; try lia; auto.
  apply IH; lia.
Qed.

Lemma assign_nth (f : nat -> R) (idx : list nat) :
  forall (row : list R) (j : nat),
    Forall (fun k => (k < length row)%nat) idx ->
    nth j (assign row idx (map f idx)) 0
    = if existsb (Nat.eqb j) idx then f j else nth j row 0.
Proof.
  unfold assign. induction idx as [|k idx IH]; intros row j Hidx; simpl; auto.
  inversion Hidx as [|? ? Hk Hidx']; subst.
  rewrite IH by (rewrite set_nth_length; auto).
  rewrite set_nth_nth by auto.
  destruct (Nat.eqb j k) eqn:Hjk; simpl.
  - apply Nat.eqb_eq in Hjk; subst. destruct (existsb _ _); reflexivity.
  - reflexivity.
Qed.

Lemma clear_at_ones (n : nat) (idx : list nat) :
  FormFactor.clear_at (repeat true n) idx
  = map (fun k => negb (existsb (Nat.eqb k) idx)) (seq 0 n).
Proof.
  unfold FormFactor.clear_at. rewrite repeat_length.
  generalize 0%nat. induction n as [|n IH]; intros a; simpl; auto.
  rewrite IH. reflexivity.
Qed.

Lemma mask_select_seq {X : Type} (f : nat -> bool) (l : list X) :
  forall (a : nat) (x : X),
    In x (mask_select (map f (seq a (length l))) l)
    <-> exists k, nth_error l k = Some x /\ f (a + k)%nat = true.
Proof.
  unfold mask_select.
  induction l as [|y l IH]; intros a x; simpl.
  - split; [tauto|]. intros (k & Hk & _). destruct k; discriminate.
  - destruct (f a) eqn:Hfa; simpl; rewrite IH; split.
    + intros [->|(k & Hk & Hf)].
      * exists 0%nat. rewrite Nat.add_0_r. auto.
      * exists (S k). rewrite Nat.add_succ_r. auto.
    + intros ([|k] & Hk & Hf); simpl in Hk.
      * left. congruence.
      * right. exists k. rewrite Nat.add_succ_r in Hf. auto.
    + intros (k & Hk & Hf). exists (S k). rewrite Nat.add_succ_r. auto.
    + intros ([|k] & Hk & Hf); simpl in Hk.
      * rewrite Nat.add_0_r in Hf. congruence.
      * exists k. rewrite Nat.add_succ_r in Hf. auto.
Qed.

Lemma remove_as_filter (i : nat) (l : list nat) :
  remove Nat.eq_dec i l = filter (fun j => negb (Nat.eqb j i)) l.
Proof.
  induction l as [|a l IH]; simpl; auto.
  destruct (Nat.eq_dec i a) as [->|Hne].
  - rewrite Nat.eqb_refl. simpl. auto.
  - destruct (Nat.eqb_spec a i); [congruence|]. simpl. congruence.
Qed.

Lemma Rltb_true (x y : R) : Rltb x y = true <-> x < y.
Proof.
  unfold Rltb. destruct (Rlt_dec x y); split; auto; discriminate.
Qed.

Lemma Rltb_false (x y : R) : Rltb x y = false <-> y <= x.
Proof.
  unfold Rltb. destruct (Rlt_dec x y); split; auto; try discriminate; lra.
Qed.

Lemma clip_bounds (x : R) : 0 <= clip x 0 1 <= 1.
Proof.
  unfold clip, Rmin, Rmax. destruct (Rle_dec x 0); destruct (Rle_dec _ 1); lra.
Qed.

Lemma clip_le (x : R) : 0 <= x -> clip x 0 1 <= x.
Proof.
  unfold clip, Rmin, Rmax. destruct (Rle_dec x 0); destruct (Rle_dec _ 1); lra.
Qed.

Lemma clip_id (x : R) : 0 <= x <= 1 -> clip x 0 1 = x.
Proof.
  unfold clip, Rmin, Rmax. destruct (Rle_dec x 0); destruct (Rle_dec _ 1); lra.
Qed.

Lemma v3_ext (a b : V3) : vx a = vx b -> vy a = vy b -> vz a = vz b -> a = b.
Proof.
  destruct a, b; simpl; intros; subst; reflexivity.
Qed.

Lemma dot_self_nonneg (a : V3) : 0 <= dot a a.
Proof.
  unfold dot. nra.
Qed.

Lemma norm_nonneg (a : V3) : 0 <= norm a.
Proof.
  apply sqrt_pos.
Qed.

Lemma norm_sqr (a : V3) : norm a * norm a = dot a a.
Proof.
  apply sqrt_sqrt, dot_self_nonneg.
Qed.

Lemma norm_sub_sym (a b : V3) : norm (v3sub a b) = norm (v3sub b a).
Proof.
  unfold norm. f_equal. unfold dot, v3sub; simpl. ring.
Qed.

(** Cauchy-Schwarz. *)
Lemma dot_le_norm (a b : V3) : dot a b <= norm a * norm b.
Proof.
  unfold norm. rewrite <- sqrt_mult by apply dot_self_nonneg.
  apply Rle_trans with (Rabs (dot a b)); [apply Rle_abs|].
  rewrite <- sqrt_Rsqr_abs. apply sqrt_le_1.
  - apply Rle_0_sqr.
  - apply Rmult_le_pos; apply dot_self_nonneg.
  - unfold Rsqr, dot. destruct a as [a1 a2 a3], b as [b1 b2 b3]; simpl.
    assert (H : (a1 * a1 + a2 * a2 + a3 * a3) * (b1 * b1 + b2 * b2 + b3 * b3)
                - (a1 * b1 + a2 * b2 + a3 * b3) * (a1 * b1 + a2 * b2 + a3 * b3)
                = (a1 * b2 - a2 * b1) ^ 2 + (a1 * b3 - a3 * b1) ^ 2 + (a2 * b3 - a3 * b2) ^ 2)
      by ring.
    pose proof (pow2_ge_0 (a1 * b2 - a2 * b1)).
    pose proof (pow2_ge_0 (a1 * b3 - a3 * b1)).
    pose proof (pow2_ge_0 (a2 * b3 - a3 * b2)). lra.
Qed.

Lemma norm_v3div_le (a : V3) : norm (v3div a (norm a)) <= 1.
Proof.
  destruct (Req_dec_T (norm a) 0) as [H0|Hn].
  - rewrite H0. unfold v3div, Rdiv. rewrite Rinv_0, !Rmult_0_r.
    unfold norm at 1, dot; simpl. rewrite !Rmult_0_l, !Rplus_0_l, sqrt_0. lra.
  - assert (Hd : dot (v3div a (norm a)) (v3div a (norm a)) = 1).
    { unfold v3div, dot at 1; simpl.
      replace (vx a / norm a * (vx a / norm a) + vy a / norm a * (vy a / norm a)
               + vz a / norm a * (vz a / norm a))
        with (dot a a / (norm a * norm a)) by (unfold dot; field; auto).
      rewrite norm_sqr. field. rewrite <- norm_sqr. nra. }
    unfold norm at 1. rewrite Hd, sqrt_1. lra.
Qed.

Section FormFactorFacts.
Import FormFactor.
Variable intersects_location : list V3 -> list V3 -> list (V3 * nat).
Variables (hit_dist64 : V3 -> V3 -> R) (reach64 : R -> R -> R).
Variables (centroids normals : list V3) (areas : list R) (epsilon : R).

Local Abbreviation N := (FormFactor.N centroids).
Local Abbreviation r := (FormFactor.r centroids).
Local Abbreviation d := (FormFactor.d centroids).
Local Abbreviation cos_i := (FormFactor.cos_i centroids normals).
Local Abbreviation cos_j := (FormFactor.cos_j centroids normals).
Local Abbreviation facing := (FormFactor.facing centroids normals epsilon).
Local Abbreviation targets := (FormFactor.targets centroids normals epsilon).
Local Abbreviation ray_origin := (FormFactor.ray_origin centroids epsilon).
Local Abbreviation row_hits := (FormFactor.row_hits intersects_location centroids normals epsilon).
Local Abbreviation blocked_hit := (FormFactor.blocked_hit hit_dist64 reach64 centroids normals epsilon).
Local Abbreviation blocked_rays :=
  (FormFactor.blocked_rays intersects_location hit_dist64 reach64 centroids normals epsilon).
Local Abbreviation visible :=
  (FormFactor.visible intersects_location hit_dist64 reach64 centroids normals epsilon).
Local Abbreviation occluded :=
  (FormFactor.occluded intersects_location hit_dist64 reach64 centroids normals epsilon).
Local Abbreviation hit_closer :=
  (FormFactor.hit_closer intersects_location centroids normals epsilon).
Local Abbreviation point_to_patch := (FormFactor.point_to_patch centroids normals areas).
Local Abbreviation form_factor_row :=
  (FormFactor.form_factor_row intersects_location hit_dist64 reach64 centroids normals areas epsilon).
Local Abbreviation form_factors :=
  (FormFactor.form_factors intersects_location hit_dist64 reach64 centroids normals areas epsilon).

Lemma visible_mask_eq (i : nat) :
  (if is_empty (row_hits i) then repeat true (length (targets i))
   else clear_at (repeat true (length (targets i))) (blocked_rays i))
  = clear_at (repeat true (length (targets i))) (blocked_rays i).
Proof.
  unfold FormFactor.blocked_rays. destruct (row_hits i); simpl; auto.
  rewrite clear_at_nil; auto.
Qed.

Lemma form_factor_row_eq (i : nat) :
  form_factor_row i
  = assign (repeat 0 N) (visible i) (map (fun j => clip (point_to_patch i j) 0 1) (visible i)).
Proof.
  unfold FormFactor.form_factor_row, take. cbv zeta.
  repeat (rewrite ?map_map, ?map2_map_same).
  rewrite !mask_select_map, !mask_select_id.
  repeat (rewrite ?map_map, ?map2_map_same).
  rewrite ?mask_select_map.
  change (filter _ (remove Nat.eq_dec i (seq 0 N))) with (targets i).
  change (intersects_location _ _) with (row_hits i).
  change (filter _ (row_hits i)) with (filter (blocked_hit i) (row_hits i)).
  change (map snd (filter (blocked_hit i) (row_hits i))) with (blocked_rays i).
  rewrite visible_mask_eq.
  change (mask_select _ (targets i)) with (visible i).
  rewrite !mask_select_map_r.
  change (mask_select _ (targets i)) with (visible i).
  repeat (rewrite ?map_map, ?map2_map_same).
  change (map _ (visible i)) with (map (fun j => clip (point_to_patch i j) 0 1) (visible i)).
  change (map _ (remove Nat.eq_dec i (seq 0 N)))
    with (map (facing i) (remove Nat.eq_dec i (seq 0 N))).
  assert (Hnil : targets i = [] ->
                 repeat 0 N = assign (repeat 0 N) (visible i)
                                (map (fun j => clip (point_to_patch i j) 0 1) (visible i))).
  { intros Ht. unfold FormFactor.visible. rewrite Ht, mask_select_nil_r. reflexivity. }
  destruct (remove Nat.eq_dec i (seq 0 N)) as [|j0 pj] eqn:Hpj; simpl is_empty; cbv iota.
  { apply Hnil. unfold FormFactor.targets. rewrite Hpj. reflexivity. }
  destruct (existsb (fun b : bool => b) (map (facing i) (j0 :: pj))) eqn:Hex; simpl negb; cbv iota.
  2:{ apply Hnil. unfold FormFactor.targets. rewrite Hpj. apply existsb_id_map, Hex. }
  destruct (visible i) eqn:Hv; reflexivity.
Qed.

Lemma targets_spec (i j : nat) :
  In j (targets i) <-> (j < N)%nat /\ j <> i /\ facing i j = true.
Proof using Type.
  unfold FormFactor.targets. rewrite filter_In, remove_as_filter, filter_In, in_seq.
  rewrite negb_true_iff, Nat.eqb_neq. simpl. split.
  - intros [[[_ Hlt] Hne] Hf]. auto.
  - intros (Hlt & Hne & Hf). repeat split; auto. apply Nat.le_0_l.
Qed.

Lemma targets_NoDup (i : nat) : NoDup (targets i).
Proof.
  unfold FormFactor.targets. rewrite remove_as_filter.
  apply NoDup_filter, NoDup_filter, seq_NoDup.
Qed.

Lemma blocked_rays_spec (i k : nat) :
  existsb (Nat.eqb k) (blocked_rays i) = true
  <-> exists loc, In (loc, k) (row_hits i) /\ blocked_hit i (loc, k) = true.
Proof.
  unfold FormFactor.blocked_rays. rewrite existsb_exists. split.
  - intros (k' & Hin & Hk). apply Nat.eqb_eq in Hk. subst k'.
    apply in_map_iff in Hin as ([loc k'] & Hk' & Hin). simpl in Hk'. subst k'.
    apply filter_In in Hin as [Hin Hb]. eauto.
  - intros (loc & Hin & Hb). exists k. rewrite Nat.eqb_refl. split; auto.
    apply in_map_iff. exists (loc, k). split; auto. apply filter_In; auto.
Qed.

Lemma blocked_hit_at (i j k : nat) (loc : V3) :
  nth_error (targets i) k = Some j ->
  (blocked_hit i (loc, k) = true
   <-> hit_dist64 loc (ray_origin i j) < reach64 (r i j) epsilon).
Proof.
  intros Hk. unfold FormFactor.blocked_hit. simpl. rewrite Rltb_true.
  assert (Hlt : (k < length (targets i))%nat) by (apply nth_error_Some; congruence).
  rewrite (nth_indep (map (ray_origin i) (targets i)) v3zero (ray_origin i j))
    by (rewrite length_map; auto).
  rewrite (nth_indep (map (r i) (targets i)) 0 (r i j)) by (rewrite length_map; auto).
  rewrite !map_nth. rewrite (nth_error_nth _ _ j Hk). reflexivity.
Qed.

(** The targets that stay visible are the facing ones without a blocking
    hit. *)
Lemma visible_spec (i j : nat) :
  In j (visible i) <-> In j (targets i) /\ ~ occluded i j.
Proof.
  unfold FormFactor.visible. rewrite clear_at_ones, mask_select_seq. split.
  - intros (k & Hk & Hvis). simpl in Hvis. apply negb_true_iff in Hvis.
    split; [eapply nth_error_In; eauto|].
    intros (k' & loc & Hk' & Hin & Hlt).
    assert (k' = k).
    { pose proof (targets_NoDup i) as Hnd. rewrite NoDup_nth_error in Hnd.
      apply Hnd; [apply nth_error_Some; congruence | congruence]. }
    subst k'.
    assert (existsb (Nat.eqb k) (blocked_rays i) = true); [|congruence].
    apply blocked_rays_spec. exists loc. split; auto.
    apply (blocked_hit_at i j k loc Hk). exact Hlt.
  - intros [Hin Hocc]. apply In_nth_error in Hin as [k Hk]. exists k. split; auto.
    simpl. apply negb_true_iff. apply not_true_is_false. intros Hb.
    apply blocked_rays_spec in Hb as (loc & Hin & Hb).
    apply Hocc. exists k, loc. repeat split; auto.
    apply (blocked_hit_at i j k loc Hk). exact Hb.
Qed.

Lemma visible_lt (i : nat) : Forall (fun k => (k < length (repeat 0%R N))%nat) (visible i).
Proof.
  apply Forall_forall. intros j Hj. apply visible_spec in Hj as [Hj _].
  apply targets_spec in Hj. rewrite repeat_length. tauto.
Qed.

Lemma existsb_eqb_In (j : nat) (l : list nat) : existsb (Nat.eqb j) l = true <-> In j l.
Proof.
  rewrite existsb_exists. split.
  - intros (x & Hx & He). apply Nat.eqb_eq in He. congruence.
  - intros H. exists j. rewrite Nat.eqb_refl. auto.
Qed.

(** An entry of the matrix: the clamped point-to-patch term on the visible
    targets, zero elsewhere. *)
Lemma form_factors_entry (i j : nat) :
  (i < N)%nat ->
  nth j (nth i form_factors []) 0
  = if existsb (Nat.eqb j) (visible i) then clip (point_to_patch i j) 0 1 else 0.
Proof.
  intros Hi. unfold FormFactor.form_factors. rewrite nth_map_seq by auto.
  rewrite form_factor_row_eq.
  rewrite (assign_nth (fun j => clip (point_to_patch i j) 0 1)) by apply visible_lt.
  destruct (existsb (Nat.eqb j) (visible i)); auto.
  destruct (Nat.lt_ge_cases j N) as [Hj|Hj].
  - apply nth_repeat.
  - apply nth_overflow. rewrite repeat_length; auto.
Qed.

Lemma form_factors_entry_zero (i j : nat) :
  (i < N)%nat -> ~ In j (visible i) -> nth j (nth i form_factors []) 0 = 0.
Proof.
  intros Hi Hn. rewrite form_factors_entry by auto.
  destruct (existsb (Nat.eqb j) (visible i)) eqn:He; auto.
  apply existsb_eqb_In in He. contradiction.
Qed.

Lemma form_factors_entry_visible (i j : nat) :
  (i < N)%nat -> In j (visible i) ->
  nth j (nth i form_factors []) 0 = clip (point_to_patch i j) 0 1.
Proof.
  intros Hi Hn. rewrite form_factors_entry by auto.
  apply existsb_eqb_In in Hn. rewrite Hn. reflexivity.
Qed.

Lemma facing_spec (i j : nat) :
  facing i j = true <-> epsilon < cos_i i j /\ epsilon < cos_j i j.
Proof using Type.
  unfold FormFactor.facing. rewrite andb_true_iff, !Rltb_true. reflexivity.
Qed.

Lemma Rabs_le_both (x b : R) : Rabs x <= b -> - b <= x <= b.
Proof using Type.
  intros H. pose proof (Rle_abs x) as H1. pose proof (Rle_abs (- x)) as H2.
  rewrite Rabs_Ropp in H2. lra.
Qed.

(** With arithmetic accurate to [delta], a hit closer than
    [r - epsilon - 2 delta] is found blocking, and a hit found blocking is
    closer than [r - epsilon + 2 delta]. *)
Lemma hit_closer_occluded (delta : R) (i j : nat) :
  accurate hit_dist64 reach64 delta ->
  hit_closer i j (r i j - epsilon - 2 * delta) -> occluded i j.
Proof using Type.
  intros [Hh Hr] (k & loc & Hk & Hin & Hlt). exists k, loc.
  split; [exact Hk|]. split; [exact Hin|].
  specialize (Hh loc (ray_origin i j)). specialize (Hr (r i j) epsilon).
  apply Rabs_le_both in Hh. apply Rabs_le_both in Hr. lra.
Qed.

Lemma occluded_hit_closer (delta : R) (i j : nat) :
  accurate hit_dist64 reach64 delta ->
  occluded i j -> hit_closer i j (r i j - epsilon + 2 * delta).
Proof using Type.
  intros [Hh Hr] (k & loc & Hk & Hin & Hlt). exists k, loc.
  split; [exact Hk|]. split; [exact Hin|].
  specialize (Hh loc (ray_origin i j)). specialize (Hr (r i j) epsilon).
  apply Rabs_le_both in Hh. apply Rabs_le_both in Hr. lra.
Qed.

(** X24.  What the form-factor loop computes.  For patches [i] and [j] of
    the scene: the diagonal entry of [F] is zero; [F[i][j]] is zero when the
    patches do not face each other ([cos_i <= epsilon] or
    [cos_j <= epsilon]) and when the cell's test finds the ray from
    [centroid(i)] blocked (a hit is reported whose computed distance is
    below the computed [r - epsilon]); otherwise it is
    [clip((cos_i * cos_j * area(j)) / (pi * r^2), 0, 1)]; every entry lies
    in [[0, 1]].  When the two computed numbers are within [delta] of the
    exact ones, a hit closer than [r - epsilon - 2 delta] makes the entry
    zero, and the entry of a facing pair is the clamped term when no hit is
    closer than [r - epsilon + 2 delta]; a hit in between, where the hit on
    the target patch itself lies, is left to rounding. *)
Theorem form_factor_entries (i j : nat) :
  (i < N)%nat -> (j < N)%nat ->
  (i = j -> nth j (nth i form_factors []) 0 = 0) /\
  (i <> j -> cos_i i j <= epsilon \/ cos_j i j <= epsilon ->
   nth j (nth i form_factors []) 0 = 0) /\
  (i <> j -> occluded i j -> nth j (nth i form_factors []) 0 = 0) /\
  (i <> j -> epsilon < cos_i i j -> epsilon < cos_j i j -> ~ occluded i j ->
   nth j (nth i form_factors []) 0 = clip (point_to_patch i j) 0 1) /\
  0 <= nth j (nth i form_factors []) 0 <= 1 /\
  forall delta, accurate hit_dist64 reach64 delta ->
    (i <> j -> hit_closer i j (r i j - epsilon - 2 * delta) ->
     nth j (nth i form_factors []) 0 = 0) /\
    (i <> j -> epsilon < cos_i i j -> epsilon < cos_j i j ->
     ~ hit_closer i j (r i j - epsilon + 2 * delta) ->
     nth j (nth i form_factors []) 0 = clip (point_to_patch i j) 0 1).
Proof.
  intros Hi Hj.
  assert (Hocc0 : occluded i j -> nth j (nth i form_factors []) 0 = 0).
  { intros Hocc. apply form_factors_entry_zero; auto. rewrite visible_spec. tauto. }
  assert (Hvis : epsilon < cos_i i j -> epsilon < cos_j i j -> i <> j -> ~ occluded i j ->
                 nth j (nth i form_factors []) 0 = clip (point_to_patch i j) 0 1).
  { intros Hci Hcj Hne Hocc. apply form_factors_entry_visible; auto.
    rewrite visible_spec, targets_spec, facing_spec. auto. }
  split; [|split; [|split; [|split; [|split]]]].
  - intros <-. apply form_factors_entry_zero; auto.
    rewrite visible_spec, targets_spec. tauto.
  - intros _ Hcos. apply form_factors_entry_zero; auto.
    rewrite visible_spec, targets_spec, facing_spec. lra.
  - intros _ Hocc. apply Hocc0, Hocc.
  - intros Hne Hci Hcj Hocc. apply Hvis; auto.
  - rewrite form_factors_entry by auto.
    destruct (existsb _ _); [apply clip_bounds | lra].
  - intros delta Hacc. split.
    + intros _ Hc. apply Hocc0. apply (hit_closer_occluded delta); auto.
    + intros Hne Hci Hcj Hc. apply Hvis; auto.
      intros Hocc. apply Hc. apply (occluded_hit_closer delta); auto.
Qed.


Lemma r_sym (i j : nat) : r i j = r j i.
Proof.
  unfold FormFactor.r. apply norm_sub_sym.
Qed.

Lemma cos_i_swap (i j : nat) : cos_i j i = cos_j i j.
Proof.
  unfold FormFactor.cos_i, FormFactor.cos_j, FormFactor.d. rewrite (r_sym j i).
  unfold dot, v3div, v3sub, Rdiv; simpl. ring.
Qed.

Lemma cos_j_swap (i j : nat) : cos_j j i = cos_i i j.
Proof.
  unfold FormFactor.cos_i, FormFactor.cos_j, FormFactor.d. rewrite (r_sym j i).
  unfold dot, v3div, v3sub, Rdiv; simpl. ring.
Qed.

Lemma facing_sym (i j : nat) : facing j i = facing i j.
Proof.
  unfold FormFactor.facing. rewrite (cos_i_swap i j), (cos_j_swap i j). apply andb_comm.
Qed.


Lemma d_norm_le (i j : nat) : norm (d i j) <= 1.
Proof.
  unfold FormFactor.d, FormFactor.r. apply norm_v3div_le.
Qed.

Lemma cos_i_le_1 (i j : nat) : norm (nth i normals v3zero) <= 1 -> cos_i i j <= 1.
Proof.
  intros Hn. unfold FormFactor.cos_i.
  pose proof (dot_le_norm (d i j) (nth i normals v3zero)) as H.
  pose proof (d_norm_le i j). pose proof (norm_nonneg (d i j)).
  pose proof (norm_nonneg (nth i normals v3zero)). nra.
Qed.

Lemma cos_j_le_1 (i j : nat) : norm (nth j normals v3zero) <= 1 -> cos_j i j <= 1.
Proof.
  intros Hn. rewrite <- (cos_i_swap i j). apply cos_i_le_1; auto.
Qed.

Lemma facing_r_pos (i j : nat) : 0 <= epsilon -> facing i j = true -> 0 < r i j.
Proof.
  intros He Hf. apply facing_spec in Hf as [Hci _].
  destruct (Req_dec_T (r i j) 0) as [H0|Hn].
  - exfalso. unfold FormFactor.cos_i, FormFactor.d in Hci. rewrite H0 in Hci.
    unfold v3div, dot, Rdiv in Hci; simpl in Hci. rewrite Rinv_0 in Hci. lra.
  - pose proof (norm_nonneg (v3sub (nth j centroids v3zero) (nth i centroids v3zero))).
    unfold FormFactor.r in *. lra.
Qed.

(** Every entry lies between zero and the unclamped term of a facing
    pair. *)
Lemma entry_le_term (i j : nat) :
  (i < N)%nat -> 0 <= point_to_patch i j ->
  0 <= nth j (nth i form_factors []) 0 <= point_to_patch i j.
Proof.
  intros Hi Hp. rewrite form_factors_entry by auto.
  destruct (existsb _ _); [|lra].
  pose proof (clip_bounds (point_to_patch i j)). pose proof (clip_le _ Hp). lra.
Qed.


End FormFactorFacts.

Section FormFactorExamples.

Import FormFactor.

(** The two-patch scene in arithmetic without rounding. *)
Local Abbreviation form_factors2 hits :=
  (form_factors hits exact_hit_dist exact_reach two_centroids two_normals two_areas 1e-5).
Local Abbreviation occluded2 :=
  (occluded no_hits exact_hit_dist exact_reach two_centroids two_normals 1e-5).

Lemma norm_unit_z (s : R) : s * s = 1 -> norm (mkV3 0 0 s) = 1.
Proof.
  intros Hs. unfold norm, dot; simpl.
  replace (0 * 0 + 0 * 0 + s * s) with 1 by lra. apply sqrt_1.
Qed.

Lemma two_patches_r : r two_centroids 0 1 = 1.
Proof.
  unfold r, two_centroids, v3sub; simpl.
  replace (0 - 0) with 0 by lra. replace (1 - 0) with 1 by lra.
  apply norm_unit_z. lra.
Qed.

Lemma two_patches_cos_i : cos_i two_centroids two_normals 0 1 = 1.
Proof.
  unfold cos_i, d. rewrite two_patches_r.
  unfold two_centroids, two_normals, v3div, v3sub, dot; simpl. field.
Qed.

Lemma two_patches_cos_j : cos_j two_centroids two_normals 0 1 = 1.
Proof.
  unfold cos_j, d. rewrite two_patches_r.
  unfold two_centroids, two_normals, v3div, v3sub, dot; simpl. field.
Qed.

Lemma no_hits_not_occluded (hit_dist64 : V3 -> V3 -> R) (reach64 : R -> R -> R)
      (cs ns : list V3) (eps : R) (i j : nat) :
  ~ occluded no_hits hit_dist64 reach64 cs ns eps i j.
Proof.
  intros (k & loc & _ & Hin & _). exact Hin.
Qed.

Lemma two_patches_facing (eps : R) :
  0 <= eps < 1 -> facing two_centroids two_normals eps 0 1 = true.
Proof.
  intros He. apply facing_spec. rewrite two_patches_cos_i, two_patches_cos_j. lra.
Qed.

Lemma two_patches_targets (eps : R) :
  0 <= eps < 1 -> targets two_centroids two_normals eps 0 = [1%nat].
Proof.
  intros He. unfold targets.
  change (remove Nat.eq_dec 0%nat (seq 0 (N two_centroids))) with [1%nat].
  cbn [filter]. rewrite (two_patches_facing eps He). reflexivity.
Qed.

(** The two facing patches: [F[0][1] = (1 * 1 * 1/2) / (pi * 1^2)]. *)
Example two_patches_entry :
  nth 1 (nth 0 (form_factors2 no_hits) []) 0
  = 1 / (2 * PI).
Proof.
  rewrite form_factors_entry_visible.
  - unfold point_to_patch. rewrite two_patches_cos_i, two_patches_cos_j, two_patches_r.
    simpl. pose proof PI2_1 as Hpi.
    replace (1 * 1 * (1 / 2) / (PI * (1 * (1 * 1)))) with (1 / (2 * PI)) by (field; lra).
    apply clip_id. split.
    + apply Rlt_le, Rdiv_lt_0_compat; lra.
    + unfold Rdiv. rewrite Rmult_1_l, <- Rinv_1. apply Rinv_le_contravar; lra.
  - unfold N; simpl; lia.
  - apply visible_spec. split; [|apply no_hits_not_occluded].
    rewrite two_patches_targets by lra. simpl; auto.
Qed.

Lemma norm_along_z (s : R) : norm (mkV3 0 0 s) = Rabs s.
Proof.
  unfold norm, dot; simpl.
  replace (0 * 0 + 0 * 0 + s * s) with (Rsqr s) by (unfold Rsqr; ring).
  apply sqrt_Rsqr_abs.
Qed.

(** The same patches with a hit reported half way on the ray from patch 0:
    the entry is zero. *)
Example two_patches_blocked :
  nth 1 (nth 0 (form_factors2 half_way_hit) []) 0
  = 0.
Proof.
  apply form_factors_entry_zero; [unfold N; simpl; lia|].
  intros Hvis. apply visible_spec in Hvis as [_ Hocc]. apply Hocc.
  exists 0%nat, (mkV3 0 0 (1 / 2)).
  rewrite two_patches_targets by lra. split; [reflexivity|]. split.
  - unfold row_hits, half_way_hit. simpl. auto.
  - unfold exact_hit_dist, exact_reach. rewrite two_patches_r.
    assert (Hd : d two_centroids 0 1 = mkV3 0 0 1).
    { unfold d. rewrite two_patches_r.
      apply v3_ext; unfold two_centroids, v3div, v3sub; simpl; field. }
    unfold ray_origin. rewrite Hd.
    replace (v3sub _ _) with (mkV3 0 0 (1 / 2 - 1e-5))
      by (apply v3_ext; unfold two_centroids, v3sub, v3add, v3scale; simpl; lra).
    rewrite norm_along_z, Rabs_pos_eq; lra.
Qed.

Lemma form_factor_entries_witness :
  (0%nat = 1%nat ->
   nth 1 (nth 0 (form_factors2 no_hits) []) 0 = 0) /\
  (0%nat <> 1%nat ->
   cos_i two_centroids two_normals 0 1 <= 1e-5 \/ cos_j two_centroids two_normals 0 1 <= 1e-5 ->
   nth 1 (nth 0 (form_factors2 no_hits) []) 0 = 0) /\
  (0%nat <> 1%nat -> occluded2 0 1 ->
   nth 1 (nth 0 (form_factors2 no_hits) []) 0 = 0) /\
  (0%nat <> 1%nat ->
   1e-5 < cos_i two_centroids two_normals 0 1 ->
   1e-5 < cos_j two_centroids two_normals 0 1 ->
   ~ occluded2 0 1 ->
   nth 1 (nth 0 (form_factors2 no_hits) []) 0
   = clip (point_to_patch two_centroids two_normals two_areas 0 1) 0 1) /\
  0 <= nth 1 (nth 0 (form_factors2 no_hits) []) 0 <= 1 /\
  forall delta, accurate exact_hit_dist exact_reach delta ->
    (0%nat <> 1%nat ->
     hit_closer no_hits two_centroids two_normals 1e-5 0 1
                (r two_centroids 0 1 - 1e-5 - 2 * delta) ->
     nth 1 (nth 0 (form_factors2 no_hits) []) 0 = 0) /\
    (0%nat <> 1%nat ->
     1e-5 < cos_i two_centroids two_normals 0 1 ->
     1e-5 < cos_j two_centroids two_normals 0 1 ->
     ~ hit_closer no_hits two_centroids two_normals 1e-5 0 1
         (r two_centroids 0 1 - 1e-5 + 2 * delta) ->
     nth 1 (nth 0 (form_factors2 no_hits) []) 0
     = clip (point_to_patch two_centroids two_normals two_areas 0 1) 0 1).
Proof.
  apply (form_factor_entries no_hits exact_hit_dist exact_reach
           two_centroids two_normals two_areas 1e-5 0 1);
    unfold N; simpl; lia.
Defined.


End FormFactorExamples.

(* ----------------------------------------------------------------- *)
(** ** Vector algebra of the projection *)

Section Frame.

Import Refiner.

Lemma dot_comm (a b : V3) : dot a b = dot b a.
Proof. unfold dot; ring. Qed.

Lemma dot_cross_l (a b : V3) : dot a (cross a b) = 0.
Proof. unfold dot, cross; simpl; ring. Qed.

Lemma dot_cross_r (a b : V3) : dot b (cross a b) = 0.
Proof. unfold dot, cross; simpl; ring. Qed.

(** Binet-Cauchy. *)
Lemma dot_cross_cross (a b c e : V3) :
  dot (cross a b) (cross c e) = dot a c * dot b e - dot a e * dot b c.
Proof. unfold dot, cross; simpl; ring. Qed.

Lemma cross_cross (a b : V3) :
  cross a (cross b a) = v3sub (v3scale (dot a a) b) (v3scale (dot a b) a).
Proof. apply v3_ext; unfold dot, cross, v3sub, v3scale; simpl; ring. Qed.

Lemma dot_v3div_l (a b : V3) (k : R) : dot (v3div a k) b = dot a b / k.
Proof. unfold dot, v3div, Rdiv; simpl; ring. Qed.

Lemma dot_v3div_r (a b : V3) (k : R) : dot a (v3div b k) = dot a b / k.
Proof. unfold dot, v3div, Rdiv; simpl; ring. Qed.

Lemma dot_zero_eq (a : V3) : dot a a = 0 -> a = v3zero.
Proof.
  destruct a as [x y z]. unfold dot, v3zero; simpl. intros H.
  assert (x = 0) by nra. assert (y = 0) by nra. assert (z = 0) by nra. subst. reflexivity.
Qed.

Lemma norm_pos (a : V3) : a <> v3zero -> 0 < norm a.
Proof.
  intros Ha. apply sqrt_lt_R0. pose proof (dot_self_nonneg a).
  destruct (Req_dec_T (dot a a) 0) as [H0|H0]; [|lra].
  exfalso. apply Ha, dot_zero_eq, H0.
Qed.

Lemma unit_v3div (a : V3) : a <> v3zero -> dot (v3div a (norm a)) (v3div a (norm a)) = 1.
Proof.
  intros Ha. pose proof (norm_pos a Ha).
  rewrite dot_v3div_l, dot_v3div_r, <- norm_sqr. field. lra.
Qed.

Lemma norm_v3scale (k : R) (a : V3) : norm (v3scale k a) = Rabs k * norm a.
Proof.
  unfold norm.
  replace (dot (v3scale k a) (v3scale k a)) with (Rsqr k * dot a a)
    by (unfold Rsqr, dot, v3scale; simpl; ring).
  rewrite sqrt_mult by (try apply Rle_0_sqr; apply dot_self_nonneg).
  rewrite sqrt_Rsqr_abs. reflexivity.
Qed.

Lemma project_triangle_2D_eq (t : triangle) :
  project_triangle_2D t
  = (let '(v0, v1, v2) := t in
     (project_to_2d v0 (frame_u t) (frame_v t) v0,
      project_to_2d v0 (frame_u t) (frame_v t) v1,
      project_to_2d v0 (frame_u t) (frame_v t) v2,
      v0, frame_u t, frame_v t)).
Proof.
  destruct t as [[v0 v1] v2]. reflexivity.
Qed.

Lemma edge_nonzero (v0 v1 v2 : V3) :
  cross (v3sub v1 v0) (v3sub v2 v0) <> v3zero -> v3sub v1 v0 <> v3zero.
Proof.
  intros Hc He. apply Hc. rewrite He. apply v3_ext; unfold cross, v3zero; simpl; ring.
Qed.

Lemma frame_orthonormal (t : triangle) :
  nondegenerate t ->
  dot (frame_u t) (frame_u t) = 1 /\ dot (frame_v t) (frame_v t) = 1 /\
  dot (frame_u t) (frame_v t) = 0 /\ cross (frame_u t) (frame_v t) = frame_n t.
Proof.
  destruct t as [[v0 v1] v2]. unfold nondegenerate, frame_v, frame_u, frame_n.
  set (e1 := v3sub v1 v0). set (e2 := v3sub v2 v0). intros Hc.
  pose proof (edge_nonzero v0 v1 v2 Hc) as He. fold e1 in He.
  set (u := v3div e1 (norm e1)). set (n := v3div (cross e1 e2) (norm (cross e1 e2))).
  assert (Huu : dot u u = 1) by (apply unit_v3div; auto).
  assert (Hnn : dot n n = 1) by (apply unit_v3div; auto).
  assert (Hnu : dot n u = 0).
  { unfold n, u. rewrite dot_v3div_l, dot_v3div_r, (dot_comm _ e1), dot_cross_l.
    unfold Rdiv. ring. }
  repeat split; auto.
  - rewrite dot_cross_cross, Huu, Hnn, Hnu. ring.
  - apply dot_cross_r.
  - rewrite cross_cross, Huu, (dot_comm u n), Hnu.
    apply v3_ext; unfold v3sub, v3scale; simpl; ring.
Qed.

Section Isometry.

Variables (origin u v : V3).
Hypothesis Huu : dot u u = 1.
Hypothesis Hvv : dot v v = 1.
Hypothesis Huv : dot u v = 0.

Lemma to_3d_dist (p q : point) :
  dist3 (to_3d p origin u v) (to_3d q origin u v) = length2d p q.
Proof.
  destruct p as [x1 y1], q as [x2 y2]. unfold dist3, norm, length2d, to_3d. f_equal.
  replace (dot _ _)
    with ((x2 - x1) * (x2 - x1) * dot u u + 2 * ((x2 - x1) * (y2 - y1)) * dot u v
          + (y2 - y1) * (y2 - y1) * dot v v)
    by (unfold dot, v3sub, v3add, v3scale; simpl; ring).
  rewrite Huu, Hvv, Huv. ring.
Qed.

Lemma cross_uv_unit : norm (cross u v) = 1.
Proof.
  unfold norm. rewrite dot_cross_cross, Huu, Hvv, (dot_comm v u), Huv.
  replace (1 * 1 - 0 * 0) with 1 by ring. apply sqrt_1.
Qed.

Lemma to_3d_area (p q w : point) :
  area3 (to_3d p origin u v, to_3d q origin u v, to_3d w origin u v) = area2 p q w.
Proof.
  destruct p as [x1 y1], q as [x2 y2], w as [x3 y3]. unfold area3, area2, to_3d. simpl.
  f_equal.
  replace (cross _ _)
    with (v3scale ((x2 - x1) * (y3 - y1) - (y2 - y1) * (x3 - x1)) (cross u v))
    by (apply v3_ext; unfold cross, v3sub, v3add, v3scale; simpl; ring).
  rewrite norm_v3scale, cross_uv_unit. ring.
Qed.

End Isometry.

(** The projected triangle has the area of the triangle. *)
Lemma projected_area (t : triangle) :
  nondegenerate t ->
  let '(p0, p1, p2, _, _, _) := project_triangle_2D t in
  area2 p0 p1 p2 = area3 t.
Proof.
  intros Hnd. rewrite project_triangle_2D_eq.
  destruct (frame_orthonormal t Hnd) as (Huu & Hvv & Huv & Hn).
  destruct t as [[v0 v1] v2].
  set (u := frame_u (v0, v1, v2)) in *. set (v := frame_v (v0, v1, v2)) in *.
  unfold area2, area3, project_to_2d. cbn [fst snd].
  set (e1 := v3sub v1 v0). set (e2 := v3sub v2 v0).
  replace ((dot e1 u - dot (v3sub v0 v0) u) * (dot e2 v - dot (v3sub v0 v0) v)
           - (dot e1 v - dot (v3sub v0 v0) v) * (dot e2 u - dot (v3sub v0 v0) u))
    with (dot (cross e1 e2) (cross u v))
    by (unfold dot, cross, v3sub; simpl; ring).
  rewrite Hn. unfold frame_n. fold e1 e2. rewrite dot_v3div_r.
  unfold nondegenerate in Hnd. fold e1 e2 in Hnd.
  pose proof (norm_pos _ Hnd) as Hpos.
  rewrite <- norm_sqr.
  replace (norm (cross e1 e2) * norm (cross e1 e2) / norm (cross e1 e2))
    with (norm (cross e1 e2)) by (field; lra).
  rewrite Rabs_pos_eq by lra. reflexivity.
Qed.

End Frame.

(* ----------------------------------------------------------------- *)
(** ** The refiner: the point list only grows *)

Section RefinerGrowth.

Import Refiner.

Variable Delaunay : list point -> option (list simplex).
Variable set_order : list edge -> list edge.

Local Abbreviation triangulate := (Refiner.triangulate Delaunay).
Local Abbreviation split_pass := (Refiner.split_pass Delaunay set_order).
Local Abbreviation splitViaDelaunay := (Refiner.splitViaDelaunay Delaunay set_order).

Lemma grows_trans (s s' s'' : list point) : grows s s' -> grows s' s'' -> grows s s''.
Proof.
  intros H1 H2. induction H2 as [|s'' pa pb p _ IH Ha Hb Hbt]; [exact H1|].
  exact (grows_step s s'' pa pb p IH Ha Hb Hbt).
Qed.

Lemma grows_prefix (s s' : list point) : grows s s' -> exists app, s' = s ++ app.
Proof.
  induction 1 as [|s' pa pb p _ [app ->] _ _ _].
  - exists []. rewrite app_nil_r; auto.
  - exists (app ++ [p]). rewrite app_assoc; auto.
Qed.

Lemma grows_firstn (s s' : list point) : grows s s' -> firstn (length s) s' = s.
Proof.
  intros H. apply grows_prefix in H as [app ->].
  rewrite firstn_app, Nat.sub_diag, firstn_all. simpl. apply app_nil_r.
Qed.

Lemma grows_In (s s' : list point) (p : point) : grows s s' -> In p s -> In p s'.
Proof.
  intros H Hp. apply grows_prefix in H as [app ->]. apply in_or_app; auto.
Qed.

(** A set of points closed under proper convex combinations keeps
    containing the list. *)
Lemma grows_closed (P : point -> Prop) (s s' : list point) :
  (forall pa pb p, P pa -> P pb -> between pa pb p -> P p) ->
  grows s s' -> Forall P s -> Forall P s'.
Proof.
  intros Hc H Hs. induction H as [|s' pa pb p _ IH Ha Hb Hbt]; auto.
  apply Forall_app. split; auto. constructor; auto.
  rewrite Forall_forall in IH. eauto.
Qed.

Lemma in_triangle_between (a b c pa pb p : point) :
  in_triangle a b c pa -> in_triangle a b c pb -> between pa pb p -> in_triangle a b c p.
Proof.
  intros (al1 & be1 & ga1 & Ha1 & Hb1 & Hg1 & Hs1 & Hx1 & Hy1)
         (al2 & be2 & ga2 & Ha2 & Hb2 & Hg2 & Hs2 & Hx2 & Hy2)
         (t & [Ht0 Ht1] & Hx & Hy).
  exists ((1 - t) * al1 + t * al2), ((1 - t) * be1 + t * be2), ((1 - t) * ga1 + t * ga2).
  repeat split; nra.
Qed.

Lemma in_range (lo hi z : Z) : In z (range lo hi) <-> (lo <= z < hi)%Z.
Proof.
  unfold range. rewrite in_map_iff. split.
  - intros (k & <- & Hk). apply in_seq in Hk. lia.
  - intros H. exists (Z.to_nat (z - lo)). split; [lia|]. apply in_seq. lia.
Qed.

Lemma grows_ret {A : Type} (a : A) : grows_in (ret a).
Proof. intros s; apply grows_refl. Qed.

Lemma grows_raise {A : Type} (e : exn) : grows_in (@raise A e).
Proof. intros s; apply grows_refl. Qed.

Lemma grows_bind {A B : Type} (m : M A) (f : A -> M B) :
  grows_in m -> (forall a, grows_in (f a)) -> grows_in (bind m f).
Proof.
  intros Hm Hf s. unfold bind. specialize (Hm s).
  destruct (m s) as [[a|e] s1]; simpl in *; auto.
  eapply grows_trans; [exact Hm | apply Hf].
Qed.

Lemma grows_triangulate : grows_in triangulate.
Proof.
  intros s. unfold Refiner.triangulate. destruct (Delaunay s); apply grows_refl.
Qed.

(** The inner loop: the pieces of one edge. *)
Lemma grows_pieces (P1 P2 : point) (pt : Z -> point) (l : list Z) :
  (forall z, In z l -> between P1 P2 (pt z)) ->
  forall s, In P1 s -> In P2 s ->
            grows s (snd (for_each l (fun piece => append (pt piece)) s)) /\
            fst (for_each l (fun piece => append (pt piece)) s) = Returned tt.
Proof.
  induction l as [|z l IH]; intros Hl s H1 H2; simpl.
  - split; [apply grows_refl | reflexivity].
  - unfold bind, append at 1. 
    assert (Hg : grows s (s ++ [pt z])).
    { apply (grows_step s s P1 P2 (pt z)); auto; [apply grows_refl | apply Hl; left; auto]. }
    destruct (IH (fun z' Hz' => Hl z' (or_intror Hz')) (s ++ [pt z])) as [IH1 IH2].
    + apply in_or_app; auto.
    + apply in_or_app; auto.
    + split; auto. eapply grows_trans; eauto.
Qed.

Lemma piece_between (x1 y1 x2 y2 : R) (n z : Z) :
  (1 <= z < n)%Z ->
  between (x1, y1) (x2, y2)
          (x1 + IZR z / IZR n * (x2 - x1), y1 + IZR z / IZR n * (y2 - y1)).
Proof.
  intros Hz. exists (IZR z / IZR n). simpl. split; [|split; reflexivity].
  assert (Hn : 0 < IZR n) by (apply IZR_lt; lia).
  assert (Hz0 : 0 < IZR z) by (apply IZR_lt; lia).
  assert (Hzn : IZR z < IZR n) by (apply IZR_lt; lia).
  split.
  - apply Rdiv_lt_0_compat; auto.
  - apply Rmult_lt_reg_r with (IZR n); auto. unfold Rdiv.
    rewrite Rmult_assoc, Rinv_l by lra. lra.
Qed.

Lemma grows_split_edge (maxLength : R) (f : bool) (e : edge) :
  grows_in (split_edge maxLength f e).
Proof.
  intros s. destruct e as [p1 p2]. unfold split_edge, bind, getitem.
  destruct (nth_error s p1) as [[x1 y1]|] eqn:H1; [|apply grows_refl].
  destruct (nth_error s p2) as [[x2 y2]|] eqn:H2; [|apply grows_refl].
  destruct (Rlt_dec maxLength (length2d (x1, y1) (x2, y2))) as [Hlong|Hshort];
    [|apply grows_refl].
  unfold lift, py_div. destruct (Req_dec_T maxLength 0) as [Hz|Hnz]; [apply grows_refl|].
  set (n := ceil _).
  destruct (grows_pieces (x1, y1) (x2, y2)
              (fun piece => (x1 + IZR piece / IZR n * (x2 - x1),
                             y1 + IZR piece / IZR n * (y2 - y1)))
              (range 1 n)) with (s := s) as [Hg Hr].
  - intros z Hz. apply in_range in Hz. apply piece_between; auto.
  - eapply nth_error_In; eauto.
  - eapply nth_error_In; eauto.
  - destruct (for_each _ _ s) as [[[]|e] s1]; simpl in *; auto.
Qed.

Lemma grows_for_edges (maxLength : R) (edges : list edge) :
  forall f, grows_in (for_edges maxLength edges f).
Proof.
  induction edges as [|e edges IH]; intros f; simpl.
  - apply grows_ret.
  - apply grows_bind; [apply grows_split_edge | intros; apply IH].
Qed.

Lemma grows_split_pass (maxLength : R) : grows_in (split_pass maxLength).
Proof.
  unfold Refiner.split_pass. apply grows_bind; [apply grows_triangulate|].
  intros simplices. apply grows_for_edges.
Qed.

Lemma grows_splitViaDelaunay (depth : nat) (maxLength : R) :
  grows_in (splitViaDelaunay depth maxLength).
Proof.
  induction depth as [|depth IH]; simpl.
  - apply grows_raise.
  - apply grows_bind; [apply grows_split_pass|].
    intros [|]; [apply grows_ret | apply IH].
Qed.

(** C10.  [splitViaDelaunay] only appends to its point list: whatever the
    triangulation answers and however the call ends (also by an exception),
    the list it leaves is the list it was given followed by points each of
    which was, when appended, a proper convex combination of two points
    already in the list; the entries it was given (the three projected
    vertices first) are unchanged; and when they lie in a triangle, so does
    every point of the list it leaves.  The depth is arbitrary, so this holds
    after every pass. *)
Theorem splitViaDelaunay_appends_inside (depth : nat) (maxLength : R)
        (a b c : point) (points : list point) :
  Forall (in_triangle a b c) points ->
  grows points (snd (splitViaDelaunay depth maxLength points)) /\
  firstn (length points) (snd (splitViaDelaunay depth maxLength points)) = points /\
  Forall (in_triangle a b c) (snd (splitViaDelaunay depth maxLength points)).
Proof.
  intros Hin. pose proof (grows_splitViaDelaunay depth maxLength points) as Hg.
  repeat split; auto.
  - apply grows_firstn; auto.
  - eapply grows_closed; eauto. intros pa pb p. apply in_triangle_between.
Qed.

End RefinerGrowth.

(* ----------------------------------------------------------------- *)
(** ** The refiner: what a finished run leaves *)

Section RefinerRuns.

Import Refiner.

Variable Delaunay : list point -> option (list simplex).
Variable set_order : list edge -> list edge.

Local Abbreviation split_edge := Refiner.split_edge.
Local Abbreviation for_edges := Refiner.for_edges.
Local Abbreviation split_pass := (Refiner.split_pass Delaunay set_order).
Local Abbreviation splitViaDelaunay := (Refiner.splitViaDelaunay Delaunay set_order).

Lemma length2d_nonneg (p q : point) : 0 <= length2d p q.
Proof.
  destruct p, q. apply sqrt_pos.
Qed.

Lemma bind_ret_false {A : Type} (m : M A) (s : list point) :
  fst ((m ;;; ret false) s) <> Returned true.
Proof.
  unfold bind. destruct (m s) as [[a|e] s1]; simpl; discriminate.
Qed.

(** An edge that leaves the flag set was short, and nothing was appended. *)
Lemma split_edge_true (maxLength : R) (f : bool) (e : edge) (s s1 : list point) :
  split_edge maxLength f e s = (Returned true, s1) ->
  f = true /\ s1 = s /\ short s maxLength e.
Proof.
  destruct e as [p1 p2]. unfold Refiner.split_edge, bind at 1, getitem at 1.
  destruct (nth_error s p1) as [[x1 y1]|] eqn:H1; [|discriminate].
  unfold bind at 1, getitem.
  destruct (nth_error s p2) as [[x2 y2]|] eqn:H2; [|discriminate].
  destruct (Rlt_dec maxLength (length2d (x1, y1) (x2, y2))) as [Hlong|Hshort].
  - unfold bind at 1, lift, py_div.
    destruct (Req_dec_T maxLength 0) as [Hz|Hnz]; [discriminate|].
    intros H. exfalso. eapply bind_ret_false. rewrite H. reflexivity.
  - unfold ret. intros H. inversion H; subst. repeat split; auto.
    exists (x1, y1), (x2, y2). repeat split; auto. apply Rnot_lt_le, Hshort.
Qed.

Lemma for_edges_true (maxLength : R) (edges : list edge) :
  forall (f : bool) (s s1 : list point),
    for_edges maxLength edges f s = (Returned true, s1) ->
    f = true /\ s1 = s /\ Forall (short s maxLength) edges.
Proof.
  induction edges as [|e edges IH]; intros f s s1; simpl.
  - unfold ret. intros H; inversion H; subst. auto.
  - unfold bind. destruct (split_edge maxLength f e s) as [[f'|ex] s'] eqn:He; [|discriminate].
    intros H. apply IH in H as (-> & -> & Hall).
    apply split_edge_true in He as (-> & -> & Hs). auto.
Qed.

Lemma split_pass_true (maxLength : R) (s s1 : list point) :
  split_pass maxLength s = (Returned true, s1) ->
  s1 = s /\
  exists simplices,
    Delaunay s = Some simplices /\
    Forall (short s maxLength) (set_order (flat_map simplex_edges simplices)).
Proof.
  unfold Refiner.split_pass, bind, triangulate.
  destruct (Delaunay s) as [simplices|]; [|discriminate].
  intros H. apply for_edges_true in H as (_ & -> & Hall). eauto.
Qed.

(** When [splitViaDelaunay] returns, the triangulation of the list it
    leaves has short edges only. *)
Lemma splitViaDelaunay_returned (depth : nat) (maxLength : R) :
  forall (s s1 : list point) (x : unit),
    splitViaDelaunay depth maxLength s = (Returned x, s1) ->
    exists simplices,
      Delaunay s1 = Some simplices /\
      Forall (short s1 maxLength) (set_order (flat_map simplex_edges simplices)).
Proof.
  induction depth as [|depth IH]; intros s s1 x; simpl; [discriminate|].
  unfold bind. destruct (split_pass maxLength s) as [[[|]|ex] s'] eqn:Hp; [| |discriminate].
  - unfold ret. intros H; inversion H; subst.
    apply split_pass_true in Hp as (-> & Hs). exact Hs.
  - apply IH.
Qed.

(** What [lift_simplices] returns. *)
Lemma lift_simplices_returned (points : list point) (origin u v : V3) :
  forall (simplices : list simplex) (ts : list triangle),
    lift_simplices points origin u v simplices = Returned ts ->
    Forall (fun s => let '(x, y, z) := s in
                     (x < length points)%nat /\ (y < length points)%nat /\
                     (z < length points)%nat) simplices /\
    ts = map (fun s => let '(x, y, z) := s in
                       (to_3d (nth x points (0, 0)) origin u v,
                        to_3d (nth y points (0, 0)) origin u v,
                        to_3d (nth z points (0, 0)) origin u v)) simplices.
Proof.
  induction simplices as [|[[x y] z] rest IH]; intros ts; simpl.
  - intros H; inversion H; subst. auto.
  - unfold index.
    destruct (nth_error points x) as [px|] eqn:Hx;
      [|destruct (nth_error points y); [destruct (nth_error points z)|]; discriminate].
    destruct (nth_error points y) as [py|] eqn:Hy;
      [|destruct (nth_error points z); discriminate].
    destruct (nth_error points z) as [pz|] eqn:Hz; [|discriminate].
    destruct (lift_simplices points origin u v rest) as [ts'|] eqn:Hr; [|discriminate].
    intros H; inversion H; subst. destruct (IH ts' eq_refl) as [Hall ->].
    split.
    + constructor; auto. repeat split; apply nth_error_Some; congruence.
    + simpl. rewrite (nth_error_nth _ _ (0, 0) Hx), (nth_error_nth _ _ (0, 0) Hy),
        (nth_error_nth _ _ (0, 0) Hz). reflexivity.
Qed.

Lemma short_nth (points : list point) (maxLength : R) (a b : nat) :
  short points maxLength (a, b) ->
  length2d (nth a points (0, 0)) (nth b points (0, 0)) <= maxLength.
Proof.
  intros (P1 & P2 & H1 & H2 & Hl). simpl in *.
  rewrite (nth_error_nth _ _ (0, 0) H1), (nth_error_nth _ _ (0, 0) H2). exact Hl.
Qed.

Hypothesis set_order_complete : forall l e, In e l -> In e (set_order l).

Hypothesis Delaunay_tiles :
  forall (a b c : point) (rest : list point) (simplices : list simplex),
    0 < area2 a b c ->
    Forall (in_triangle a b c) (a :: b :: c :: rest) ->
    Delaunay (a :: b :: c :: rest) = Some simplices ->
    Rsum (map (simplex_area2 (a :: b :: c :: rest)) simplices) = area2 a b c.

Lemma in_triangle_vertices (a b c : point) : Forall (in_triangle a b c) [a; b; c].
Proof.
  repeat constructor.
  - exists 1, 0, 0. repeat split; lra.
  - exists 0, 1, 0. repeat split; lra.
  - exists 0, 0, 1. repeat split; lra.
Qed.

Lemma area3_pos (t : triangle) : nondegenerate t -> 0 < area3 t.
Proof.
  destruct t as [[v0 v1] v2]. unfold nondegenerate, area3. intros H.
  pose proof (norm_pos _ H). lra.
Qed.

(** One triangle: its refinement has short edges and its area. *)
Lemma subdivide_triangle_spec (depth : nat) (maxLength : R) (t : triangle)
      (ts : list triangle) :
  nondegenerate t ->
  subdivide_triangle Delaunay set_order depth maxLength t = Returned ts ->
  Forall (edges_le maxLength) ts /\ Rsum (map area3 ts) = area3 t.
Proof.
  intros Hnd. unfold subdivide_triangle.
  pose proof (projected_area t Hnd) as Harea.
  destruct (frame_orthonormal t Hnd) as (Huu & Hvv & Huv & _).
  rewrite project_triangle_2D_eq in *. destruct t as [[v0 v1] v2].
  set (u := frame_u (v0, v1, v2)) in *. set (v := frame_v (v0, v1, v2)) in *.
  set (p0 := project_to_2d v0 u v v0) in *. set (p1 := project_to_2d v0 u v v1) in *.
  set (p2 := project_to_2d v0 u v v2) in *.
  destruct (splitViaDelaunay depth maxLength [p0; p1; p2]) as [[x|ex] points] eqn:Hrun;
    [|discriminate].
  pose proof (grows_splitViaDelaunay Delaunay set_order depth maxLength [p0; p1; p2]) as Hg.
  rewrite Hrun in Hg. simpl in Hg.
  apply splitViaDelaunay_returned in Hrun as (simplices & HD & Hshort).
  rewrite HD. intros Hlift.
  apply lift_simplices_returned in Hlift as [Hidx ->]. split.
  - apply Forall_forall. intros tr Htr. apply in_map_iff in Htr as ([[x1 y1] z1] & <- & Hs).
    rewrite Forall_forall in Hshort.
    assert (He : forall e, In e (simplex_edges (x1, y1, z1)) -> short points maxLength e).
    { intros e He. apply Hshort, set_order_complete, in_flat_map. eauto. }
    unfold edges_le. rewrite !(to_3d_dist v0 u v Huu Hvv Huv).
    repeat split; apply short_nth, He; simpl; auto.
  - rewrite map_map.
    assert (Hpts : exists rest, points = p0 :: p1 :: p2 :: rest).
    { apply grows_prefix in Hg as [app ->]. exists app. reflexivity. }
    destruct Hpts as [rest ->].
    rewrite <- Harea.
    rewrite <- (Delaunay_tiles p0 p1 p2 rest simplices); auto.
    + f_equal. apply map_ext. intros [[x1 y1] z1].
      apply (to_3d_area v0 u v Huu Hvv Huv).
    + rewrite Harea. apply (area3_pos (v0, v1, v2) Hnd).
    + eapply grows_closed; [| exact Hg | apply in_triangle_vertices].
      intros pa pb p. apply in_triangle_between.
Qed.

Lemma subdivide_triangles_spec (depth : nat) (maxLength : R) :
  forall (tris out : list triangle),
    Forall nondegenerate tris ->
    subdivide_triangles Delaunay set_order depth tris maxLength = Returned out ->
    Forall (edges_le maxLength) out /\ Rsum (map area3 out) = Rsum (map area3 tris).
Proof.
  induction tris as [|t rest IH]; intros out Hnd; simpl.
  - intros H; inversion H; subst. auto.
  - inversion Hnd as [|? ? Ht Hrest]; subst.
    destruct (subdivide_triangle Delaunay set_order depth maxLength t) as [new|] eqn:Hnew;
      [|discriminate].
    destruct (subdivide_triangles Delaunay set_order depth rest maxLength) as [refined|] eqn:Hr;
      [|discriminate].
    intros H; inversion H; subst.
    apply subdivide_triangle_spec in Hnew as [He Ha]; auto.
    destruct (IH refined Hrest eq_refl) as [He' Ha'].
    split; [apply Forall_app; auto|].
    rewrite map_app, Rsum_app, Ha, Ha'. reflexivity.
Qed.

End RefinerRuns.

(* ----------------------------------------------------------------- *)
(** ** The refiner: scenes, materials and exceptions *)

Lemma combine_app {A B : Type} (l1 l2 : list A) (l1' l2' : list B) :
  length l1 = length l1' ->
  combine (l1 ++ l2) (l1' ++ l2') = combine l1 l1' ++ combine l2 l2'.
Proof.
  revert l1'. induction l1 as [|a l1 IH]; intros [|b l1'] H; simpl in *; try discriminate; auto.
  f_equal. apply IH. lia.
Qed.

Section RefinerScenes.

Import Refiner.

Variable Delaunay : list point -> option (list simplex).
Variable set_order : list edge -> list edge.
Variable fix_normals : list triangle -> list triangle.

Local Abbreviation splitViaDelaunay := (Refiner.splitViaDelaunay Delaunay set_order).
Local Abbreviation subdivide_triangle := (Refiner.subdivide_triangle Delaunay set_order).
Local Abbreviation subdivide_triangles := (Refiner.subdivide_triangles Delaunay set_order).
Local Abbreviation refine_scene := (Refiner.refine_scene Delaunay set_order fix_normals).

(** Every patch the extraction lists is a triangle of a mesh with the
    reflectance and the emission of that mesh's material. *)
Lemma extract_spec :
  forall (sc : scene) (T : list triangle) (rho E : matrix),
    extract sc = Returned (T, rho, E) ->
    length rho = length T /\ length E = length T /\
    forall t r e, In (t, (r, e)) (combine T (combine rho E)) ->
      exists key m mat,
        In (key, m) sc /\ visual_material m = Some mat /\ In t (triangles m) /\
        r = get_default (kd mat) default_kd /\ e = get_default (ke mat) default_ke.
Proof.
  induction sc as [|[key m] rest IH]; intros T rho E; simpl.
  - intros H; inversion H; subst. simpl. split; [reflexivity|split; [reflexivity|]].
    intros ? ? ? [].
  - destruct (visual_material m) as [mat|] eqn:Hmat; [|discriminate].
    destruct (extract rest) as [[[T' rho'] E']|]; [|discriminate].
    intros H; inversion H; subst. clear H.
    destruct (IH T' rho' E' eq_refl) as (Hl1 & Hl2 & Hin).
    rewrite !length_app, !repeat_length. repeat split; try lia.
    intros t r e Ht.
    rewrite (combine_app (repeat _ _) rho' (repeat _ _) E') in Ht
      by (rewrite !repeat_length; auto).
    rewrite combine_app in Ht by (rewrite length_combine, !repeat_length; lia).
    apply in_app_or in Ht as [Ht|Ht].
    + exists key, m, mat. repeat split; auto.
      * apply in_combine_l in Ht. exact Ht.
      * apply in_combine_r, in_combine_l in Ht. apply repeat_spec in Ht. exact Ht.
      * apply in_combine_r, in_combine_r in Ht. apply repeat_spec in Ht. exact Ht.
    + destruct (Hin t r e Ht) as (key' & m' & mat' & Hk & Hrest).
      exists key', m', mat'. split; auto.
Qed.

(** Every mesh of the refined scene is a mesh of the scene, refined, with
    its material. *)
Lemma refine_scene_spec (depth : nat) (maxLength : R) :
  forall (sc sc' : scene),
    refine_scene depth sc maxLength = Returned sc' ->
    forall key m', In (key, m') sc' ->
      exists m refined,
        In (key, m) sc /\ visual_material m' = visual_material m /\
        subdivide_triangles depth (triangles m) maxLength = Returned refined /\
        triangles m' = fix_normals refined.
Proof.
  induction sc as [|[key m] rest IH]; intros sc'; simpl.
  - intros H; inversion H; subst. intros ? ? [].
  - destruct (subdivide_triangles depth (triangles m) maxLength) as [refined|] eqn:Hr;
      [|discriminate].
    destruct (refine_scene depth rest maxLength) as [rs|] eqn:Hrs; [|discriminate].
    intros H; inversion H; subst. clear H.
    intros key' m' [Heq|Hin].
    + inversion Heq; subst. exists m, refined. simpl. auto.
    + destruct (IH rs eq_refl key' m' Hin) as (m0 & refined0 & H1 & H2).
      exists m0, refined0. split; auto.
Qed.

(** *** Exceptions are not caught *)

Lemma splitViaDelaunay_qhull (depth : nat) (maxLength : R) (s : list point) :
  Delaunay s = None ->
  splitViaDelaunay (S depth) maxLength s = (Raised QhullError, s).
Proof.
  intros H. simpl. unfold bind, split_pass, bind, triangulate. rewrite H. reflexivity.
Qed.

Lemma subdivide_triangle_qhull (depth : nat) (maxLength : R) (t : triangle) :
  (let '(p0, p1, p2, _, _, _) := project_triangle_2D t in Delaunay [p0; p1; p2] = None) ->
  subdivide_triangle depth maxLength t
  = Raised (match depth with O => RecursionError | S _ => QhullError end).
Proof.
  unfold Refiner.subdivide_triangle.
  destruct (project_triangle_2D t) as [[[[[p0 p1] p2] origin] u] v]. intros H.
  destruct depth as [|depth]; [reflexivity|].
  rewrite splitViaDelaunay_qhull by auto. reflexivity.
Qed.

Lemma subdivide_triangles_raises (depth : nat) (maxLength : R) (t : triangle) :
  forall (tris : list triangle) (e : exn),
    In t tris -> subdivide_triangle depth maxLength t = Raised e ->
    exists e', subdivide_triangles depth tris maxLength = Raised e'.
Proof.
  induction tris as [|t' rest IH]; intros e Hin Ht; [destruct Hin|].
  simpl. destruct Hin as [Heq|Hin].
  - subst t'. rewrite Ht. eauto.
  - destruct (subdivide_triangle depth maxLength t') as [new|e1]; [|eauto].
    destruct (IH e Hin Ht) as [e' ->]. eauto.
Qed.

Lemma refine_scene_raises (depth : nat) (maxLength : R) (key : String.string) (m : mesh) :
  forall (sc : scene) (e : exn),
    In (key, m) sc -> subdivide_triangles depth (triangles m) maxLength = Raised e ->
    exists e', refine_scene depth sc maxLength = Raised e'.
Proof.
  induction sc as [|[key' m'] rest IH]; intros e Hin Hm; [destruct Hin|].
  simpl. destruct Hin as [Heq|Hin].
  - inversion Heq; subst. rewrite Hm. eauto.
  - destruct (subdivide_triangles depth (triangles m') maxLength) as [r|e1]; [|eauto].
    destruct (IH e Hin Hm) as [e' ->]. eauto.
Qed.

(** The projection of a triangle of zero area is three points of one
    line. *)
Lemma degenerate_collinear (t : triangle) :
  degenerate t ->
  let '(p0, p1, p2, _, _, _) := project_triangle_2D t in collinear p0 p1 p2 = true.
Proof.
  intros Hd. rewrite project_triangle_2D_eq. destruct t as [[v0 v1] v2].
  assert (Hv : frame_v (v0, v1, v2) = v3zero).
  { unfold frame_v, frame_n. unfold degenerate in Hd. rewrite Hd.
    apply v3_ext; unfold cross, v3div, v3zero, Rdiv; simpl; ring. }
  rewrite Hv. unfold collinear, project_to_2d. cbn [fst snd].
  destruct (Req_dec_T _ 0) as [|Hne]; auto.
  exfalso. apply Hne. unfold dot, v3zero; simpl. ring.
Qed.

End RefinerScenes.

(* ----------------------------------------------------------------- *)
(** ** The refiner: non-positive [maxLength] *)

Section RefinerBadLength.

Import Refiner.

Variable Delaunay : list point -> option (list simplex).
Variable set_order : list edge -> list edge.

Local Abbreviation split_edge := Refiner.split_edge.
Local Abbreviation for_edges := Refiner.for_edges.
Local Abbreviation split_pass := (Refiner.split_pass Delaunay set_order).
Local Abbreviation splitViaDelaunay := (Refiner.splitViaDelaunay Delaunay set_order).

Lemma ceil_nonpos (q : R) : q <= 0 -> (ceil q <= 0)%Z.
Proof.
  intros Hq. unfold ceil. destruct (archimed (- q)) as [Hup _].
  assert (0 < IZR (up (- q))) by lra.
  apply lt_IZR in H. lia.
Qed.

Lemma range_empty (lo hi : Z) : (hi <= lo)%Z -> range lo hi = [].
Proof.
  intros H. unfold range. replace (Z.to_nat (hi - lo)) with 0%nat by lia. reflexivity.
Qed.

Lemma in_bounds_nth (s : list point) (e : edge) :
  in_bounds s e ->
  exists P1 P2, nth_error s (fst e) = Some P1 /\ nth_error s (snd e) = Some P2.
Proof.
  intros [H1 H2]. apply nth_error_Some in H1, H2.
  destruct (nth_error s (fst e)) as [P1|]; [|congruence].
  destruct (nth_error s (snd e)) as [P2|]; [|congruence]. eauto.
Qed.

(** A negative bound: every edge is too long, no piece is cut. *)
Lemma split_edge_negative (maxLength : R) (f : bool) (e : edge) (s : list point) :
  maxLength < 0 -> in_bounds s e ->
  split_edge maxLength f e s = (Returned false, s).
Proof.
  intros Hm Hb. destruct (in_bounds_nth s e Hb) as ([x1 y1] & [x2 y2] & H1 & H2).
  destruct e as [p1 p2]. simpl in H1, H2.
  unfold Refiner.split_edge, bind at 1, getitem at 1. rewrite H1.
  unfold bind at 1, getitem. rewrite H2.
  pose proof (length2d_nonneg (x1, y1) (x2, y2)) as Hl.
  destruct (Rlt_dec maxLength (length2d (x1, y1) (x2, y2))) as [Hlong|Hshort]; [|lra].
  unfold bind at 1, lift, py_div. destruct (Req_dec_T maxLength 0) as [Hz|Hnz]; [lra|].
  rewrite range_empty; [reflexivity|].
  assert (Hq : length2d (x1, y1) (x2, y2) / maxLength <= 0).
  { unfold Rdiv. assert (/ maxLength < 0) by (apply Rinv_lt_0_compat; auto). nra. }
  pose proof (ceil_nonpos _ Hq). lia.
Qed.

Lemma for_edges_negative (maxLength : R) (s : list point) (edges : list edge) :
  maxLength < 0 -> Forall (in_bounds s) edges ->
  forall f, for_edges maxLength edges f s
            = (Returned (match edges with [] => f | _ => false end), s).
Proof.
  intros Hm Hall. induction Hall as [|e edges He Hall IH]; intros f; simpl; [reflexivity|].
  unfold bind. rewrite split_edge_negative by auto. rewrite IH.
  destruct edges; reflexivity.
Qed.

Lemma splitViaDelaunay_negative (maxLength : R) (s : list point) (simplices : list simplex) :
  maxLength < 0 ->
  Delaunay s = Some simplices ->
  Forall (in_bounds s) (set_order (flat_map simplex_edges simplices)) ->
  set_order (flat_map simplex_edges simplices) <> [] ->
  forall depth, splitViaDelaunay depth maxLength s = (Raised RecursionError, s).
Proof.
  intros Hm HD Hb Hne. induction depth as [|depth IH]; simpl; [reflexivity|].
  unfold bind at 1. unfold Refiner.split_pass at 1, bind, triangulate. rewrite HD.
  rewrite for_edges_negative by auto.
  destruct (set_order (flat_map simplex_edges simplices)); [congruence|]. exact IH.
Qed.

(** A zero bound: the first edge of positive length divides by zero. *)
Lemma for_edges_zero (s : list point) (edges : list edge) :
  Forall (in_bounds s) edges -> Exists (proper s) edges ->
  forall f, for_edges 0 edges f s = (Raised ZeroDivisionError, s).
Proof.
  intros Hall. induction Hall as [|e edges He Hall IH]; intros Hex f.
  - inversion Hex.
  - destruct (in_bounds_nth s e He) as ([x1 y1] & [x2 y2] & H1 & H2).
    destruct e as [p1 p2]. simpl in H1, H2. simpl.
    unfold bind at 1. unfold Refiner.split_edge, bind at 1, getitem at 1. rewrite H1.
    unfold bind at 1, getitem. rewrite H2.
    destruct (Rlt_dec 0 (length2d (x1, y1) (x2, y2))) as [Hlong|Hshort].
    + unfold bind, lift, py_div. destruct (Req_dec_T 0 0) as [_|Hne]; [reflexivity|lra].
    + unfold ret. apply IH. inversion Hex as [? ? Hp|]; subst; auto.
      exfalso. destruct Hp as (P1 & P2 & Hp1 & Hp2 & Hlen). simpl in Hp1, Hp2.
      rewrite H1 in Hp1. rewrite H2 in Hp2. inversion Hp1; inversion Hp2; subst. lra.
Qed.

Lemma splitViaDelaunay_zero (depth : nat) (s : list point) (simplices : list simplex) :
  Delaunay s = Some simplices ->
  Forall (in_bounds s) (set_order (flat_map simplex_edges simplices)) ->
  Exists (proper s) (set_order (flat_map simplex_edges simplices)) ->
  splitViaDelaunay (S depth) 0 s = (Raised ZeroDivisionError, s).
Proof.
  intros HD Hb Hex. simpl.
  unfold bind at 1. unfold Refiner.split_pass at 1, bind, triangulate. rewrite HD.
  rewrite for_edges_zero by auto. reflexivity.
Qed.

End RefinerBadLength.

Lemma epsilon_nonneg (centroids : list V3) (eps : R) :
  FormFactor.epsilon centroids = Returned eps -> 0 <= eps.
Proof.
  destruct centroids as [|c cs]; simpl; [discriminate|].
  intros H; inversion H; subst.
  apply Rmult_le_pos; [lra | apply norm_nonneg].
Qed.

(** The matrix of the cell is the matrix of the loop at a non-negative
    [epsilon]. *)
Lemma form_factor_cell_returned
      (intersects_location : list V3 -> list V3 -> list (V3 * nat))
      (hit_dist64 : V3 -> V3 -> R) (reach64 : R -> R -> R)
      (centroids normals : list V3) (areas : list R) (F : matrix) :
  FormFactor.form_factor_cell intersects_location hit_dist64 reach64 centroids normals areas
  = Returned F ->
  exists eps,
    0 <= eps /\ FormFactor.epsilon centroids = Returned eps /\
    F = FormFactor.form_factors intersects_location hit_dist64 reach64
                                centroids normals areas eps.
Proof.
  unfold FormFactor.form_factor_cell.
  destruct (FormFactor.epsilon centroids) as [eps|e] eqn:He; [|discriminate].
  intros H; inversion H; subst. exists eps. repeat split; auto.
  eapply epsilon_nonneg; eauto.
Qed.

Lemma epsilon_single (c : V3) : FormFactor.epsilon [c] = Returned 0.
Proof.
  simpl. f_equal. unfold norm.
  replace (dot (v3sub c c) (v3sub c c)) with 0 by (unfold dot, v3sub; simpl; ring).
  rewrite sqrt_0. ring.
Qed.

(* ----------------------------------------------------------------- *)
(** ** The refiner: running it *)

Section RefinerEvaluation.

Import Refiner.

Variable Delaunay : list point -> option (list simplex).
Variable set_order : list edge -> list edge.

Local Abbreviation split_pass := (Refiner.split_pass Delaunay set_order).
Local Abbreviation splitViaDelaunay := (Refiner.splitViaDelaunay Delaunay set_order).

Lemma split_edge_short_run (maxLength : R) (f : bool) (p1 p2 : nat) (P1 P2 : point)
      (s : list point) :
  nth_error s p1 = Some P1 -> nth_error s p2 = Some P2 ->
  length2d P1 P2 <= maxLength ->
  split_edge maxLength f (p1, p2) s = (Returned f, s).
Proof.
  intros H1 H2 Hl. destruct P1 as [x1 y1], P2 as [x2 y2].
  unfold split_edge, bind at 1, getitem at 1. rewrite H1.
  unfold bind at 1, getitem. rewrite H2.
  destruct (Rlt_dec maxLength (length2d (x1, y1) (x2, y2))) as [Hlong|Hshort]; [lra|].
  reflexivity.
Qed.

Lemma for_each_append (pt : Z -> point) (l : list Z) :
  forall s, for_each l (fun piece => append (pt piece)) s = (Returned tt, s ++ map pt l).
Proof.
  induction l as [|z l IH]; intros s; simpl.
  - unfold ret. rewrite app_nil_r. reflexivity.
  - unfold bind, append at 1. rewrite IH, <- app_assoc. reflexivity.
Qed.

Lemma split_edge_long_run (maxLength : R) (f : bool) (p1 p2 : nat) (x1 y1 x2 y2 : R)
      (s : list point) (n : Z) :
  nth_error s p1 = Some (x1, y1) -> nth_error s p2 = Some (x2, y2) ->
  maxLength < length2d (x1, y1) (x2, y2) -> maxLength <> 0 ->
  ceil (length2d (x1, y1) (x2, y2) / maxLength) = n ->
  split_edge maxLength f (p1, p2) s
  = (Returned false,
     s ++ map (fun piece => (x1 + IZR piece / IZR n * (x2 - x1),
                             y1 + IZR piece / IZR n * (y2 - y1))) (range 1 n)).
Proof.
  intros H1 H2 Hl Hm Hn.
  unfold split_edge, bind at 1, getitem at 1. rewrite H1.
  unfold bind at 1, getitem. rewrite H2.
  destruct (Rlt_dec maxLength (length2d (x1, y1) (x2, y2))) as [Hlong|Hshort]; [|lra].
  unfold bind at 1, lift, py_div. destruct (Req_dec_T maxLength 0) as [Hz|Hnz]; [lra|].
  rewrite Hn. unfold bind. rewrite for_each_append. reflexivity.
Qed.

Lemma for_edges_short_run (maxLength : R) (s : list point) (edges : list edge) :
  Forall (short s maxLength) edges ->
  forall f, for_edges maxLength edges f s = (Returned f, s).
Proof.
  induction 1 as [|[p1 p2] edges (P1 & P2 & H1 & H2 & Hl) _ IH]; intros f;
    cbn [for_edges]; [reflexivity|].
  unfold bind. rewrite (split_edge_short_run maxLength f p1 p2 P1 P2 s H1 H2 Hl). apply IH.
Qed.

Lemma splitViaDelaunay_again (depth : nat) (maxLength : R) (s s' : list point) :
  split_pass maxLength s = (Returned false, s') ->
  splitViaDelaunay (S depth) maxLength s = splitViaDelaunay depth maxLength s'.
Proof.
  intros H. simpl. unfold bind at 1. rewrite H. reflexivity.
Qed.

Lemma splitViaDelaunay_done (depth : nat) (maxLength : R) (s s' : list point) :
  split_pass maxLength s = (Returned true, s') ->
  splitViaDelaunay (S depth) maxLength s = (Returned tt, s').
Proof.
  intros H. simpl. unfold bind at 1. rewrite H. reflexivity.
Qed.

End RefinerEvaluation.

(** *** The unit right triangle, bound 1 *)

Section UnitTriangle.

Import Refiner.

Lemma sqrt_le_one (x : R) : 0 <= x <= 1 -> sqrt x <= 1.
Proof.
  intros [H0 H1]. rewrite <- sqrt_1. apply sqrt_le_1; lra.
Qed.

Lemma sqrt_2_bounds : 1 < sqrt 2 <= 2.
Proof.
  split.
  - rewrite <- sqrt_1 at 1. apply sqrt_lt_1; lra.
  - replace 2 with (sqrt (2 * 2)) at 2 by (apply sqrt_square; lra).
    apply sqrt_le_1; lra.
Qed.

Lemma ceil_sqrt_2 : ceil (sqrt 2 / 1) = 2%Z.
Proof.
  unfold ceil. pose proof sqrt_2_bounds as [H1 H2].
  rewrite <- (tech_up (- (sqrt 2 / 1)) (-1)); [reflexivity| |]; simpl; lra.
Qed.

Lemma unit_triangle_nondegenerate : nondegenerate unit_triangle.
Proof.
  unfold nondegenerate, unit_triangle. intros H. apply (f_equal vz) in H. simpl in H. lra.
Qed.

Lemma unit_triangle_projection :
  project_triangle_2D unit_triangle
  = ((0, 0), (1, 0), (0, 1), mkV3 0 0 0, mkV3 1 0 0, mkV3 0 1 0).
Proof.
  rewrite project_triangle_2D_eq. unfold unit_triangle.
  assert (Hu : frame_u (mkV3 0 0 0, mkV3 1 0 0, mkV3 0 1 0) = mkV3 1 0 0).
  { unfold frame_u, norm, dot, v3sub, v3div; simpl.
    replace ((1 - 0) * (1 - 0) + (0 - 0) * (0 - 0) + (0 - 0) * (0 - 0)) with 1 by lra.
    rewrite sqrt_1. apply v3_ext; simpl; lra. }
  assert (Hn : frame_n (mkV3 0 0 0, mkV3 1 0 0, mkV3 0 1 0) = mkV3 0 0 1).
  { unfold frame_n, norm, dot, cross, v3sub, v3div; simpl.
    match goal with |- context [sqrt ?x] => replace x with 1 by lra end.
    rewrite sqrt_1. apply v3_ext; simpl; lra. }
  assert (Hv : frame_v (mkV3 0 0 0, mkV3 1 0 0, mkV3 0 1 0) = mkV3 0 1 0).
  { unfold frame_v. rewrite Hn, Hu. apply v3_ext; unfold cross; simpl; lra. }
  rewrite Hu, Hv. unfold project_to_2d, dot, v3sub; simpl.
  repeat (apply f_equal2; try reflexivity); lra.
Qed.

Lemma Delaunay_small_three :
  Delaunay_small [(0, 0); (1, 0); (0, 1)] = Some [(0, 1, 2)%nat].
Proof.
  unfold Delaunay_small, collinear; simpl.
  destruct (Req_dec_T _ 0) as [H|_]; [lra | reflexivity].
Qed.

Lemma Delaunay_small_four :
  Delaunay_small [(0, 0); (1, 0); (0, 1); (1 / 2, 1 / 2)]
  = Some [(0, 1, 3)%nat; (0, 3, 2)%nat].
Proof.
  unfold Delaunay_small, collinear, is_midpoint; simpl.
  destruct (Req_dec_T _ 0) as [H|_]; [lra|].
  destruct (Req_dec_T (1 / 2) ((1 + 0) / 2)) as [_|H]; [|lra].
  destruct (Req_dec_T (1 / 2) ((0 + 1) / 2)) as [_|H]; [|lra].
  reflexivity.
Qed.

Lemma unit_triangle_first_pass :
  split_pass Delaunay_small insertion_order 1 [(0, 0); (1, 0); (0, 1)]
  = (Returned false, [(0, 0); (1, 0); (0, 1); (1 / 2, 1 / 2)]).
Proof.
  unfold split_pass, bind at 1, triangulate. rewrite Delaunay_small_three.
  change (insertion_order (flat_map simplex_edges [(0, 1, 2)%nat]))
    with [(0, 1)%nat; (1, 2)%nat; (0, 2)%nat].
  cbn [for_edges]. unfold bind at 1.
  rewrite (split_edge_short_run 1 true 0 1 (0, 0) (1, 0)); try reflexivity.
  2:{ simpl. apply sqrt_le_one. lra. }
  unfold bind at 1.
  assert (Hlen : length2d (1, 0) (0, 1) = sqrt 2).
  { simpl. f_equal. lra. }
  rewrite (split_edge_long_run 1 true 1 2 1 0 0 1 _ 2); try reflexivity.
  2:{ rewrite Hlen. apply sqrt_2_bounds. }
  2:{ lra. }
  2:{ rewrite Hlen. apply ceil_sqrt_2. }
  change (range 1 2) with [1%Z]. simpl map. simpl app.
  replace (1 + 1 / 2 * (0 - 1)) with (1 / 2) by lra.
  replace (0 + 1 / 2 * (1 - 0)) with (1 / 2) by lra.
  unfold bind at 1.
  rewrite (split_edge_short_run 1 false 0 2 (0, 0) (0, 1)); try reflexivity.
  simpl. apply sqrt_le_one. lra.
Qed.

Lemma unit_triangle_second_pass :
  split_pass Delaunay_small insertion_order 1 [(0, 0); (1, 0); (0, 1); (1 / 2, 1 / 2)]
  = (Returned true, [(0, 0); (1, 0); (0, 1); (1 / 2, 1 / 2)]).
Proof.
  unfold split_pass, bind at 1, triangulate. rewrite Delaunay_small_four.
  apply for_edges_short_run.
  change (insertion_order (flat_map simplex_edges [(0, 1, 3)%nat; (0, 3, 2)%nat]))
    with [(0, 1)%nat; (1, 3)%nat; (0, 3)%nat; (3, 2)%nat; (0, 2)%nat].
  repeat constructor;
    (eexists; eexists; split; [reflexivity | split; [reflexivity|]];
     simpl; apply sqrt_le_one; lra).
Qed.

Lemma unit_triangle_run :
  subdivide_triangles Delaunay_small insertion_order 5 [unit_triangle] 1
  = Returned [(mkV3 0 0 0, mkV3 1 0 0, mkV3 (1 / 2) (1 / 2) 0);
              (mkV3 0 0 0, mkV3 (1 / 2) (1 / 2) 0, mkV3 0 1 0)].
Proof.
  unfold subdivide_triangles, subdivide_triangle. rewrite unit_triangle_projection.
  rewrite (splitViaDelaunay_again _ _ _ _ _ _ unit_triangle_first_pass).
  rewrite (splitViaDelaunay_done _ _ _ _ _ _ unit_triangle_second_pass).
  rewrite Delaunay_small_four. simpl. unfold v3add, v3scale; simpl.
  repeat (apply f_equal2 || apply f_equal); try reflexivity; try (apply v3_ext; simpl; lra).
Qed.

End UnitTriangle.

(* ----------------------------------------------------------------- *)
(** ** The refiner: the claims *)

Section SmallTriangulation.

Import Refiner.

Lemma insertion_order_complete (l : list edge) (e : edge) :
  In e l -> In e (insertion_order l).
Proof.
  intros H. apply nodup_In. exact H.
Qed.

Lemma Delaunay_small_collinear (a b c : point) :
  collinear a b c = true -> Delaunay_small [a; b; c] = None.
Proof.
  intros H. unfold Delaunay_small. rewrite H. reflexivity.
Qed.

Lemma Rabs_half (x : R) : Rabs (x / 2) = Rabs x / 2.
Proof.
  unfold Rdiv. rewrite Rabs_mult, (Rabs_pos_eq (/ 2)) by lra. reflexivity.
Qed.

(** The small triangulation covers the triangle of its first three
    points. *)
Lemma Delaunay_small_tiles (a b c : point) (rest : list point) (simplices : list simplex) :
  0 < area2 a b c ->
  Forall (in_triangle a b c) (a :: b :: c :: rest) ->
  Delaunay_small (a :: b :: c :: rest) = Some simplices ->
  Rsum (map (simplex_area2 (a :: b :: c :: rest)) simplices) = area2 a b c.
Proof.
  intros _ _. unfold Delaunay_small.
  destruct rest as [|m [|? ?]]; [| |discriminate].
  - destruct (collinear a b c); [discriminate|].
    intros H; inversion H; subst. simpl. lra.
  - destruct (collinear a b c); [discriminate|].
    destruct (is_midpoint m b c) eqn:Hm; [|discriminate].
    intros H; inversion H; subst. clear H.
    unfold is_midpoint in Hm. apply andb_true_iff in Hm as [Hx Hy].
    destruct (Req_dec_T (fst m) _) as [Hx'|]; [|discriminate].
    destruct (Req_dec_T (snd m) _) as [Hy'|]; [|discriminate].
    simpl. unfold area2. rewrite Hx', Hy'.
    set (X := (fst b - fst a) * (snd c - snd a) - (snd b - snd a) * (fst c - fst a)).
    replace ((fst b - fst a) * ((snd b + snd c) / 2 - snd a)
             - (snd b - snd a) * ((fst b + fst c) / 2 - fst a)) with (X / 2)
      by (unfold X; field).
    replace (((fst b + fst c) / 2 - fst a) * (snd c - snd a)
             - ((snd b + snd c) / 2 - snd a) * (fst c - fst a)) with (X / 2)
      by (unfold X; field).
    rewrite Rabs_half. lra.
Qed.

Lemma flat_triangle_degenerate : degenerate flat_triangle.
Proof.
  unfold degenerate, flat_triangle. apply v3_ext; unfold cross, v3sub, v3zero; simpl; lra.
Qed.

End SmallTriangulation.

(** *** From the scene to the patches *)

Section RefinerPipeline.

Import Refiner Subdivision.

Variable Delaunay : list point -> option (list simplex).
Variable set_order : list edge -> list edge.
Variable fix_normals : list triangle -> list triangle.

Local Abbreviation subdivide_triangles := (Refiner.subdivide_triangles Delaunay set_order).
Local Abbreviation refine_scene := (Refiner.refine_scene Delaunay set_order fix_normals).
Local Abbreviation refined_from := (Subdivision.refined_from Delaunay set_order fix_normals).

(** Mesh by mesh, the refined scene is the refinement of the scene. *)
Lemma refine_scene_refined (depth : nat) (maxLength : R) :
  forall (sc sc' : scene),
    refine_scene depth sc maxLength = Returned sc' ->
    Forall2 (refined_from depth maxLength) sc sc'.
Proof.
  induction sc as [|[key m] rest IH]; intros sc'; simpl.
  - intros H; inversion H; subst. constructor.
  - destruct (subdivide_triangles depth (triangles m) maxLength) as [refined|] eqn:Hr;
      [|discriminate].
    destruct (Refiner.refine_scene Delaunay set_order fix_normals depth rest maxLength)
      as [rs|] eqn:Hrs; [|discriminate].
    intros H; inversion H; subst. clear H.
    constructor; [|apply IH; reflexivity].
    split; [reflexivity|]. exists refined. split; [exact Hr | reflexivity].
Qed.

Lemma combine_repeat {A B C : Type} (a : B) (b : C) (l : list A) :
  combine l (combine (repeat a (length l)) (repeat b (length l)))
  = map (fun t => (t, (a, b))) l.
Proof.
  induction l as [|x l IH]; simpl; [reflexivity|]. rewrite IH. reflexivity.
Qed.

(** The extraction lists the patches of the scene, all of them and in
    order. *)
Lemma extract_patches :
  forall (sc : scene) (T : list triangle) (rho E : matrix),
    extract sc = Returned (T, rho, E) ->
    combine T (combine rho E) = scene_patches sc.
Proof.
  induction sc as [|[key m] rest IH]; intros T rho E; simpl.
  - intros H; inversion H; subst. reflexivity.
  - unfold mesh_patches. cbn [snd].
    destruct (visual_material m) as [mat|] eqn:Hmat; [|discriminate].
    destruct (extract rest) as [[[T' rho'] E']|] eqn:Hex; [|discriminate].
    intros H; inversion H; subst. clear H.
    destruct (extract_spec rest T' rho' E' Hex) as (Hl1 & Hl2 & _).
    rewrite (combine_app (repeat _ _) rho' (repeat _ _) E')
      by (rewrite !repeat_length; auto).
    rewrite combine_app by (rewrite length_combine, !repeat_length; lia).
    rewrite combine_repeat. rewrite (IH T' rho' E' eq_refl). reflexivity.
Qed.

Lemma extract_triangles :
  forall (sc : scene) (T : list triangle) (rho E : matrix),
    extract sc = Returned (T, rho, E) ->
    T = flat_map (fun km => triangles (snd km)) sc.
Proof.
  induction sc as [|[key m] rest IH]; intros T rho E; simpl.
  - intros H; inversion H; subst. reflexivity.
  - destruct (visual_material m) as [mat|] eqn:Hmat; [|discriminate].
    destruct (extract rest) as [[[T' rho'] E']|] eqn:Hex; [|discriminate].
    intros H; inversion H; subst. clear H.
    rewrite (IH T' rho' E' eq_refl). reflexivity.
Qed.

(** Every triangle refined from a mesh with a material is a patch of the
    refined scene, with the reflectance and the emission of that
    material. *)
Lemma refined_scene_lists (depth : nat) (maxLength : R) :
  forall (sc sc' : scene),
    Forall2 (refined_from depth maxLength) sc sc' ->
    forall key m mat refined t,
      In (key, m) sc -> visual_material m = Some mat ->
      subdivide_triangles depth (triangles m) maxLength = Returned refined ->
      In t (fix_normals refined) ->
      In (t, (get_default (kd mat) default_kd, get_default (ke mat) default_ke))
         (scene_patches sc').
Proof.
  intros sc sc' H2. induction H2 as [|km km' sc sc' Hkm H2 IH];
    intros key m mat refined t Hin Hmat Hrun Ht; [destruct Hin|].
  unfold scene_patches. cbn [flat_map]. apply in_or_app.
  destruct Hin as [->|Hin].
  - left. destruct Hkm as (Hvis & refined' & Hrun' & Htri). cbn [snd] in *.
    rewrite Hrun in Hrun'. inversion Hrun'; subst refined'.
    unfold mesh_patches. rewrite Hvis, Hmat, Htri.
    apply (in_map (fun t0 => (t0, (get_default (kd mat) default_kd,
                                   get_default (ke mat) default_ke)))).
    exact Ht.
  - right. exact (IH key m mat refined t Hin Hmat Hrun Ht).
Qed.

Hypothesis set_order_complete : forall l e, In e l -> In e (set_order l).
Hypothesis Delaunay_tiles :
  forall (a b c : point) (rest : list point) (simplices : list simplex),
    0 < area2 a b c ->
    Forall (in_triangle a b c) (a :: b :: c :: rest) ->
    Delaunay (a :: b :: c :: rest) = Some simplices ->
    Rsum (map (simplex_area2 (a :: b :: c :: rest)) simplices) = area2 a b c.

(** With a [fix_normals] that keeps edges short, the triangles of a refined
    scene have short edges. *)
Lemma refined_scene_edges (depth : nat) (maxLength : R) :
  (forall l, Forall (edges_le maxLength) l -> Forall (edges_le maxLength) (fix_normals l)) ->
  forall (sc sc' : scene),
    Forall2 (refined_from depth maxLength) sc sc' ->
    Forall (fun km => Forall nondegenerate (triangles (snd km))) sc ->
    Forall (edges_le maxLength) (flat_map (fun km => triangles (snd km)) sc').
Proof.
  intros Hfix sc sc' H2. induction H2 as [|km km' sc sc' Hkm H2 IH]; intros Hnd.
  - constructor.
  - inversion Hnd as [|? ? Hnd1 Hnd2]; subst. simpl. apply Forall_app. split.
    + destruct Hkm as (_ & refined & Hrun & ->). apply Hfix.
      exact (proj1 (subdivide_triangles_spec Delaunay set_order set_order_complete
                      Delaunay_tiles depth maxLength _ _ Hnd1 Hrun)).
    + apply IH. exact Hnd2.
Qed.

(** With a [fix_normals] that keeps the total area, the triangles of a
    refined scene cover the area of the scene. *)
Lemma refined_scene_area (depth : nat) (maxLength : R) :
  (forall l, Rsum (map area3 (fix_normals l)) = Rsum (map area3 l)) ->
  forall (sc sc' : scene),
    Forall2 (refined_from depth maxLength) sc sc' ->
    Forall (fun km => Forall nondegenerate (triangles (snd km))) sc ->
    Rsum (map area3 (flat_map (fun km => triangles (snd km)) sc'))
    = Rsum (map area3 (flat_map (fun km => triangles (snd km)) sc)).
Proof.
  intros Hfix sc sc' H2. induction H2 as [|km km' sc sc' Hkm H2 IH]; intros Hnd.
  - reflexivity.
  - inversion Hnd as [|? ? Hnd1 Hnd2]; subst. simpl.
    rewrite !map_app, !Rsum_app, (IH Hnd2). f_equal.
    destruct Hkm as (_ & refined & Hrun & ->). rewrite Hfix.
    exact (proj2 (subdivide_triangles_spec Delaunay set_order set_order_complete
                    Delaunay_tiles depth maxLength _ _ Hnd1 Hrun)).
Qed.

End RefinerPipeline.

Section RefinerClaims.

Import Refiner.

Variable Delaunay : list point -> option (list simplex).
Variable set_order : list edge -> list edge.
Variable fix_normals : list triangle -> list triangle.

Local Abbreviation splitViaDelaunay := (Refiner.splitViaDelaunay Delaunay set_order).
Local Abbreviation subdivide_triangles := (Refiner.subdivide_triangles Delaunay set_order).
Local Abbreviation refine_scene := (Refiner.refine_scene Delaunay set_order fix_normals).
Local Abbreviation refined_from := (Subdivision.refined_from Delaunay set_order fix_normals).

(** C3.  Let the set of edges hold every edge added to it, and let the
    triangulation of a point list that starts with a triangle and stays
    inside it cover that triangle (its simplices' areas add up to the
    triangle's).  Then for non-degenerate input triangles and
    [maxLength > 0], whenever [subdivide_triangles] returns: every edge of
    every returned triangle is at most [maxLength] long; the areas of the
    returned triangles add up to the areas of the input triangles.  And
    whenever [refine_scene] and the extraction return: mesh by mesh, the
    refined scene holds the triangles [subdivide_triangles] returns for the
    mesh (after [fix_normals]) under the material of the mesh; [T], [rho]
    and [E] list exactly the triangles of the refined scene, all of them and
    in order, each with the reflectance and the emission of its parent's
    material; when the input triangles are those of a mesh of the scene,
    every returned triangle is listed (as [fix_normals] leaves it) with the
    reflectance and the emission of that mesh's material; and when the
    triangles of the scene are non-degenerate, [T] has edges of at most
    [maxLength] and the area of the scene, for a [fix_normals] that keeps
    edge lengths and areas. *)
Theorem refiner_output (depth : nat) (maxLength : R) (tris out : list triangle) :
  (forall l e, In e l -> In e (set_order l)) ->
  (forall (a b c : point) (rest : list point) (simplices : list simplex),
      0 < area2 a b c ->
      Forall (in_triangle a b c) (a :: b :: c :: rest) ->
      Delaunay (a :: b :: c :: rest) = Some simplices ->
      Rsum (map (simplex_area2 (a :: b :: c :: rest)) simplices) = area2 a b c) ->
  0 < maxLength ->
  Forall nondegenerate tris ->
  subdivide_triangles depth tris maxLength = Returned out ->
  Forall (edges_le maxLength) out /\
  Rsum (map area3 out) = Rsum (map area3 tris) /\
  forall (sc sc' : scene) (T : list triangle) (rho E : matrix),
    refine_scene depth sc maxLength = Returned sc' ->
    extract sc' = Returned (T, rho, E) ->
    length rho = length T /\ length E = length T /\
    Forall2 (refined_from depth maxLength) sc sc' /\
    combine T (combine rho E) = Subdivision.scene_patches sc' /\
    (forall t r e, In (t, (r, e)) (combine T (combine rho E)) ->
      exists key m mat refined,
        In (key, m) sc /\ visual_material m = Some mat /\
        subdivide_triangles depth (triangles m) maxLength = Returned refined /\
        In t (fix_normals refined) /\
        r = get_default (kd mat) default_kd /\ e = get_default (ke mat) default_ke) /\
    (forall key m mat t,
        In (key, m) sc -> triangles m = tris -> visual_material m = Some mat ->
        In t (fix_normals out) ->
        In (t, (get_default (kd mat) default_kd, get_default (ke mat) default_ke))
           (combine T (combine rho E))) /\
    (Forall (fun km => Forall nondegenerate (triangles (snd km))) sc ->
     ((forall l, Forall (edges_le maxLength) l -> Forall (edges_le maxLength) (fix_normals l)) ->
      Forall (edges_le maxLength) T) /\
     ((forall l, Rsum (map area3 (fix_normals l)) = Rsum (map area3 l)) ->
      Rsum (map area3 T) = Rsum (map area3 (flat_map (fun km => triangles (snd km)) sc)))).
Proof.
  intros Hset Htiles Hpos Hnd Hrun.
  destruct (subdivide_triangles_spec Delaunay set_order Hset Htiles depth maxLength
              tris out Hnd Hrun) as [He Ha].
  split; [exact He|]. split; [exact Ha|].
  intros sc sc' T rho E Hrs Hex.
  destruct (extract_spec sc' T rho E Hex) as (Hl1 & Hl2 & Hin).
  pose proof (refine_scene_refined Delaunay set_order fix_normals depth maxLength sc sc' Hrs)
    as Href.
  split; [exact Hl1|]. split; [exact Hl2|]. split; [exact Href|].
  split; [exact (extract_patches sc' T rho E Hex)|]. split; [|split].
  - intros t r e Ht.
    destruct (Hin t r e Ht) as (key & m' & mat & Hk & Hmat & Htm & Hr & Hemi).
    destruct (refine_scene_spec Delaunay set_order fix_normals depth maxLength sc sc' Hrs
                key m' Hk) as (m & refined & Hm & Hvis & Hsub & Htri).
    exists key, m, mat, refined. repeat split; auto; congruence.
  - intros key m mat t Hm Htris Hmat Ht.
    rewrite (extract_patches sc' T rho E Hex).
    apply (refined_scene_lists Delaunay set_order fix_normals depth maxLength sc sc' Href
             key m mat out t Hm Hmat); [|exact Ht].
    rewrite Htris. exact Hrun.
  - intros Hscene. rewrite (extract_triangles sc' T rho E Hex). split.
    + intros Hfix.
      exact (refined_scene_edges Delaunay set_order fix_normals Hset Htiles depth maxLength
               Hfix sc sc' Href Hscene).
    + intros Hfix.
      exact (refined_scene_area Delaunay set_order fix_normals Hset Htiles depth maxLength
               Hfix sc sc' Href Hscene).
Qed.

(** C8 as the code has it.  When the triangulation cannot proceed on three
    points of one line, a triangle of zero area is not recovered: the
    exception leaves [subdivide_triangles] for the whole list (first in the
    list, it is Qhull's error), no triangle is returned, and
    [refine_scene] raises for the whole scene. *)
Theorem degenerate_triangle_raises (depth : nat) (maxLength : R)
        (tris : list triangle) (t : triangle) :
  (forall a b c, collinear a b c = true -> Delaunay [a; b; c] = None) ->
  degenerate t -> In t tris ->
  (exists e, subdivide_triangles depth tris maxLength = Raised e) /\
  (forall rest, subdivide_triangles (S depth) (t :: rest) maxLength = Raised QhullError) /\
  (forall (sc : scene) key m,
      In (key, m) sc -> triangles m = tris ->
      exists e, refine_scene depth sc maxLength = Raised e).
Proof.
  intros Hcol Hdeg Hin.
  assert (Hfail : forall depth',
             subdivide_triangle Delaunay set_order depth' maxLength t
             = Raised (match depth' with O => RecursionError | S _ => QhullError end)).
  { intros depth'. apply subdivide_triangle_qhull.
    pose proof (degenerate_collinear t Hdeg) as Hc.
    destruct (project_triangle_2D t) as [[[[[p0 p1] p2] origin] u] v]. auto. }
  assert (Hall : exists e, subdivide_triangles depth tris maxLength = Raised e).
  { eapply subdivide_triangles_raises; eauto. }
  split; [exact Hall|]. split.
  - intros rest. simpl. rewrite Hfail. reflexivity.
  - intros sc key m Hm Htris. destruct Hall as [e He].
    apply (refine_scene_raises Delaunay set_order fix_normals depth maxLength key m sc e Hm).
    rewrite Htris. exact He.
Qed.

Variable intersects_location : list V3 -> list V3 -> list (V3 * nat).
Variables (hit_dist64 : V3 -> V3 -> R) (reach64 : R -> R -> R).

(** C7 as the code has it.  No configuration value is checked before the
    computation starts.  An iteration count [<= 0] makes the solver skip the
    loop and return [B = 0].  With [maxLength = 0] the refinement raises
    [ZeroDivisionError] inside its first pass, after the triangulation, at
    an edge of positive length; with [maxLength < 0] every pass appends
    nothing and the function calls itself on the same list until the
    recursion limit.  [epsilon] is computed from the centroids and is never
    negative; for a single patch it is 0 and the form-factor loop still
    returns its matrix. *)
Theorem nonpositive_configuration (F rho E : matrix) (num_iterations : Z)
        (depth : nat) (maxLength : R) (points : list point) (simplices : list simplex)
        (centroid normal : V3) (area : R) :
  (num_iterations <= 0)%Z -> maxLength <= 0 ->
  Delaunay points = Some simplices ->
  Forall (in_bounds points) (set_order (flat_map simplex_edges simplices)) ->
  Exists (proper points) (set_order (flat_map simplex_edges simplices)) ->
  Solver.solve F rho E num_iterations = Solver.zeros_like E /\
  (maxLength = 0 ->
   splitViaDelaunay (S depth) maxLength points = (Raised ZeroDivisionError, points)) /\
  (maxLength < 0 ->
   splitViaDelaunay depth maxLength points = (Raised RecursionError, points)) /\
  (forall centroids eps, FormFactor.epsilon centroids = Returned eps -> 0 <= eps) /\
  FormFactor.epsilon [centroid] = Returned 0 /\
  FormFactor.form_factors intersects_location hit_dist64 reach64
    [centroid] [normal] [area] 0 = [[0]].
Proof.
  intros Hn Hm HD Hb Hex. repeat split.
  - unfold Solver.solve. replace (Z.to_nat num_iterations) with 0%nat by lia. reflexivity.
  - intros ->. eapply splitViaDelaunay_zero; eauto.
  - intros Hneg. eapply splitViaDelaunay_negative; eauto.
    intros Hnil. rewrite Hnil in Hex. inversion Hex.
  - apply epsilon_nonneg.
  - apply epsilon_single.
Qed.

End RefinerClaims.

Section RefinerWitnesses.

Import Refiner.

Local Abbreviation red := (mkMaterial (Some [1; 0; 0]) None).
Local Abbreviation halves :=
  [(mkV3 0 0 0, mkV3 1 0 0, mkV3 (1 / 2) (1 / 2) 0);
   (mkV3 0 0 0, mkV3 (1 / 2) (1 / 2) 0, mkV3 0 1 0)].

Lemma unit_scene_run :
  refine_scene Delaunay_small insertion_order (fun l => l) 5 unit_scene 1
  = Returned [(String.EmptyString, mkMesh halves (Some red))].
Proof.
  unfold unit_scene. cbn [refine_scene triangles visual_material].
  rewrite unit_triangle_run. reflexivity.
Qed.

Lemma refiner_output_witness :
  subdivide_triangles Delaunay_small insertion_order 5 [unit_triangle] 1 = Returned halves /\
  refine_scene Delaunay_small insertion_order (fun l => l) 5 unit_scene 1
  = Returned [(String.EmptyString, mkMesh halves (Some red))] /\
  extract [(String.EmptyString, mkMesh halves (Some red))]
  = Returned (halves, [[1; 0; 0]; [1; 0; 0]], [default_ke; default_ke]) /\
  Forall (edges_le 1) halves /\
  Rsum (map area3 halves) = Rsum (map area3 [unit_triangle]) /\
  length [[1; 0; 0]; [1; 0; 0]] = length halves /\
  length [default_ke; default_ke] = length halves /\
  Forall2 (Subdivision.refined_from Delaunay_small insertion_order (fun l => l) 5 1)
          unit_scene [(String.EmptyString, mkMesh halves (Some red))] /\
  combine halves (combine [[1; 0; 0]; [1; 0; 0]] [default_ke; default_ke])
  = Subdivision.scene_patches [(String.EmptyString, mkMesh halves (Some red))] /\
  In ((mkV3 0 0 0, mkV3 (1 / 2) (1 / 2) 0, mkV3 0 1 0), ([1; 0; 0], default_ke))
     (combine halves (combine [[1; 0; 0]; [1; 0; 0]] [default_ke; default_ke])) /\
  Forall (edges_le 1) halves /\
  Rsum (map area3 halves) = Rsum (map area3 (flat_map (fun km => triangles (snd km)) unit_scene)).
Proof.
  pose proof (refiner_output Delaunay_small insertion_order (fun l => l) 5 1 [unit_triangle]
                halves insertion_order_complete Delaunay_small_tiles ltac:(lra)
                (Forall_cons _ unit_triangle_nondegenerate (Forall_nil _))
                unit_triangle_run) as (He & Ha & Hsc).
  destruct (Hsc unit_scene [(String.EmptyString, mkMesh halves (Some red))] halves
              [[1; 0; 0]; [1; 0; 0]] [default_ke; default_ke] unit_scene_run eq_refl)
    as (Hl1 & Hl2 & Href & Hp & _ & Hlist & Hpipe).
  assert (Hscene : Forall (fun km => Forall nondegenerate (triangles (snd km))) unit_scene).
  { constructor; [|constructor]. simpl.
    constructor; [exact unit_triangle_nondegenerate | constructor]. }
  destruct (Hpipe Hscene) as [Hedges Harea].
  split; [exact unit_triangle_run|]. split; [exact unit_scene_run|].
  split; [reflexivity|]. split; [exact He|]. split; [exact Ha|].
  split; [exact Hl1|]. split; [exact Hl2|]. split; [exact Href|]. split; [exact Hp|].
  split.
  { apply (Hlist String.EmptyString (mkMesh [unit_triangle] (Some red)) red).
    - left. reflexivity.
    - reflexivity.
    - reflexivity.
    - right. left. reflexivity. }
  split; [exact (Hedges (fun l H => H)) | exact (Harea (fun l => eq_refl))].
Defined.

(** A flat triangle ahead of the unit triangle: the whole call raises,
    though the unit triangle alone is refined. *)
Lemma flat_triangle_fails_batch :
  subdivide_triangles Delaunay_small insertion_order 5 [flat_triangle; unit_triangle] 1
  = Raised QhullError /\
  subdivide_triangles Delaunay_small insertion_order 5 [unit_triangle] 1
  = Returned [(mkV3 0 0 0, mkV3 1 0 0, mkV3 (1 / 2) (1 / 2) 0);
              (mkV3 0 0 0, mkV3 (1 / 2) (1 / 2) 0, mkV3 0 1 0)].
Proof.
  split; [|exact unit_triangle_run].
  cbn [subdivide_triangles].
  rewrite (subdivide_triangle_qhull Delaunay_small insertion_order 5 1 flat_triangle);
    [reflexivity|].
  pose proof (degenerate_collinear flat_triangle flat_triangle_degenerate) as Hc.
  destruct (project_triangle_2D flat_triangle) as [[[[[p0 p1] p2] origin] u] v].
  apply Delaunay_small_collinear. exact Hc.
Qed.

Lemma degenerate_triangle_raises_witness :
  (exists e, subdivide_triangles Delaunay_small insertion_order 5
                                 [flat_triangle; unit_triangle] 1 = Raised e) /\
  (forall rest, subdivide_triangles Delaunay_small insertion_order 6
                                    (flat_triangle :: rest) 1 = Raised QhullError) /\
  (forall (sc : scene) key m,
      In (key, m) sc -> triangles m = [flat_triangle; unit_triangle] ->
      exists e, refine_scene Delaunay_small insertion_order (fun l => l) 5 sc 1 = Raised e).
Proof.
  apply (degenerate_triangle_raises Delaunay_small insertion_order (fun l => l) 5 1
           [flat_triangle; unit_triangle] flat_triangle).
  - exact Delaunay_small_collinear.
  - exact flat_triangle_degenerate.
  - simpl. auto.
Defined.

(** A budget of zero passes: the solver returns the zero array. *)
Lemma zero_budget_returns :
  Solver.solve [[0; 1 / 2]; [1 / 2; 0]] [[1 / 2]; [1 / 2]] [[1]; [0]] 0 = [[0]; [0]].
Proof.
  reflexivity.
Qed.

Lemma nonpositive_configuration_witness :
  Solver.solve [[0; 1 / 2]; [1 / 2; 0]] [[1 / 2]; [1 / 2]] [[1]; [0]] (-3)
  = Solver.zeros_like [[1]; [0]] /\
  (0 = 0 ->
   splitViaDelaunay Delaunay_small insertion_order 3 0 [(0, 0); (1, 0); (0, 1)]
   = (Raised ZeroDivisionError, [(0, 0); (1, 0); (0, 1)])) /\
  (0 < 0 ->
   splitViaDelaunay Delaunay_small insertion_order 2 0 [(0, 0); (1, 0); (0, 1)]
   = (Raised RecursionError, [(0, 0); (1, 0); (0, 1)])) /\
  (forall centroids eps, FormFactor.epsilon centroids = Returned eps -> 0 <= eps) /\
  FormFactor.epsilon [mkV3 0 0 0] = Returned 0 /\
  FormFactor.form_factors FormFactor.no_hits FormFactor.exact_hit_dist
    FormFactor.exact_reach [mkV3 0 0 0] [mkV3 0 0 1] [1] 0 = [[0]].
Proof.
  apply (nonpositive_configuration Delaunay_small insertion_order FormFactor.no_hits
           FormFactor.exact_hit_dist FormFactor.exact_reach
           [[0; 1 / 2]; [1 / 2; 0]] [[1 / 2]; [1 / 2]] [[1]; [0]] (-3) 2 0
           [(0, 0); (1, 0); (0, 1)] [(0, 1, 2)%nat] (mkV3 0 0 0) (mkV3 0 0 1) 1).
  - lia.
  - lra.
  - exact Delaunay_small_three.
  - repeat constructor; simpl; lia.
  - apply Exists_cons_hd. exists (0, 0), (1, 0).
    split; [reflexivity | split; [reflexivity|]].
    simpl. apply sqrt_lt_R0. lra.
Defined.

End RefinerWitnesses.

Section GrowthWitness.

Import Refiner.

Lemma splitViaDelaunay_appends_inside_witness :
  grows [(0, 0); (1, 0); (0, 1)]
        (snd (splitViaDelaunay Delaunay_small insertion_order 5 1 [(0, 0); (1, 0); (0, 1)])) /\
  firstn (length [(0, 0); (1, 0); (0, 1)])
         (snd (splitViaDelaunay Delaunay_small insertion_order 5 1 [(0, 0); (1, 0); (0, 1)]))
  = [(0, 0); (1, 0); (0, 1)] /\
  Forall (in_triangle (0, 0) (1, 0) (0, 1))
         (snd (splitViaDelaunay Delaunay_small insertion_order 5 1 [(0, 0); (1, 0); (0, 1)])).
Proof.
  apply (splitViaDelaunay_appends_inside Delaunay_small insertion_order 5 1
           (0, 0) (1, 0) (0, 1) [(0, 0); (1, 0); (0, 1)]).
  apply in_triangle_vertices.
Defined.

(** The run behind the witness: the midpoint of the hypotenuse is the one
    point appended. *)
Example unit_triangle_points :
  splitViaDelaunay Delaunay_small insertion_order 5 1 [(0, 0); (1, 0); (0, 1)]
  = (Returned tt, [(0, 0); (1, 0); (0, 1); (1 / 2, 1 / 2)]).
Proof.
  rewrite (splitViaDelaunay_again _ _ _ _ _ _ unit_triangle_first_pass).
  apply (splitViaDelaunay_done _ _ _ _ _ _ unit_triangle_second_pass).
Qed.

End GrowthWitness.

(* ================================================================= *)
(** * Further properties of the solver *)

Section SolverEnergy.

Import Solver Energy.

Lemma solve_to_nat F rho E (n : Z) :
  solve F rho E n = solve F rho E (Z.of_nat (Z.to_nat n)).
Proof.
  unfold solve. rewrite Nat2Z.id. reflexivity.
Qed.

Lemma solve_shape N C F rho E (n : Z) :
  has_shape N N F -> has_shape N C rho -> has_shape N C E ->
  has_shape N C (solve F rho E n).
Proof.
  intros HF Hrho HE. rewrite solve_to_nat, (solve_iterate N C) by auto.
  apply has_shape_iterate.
Qed.

(** One more pass, entry by entry. *)
Lemma solve_entry_succ N C F rho E (n : nat) i c :
  has_shape N N F -> has_shape N C rho -> has_shape N C E ->
  (i < N)%nat -> (c < C)%nat ->
  nth c (nth i (solve F rho E (Z.of_nat (S n))) []) 0
  = nth c (nth i E []) 0
    + nth c (nth i rho []) 0 * incoming_spec N F (solve F rho E (Z.of_nat n)) i c.
Proof.
  intros HF Hrho HE Hi Hc.
  rewrite !(solve_iterate N C) by auto.
  change (iterate_spec N C F rho E (S n))
    with (update_spec N C F rho E (iterate_spec N C F rho E n)).
  apply update_entry; auto.
Qed.

Lemma solve_entry_zero N C F rho E i c :
  has_shape N N F -> has_shape N C rho -> has_shape N C E ->
  nth c (nth i (solve F rho E (Z.of_nat 0)) []) 0 = 0.
Proof.
  intros HF Hrho HE. rewrite (solve_iterate N C) by auto. apply iterate_entry_zero.
Qed.

Lemma zero_row_nth (r : vec) c : zero_row r -> nth c r 0 = 0.
Proof.
  intros H. unfold zero_row in H. rewrite Forall_forall in H.
  destruct (Nat.lt_ge_cases c (length r)) as [Hc|Hc].
  - apply H, nth_In, Hc.
  - apply nth_overflow, Hc.
Qed.

Lemma mle_nth N C X Y i c :
  has_shape N C X -> mle X Y -> (i < N)%nat -> (c < C)%nat ->
  nth c (nth i X []) 0 <= nth c (nth i Y []) 0.
Proof.
  intros [HN HC] H. subst N. revert i c. unfold mle in H.
  induction H as [|x y X Y Hxy H IH]; intros i c Hi Hc; simpl in Hi; [lia|].
  inversion HC as [|? ? Hx HC']; subst.
  destruct i as [|i]; simpl.
  - clear - Hxy Hc. revert c Hc. induction Hxy; intros c Hc; simpl in Hc; [lia|].
    destruct c; simpl; auto. apply IHHxy. lia.
  - apply IH; auto. lia.
Qed.

Lemma all_le_nth M X i c :
  all_le M X -> (i < length X)%nat -> (c < length (nth i X []))%nat ->
  nth c (nth i X []) 0 <= M.
Proof.
  intros H Hi Hc. unfold all_le in H. rewrite Forall_forall in H.
  specialize (H _ (nth_In X [] Hi)). rewrite Forall_forall in H.
  apply H, nth_In, Hc.
Qed.

Lemma Rsum_nth (row : list R) :
  Rsum row = Rsum (map (fun j => nth j row 0) (seq 0 (length row))).
Proof.
  induction row as [|x row IH]; simpl; auto.
  rewrite <- seq_shift, map_map. simpl. rewrite <- IH. reflexivity.
Qed.

Lemma Rsum_scale {X : Type} (k : R) (f : X -> R) (l : list X) :
  Rsum (map (fun x => f x * k) l) = Rsum (map f l) * k.
Proof.
  induction l as [|x l IH]; simpl; [lra|]. rewrite IH. lra.
Qed.

Lemma Rsum_plus {X : Type} (f g : X -> R) (l : list X) :
  Rsum (map (fun x => f x + g x) l) = Rsum (map f l) + Rsum (map g l).
Proof.
  induction l as [|x l IH]; simpl; [lra|]. rewrite IH. lra.
Qed.

(** The gathered light is monotone in the radiosity it gathers from. *)
Lemma incoming_le N F B B' i c :
  nonneg F ->
  (forall j, (j < N)%nat -> nth c (nth j B []) 0 <= nth c (nth j B' []) 0) ->
  incoming_spec N F B i c <= incoming_spec N F B' i c.
Proof.
  intros HF H. unfold incoming_spec. apply Rsum_le. intros j Hj.
  apply in_seq in Hj. apply Rmult_le_compat_l; [apply nonneg_nth; auto|].
  apply H. lia.
Qed.

(** A non-negative array that one pass does not raise bounds every
    iterate. *)
Lemma iterate_le_super N C F rho E Bs :
  has_shape N N F -> has_shape N C rho -> has_shape N C E ->
  nonneg F -> nonneg rho -> nonneg Bs ->
  (forall i c, (i < N)%nat -> (c < C)%nat ->
     nth c (nth i E []) 0 + nth c (nth i rho []) 0 * incoming_spec N F Bs i c
     <= nth c (nth i Bs []) 0) ->
  forall (n : nat) i c, (i < N)%nat -> (c < C)%nat ->
    nth c (nth i (solve F rho E (Z.of_nat n)) []) 0 <= nth c (nth i Bs []) 0.
Proof.
  intros HF Hrho HE NF Nrho NBs Hsup.
  induction n as [|n IH]; intros i c Hi Hc.
  - rewrite (solve_entry_zero N C) by auto. apply nonneg_nth; auto.
  - rewrite (solve_entry_succ N C) by auto.
    eapply Rle_trans; [|apply Hsup; auto].
    apply Rplus_le_compat_l, Rmult_le_compat_l; [apply nonneg_nth; auto|].
    apply incoming_le; auto.
Qed.

End SolverEnergy.

Section SolverExtras.

Import Solver Energy.

(** X1. For arrays of matching shapes ([F] N by N, [rho] and [E] N by C)
    the array the solver returns has the shape of the emission array, for
    every iteration budget, positive or not; and after any positive number
    of passes a patch that reflects nothing (its row of [rho] is zero) or
    gathers nothing (its row of [F] is zero) holds exactly its own
    emission. *)
Theorem solver_passive_patch (N C : nat) (F rho E : matrix) (n : Z) :
  has_shape N N F -> has_shape N C rho -> has_shape N C E ->
  has_shape N C (solve F rho E n) /\
  forall i, (i < N)%nat -> (1 <= n)%Z ->
    zero_row (nth i rho []) \/ zero_row (nth i F []) ->
    nth i (solve F rho E n) [] = nth i E [].
Proof.
  intros HF Hrho HE.
  split; [apply solve_shape; auto|].
  intros i Hi Hn Hz.
  rewrite solve_to_nat.
  destruct (Z.to_nat n) as [|k] eqn:Hk; [lia|].
  assert (HS : has_shape N C (solve F rho E (Z.of_nat (S k)))) by (apply solve_shape; auto).
  apply (nth_ext _ _ 0 0).
  - rewrite (has_shape_nth N C _ i HS Hi), (has_shape_nth N C _ i HE Hi). reflexivity.
  - intros c Hc. rewrite (has_shape_nth N C _ i HS Hi) in Hc.
    rewrite (solve_entry_succ N C) by auto.
    destruct Hz as [Hz|Hz].
    + rewrite (zero_row_nth _ c Hz). lra.
    + unfold incoming_spec. rewrite Rsum_zero; [lra|].
      intros j _. rewrite (zero_row_nth _ j Hz). lra.
Qed.

Lemma solver_passive_patch_witness :
  has_shape 2 1 (solve [[0; 1/2]; [0; 0]] [[1/2]; [1/2]] [[1]; [3]] 5) /\
  nth 1 (solve [[0; 1/2]; [0; 0]] [[1/2]; [1/2]] [[1]; [3]] 5) [] = nth 1 [[1]; [3]] [] /\
  has_shape 2 1 (solve [[0; 1/2]; [0; 0]] [[1/2]; [1/2]] [[1]; [3]] (-2)).
Proof.
  assert (HF : has_shape 2 2 [[0; 1/2]; [0; 0]]) by (split; [reflexivity | repeat constructor]).
  assert (Hrho : has_shape 2 1 [[1/2]; [1/2]]) by (split; [reflexivity | repeat constructor]).
  assert (HE : has_shape 2 1 [[1]; [3]]) by (split; [reflexivity | repeat constructor]).
  split; [|split].
  - exact (proj1 (solver_passive_patch 2 1 _ _ _ 5 HF Hrho HE)).
  - apply (proj2 (solver_passive_patch 2 1 _ _ _ 5 HF Hrho HE) 1%nat); [lia | lia |].
    right. repeat constructor.
  - exact (proj1 (solver_passive_patch 2 1 _ _ _ (-2) HF Hrho HE)).
Defined.

(** X2. Superposition: the solver is linear in the emission.  With the
    same form factors and reflectances, the radiosity of the emission
    [a * E1 + b * E2] is [a] times that of [E1] plus [b] times that of
    [E2], for every iteration budget. *)
Theorem solver_superposition (N C : nat) (F rho E1 E2 : matrix) (a b : R) (n : Z) :
  has_shape N N F -> has_shape N C rho -> has_shape N C E1 -> has_shape N C E2 ->
  solve F rho (madd (mscale a E1) (mscale b E2)) n
  = madd (mscale a (solve F rho E1 n)) (mscale b (solve F rho E2 n)).
Proof.
  intros HF Hrho HE1 HE2.
  assert (Hscale : forall k X, has_shape N C X -> has_shape N C (mscale k X)).
  { intros k X [H1 H2]. split; [unfold mscale; rewrite length_map; auto|].
    unfold mscale. apply Forall_forall. intros r Hr.
    apply in_map_iff in Hr as (r0 & <- & Hr0). rewrite length_map.
    rewrite Forall_forall in H2. auto. }
  assert (Hadd : forall X Y, has_shape N C X -> has_shape N C Y -> has_shape N C (madd X Y)).
  { intros X Y [H1 H2] [H3 H4]. split; [unfold madd; rewrite map2_length; lia|].
    unfold madd. subst N. clear - H2 H3 H4. revert Y H3 H4.
    induction H2 as [|x X Hx H2 IH]; intros [|y Y] H3 H4; simpl in *; try constructor.
    - inversion H4; subst. rewrite map2_length. lia.
    - inversion H4; subst. apply IH; auto. }
  assert (Hent : forall X Y i c, has_shape N C X -> has_shape N C Y ->
             (i < N)%nat -> (c < C)%nat ->
             nth c (nth i (madd (mscale a X) (mscale b Y)) []) 0
             = a * nth c (nth i X []) 0 + b * nth c (nth i Y []) 0).
  { intros X Y i c HX HY Hi Hc. unfold madd.
    pose proof (Hscale a X HX) as HaX. pose proof (Hscale b Y HY) as HbY.
    rewrite (nth_map2 _ _ _ i [] [] []) by (destruct HaX, HbY; lia).
    rewrite (nth_map2 _ _ _ c 0 0 0)
      by (rewrite ?(has_shape_nth N C _ i HaX Hi), ?(has_shape_nth N C _ i HbY Hi); lia).
    unfold mscale.
    rewrite (nth_indep (map (map (Rmult a)) X) [] (map (Rmult a) [])) by (rewrite length_map; destruct HX; lia).
    rewrite (nth_indep (map (map (Rmult b)) Y) [] (map (Rmult b) [])) by (rewrite length_map; destruct HY; lia).
    rewrite !map_nth.
    rewrite (nth_indep (map (Rmult a) _) 0 (a * 0)) by (rewrite length_map, (has_shape_nth N C _ i HX Hi); lia).
    rewrite (nth_indep (map (Rmult b) _) 0 (b * 0)) by (rewrite length_map, (has_shape_nth N C _ i HY Hi); lia).
    rewrite !map_nth. reflexivity. }
  pose proof (Hadd _ _ (Hscale a _ HE1) (Hscale b _ HE2)) as HE.
  rewrite (solve_to_nat _ _ _ n), (solve_to_nat _ _ E1 n), (solve_to_nat _ _ E2 n).
  generalize (Z.to_nat n). clear n. intros n.
  apply (shape_ext N C).
  { apply solve_shape; auto. }
  { apply Hadd; apply Hscale; apply solve_shape; auto. }
  induction n as [|n IH]; intros i c Hi Hc.
  - rewrite Hent by (auto; apply solve_shape; auto).
    rewrite !(solve_entry_zero N C) by auto. lra.
  - rewrite Hent by (auto; apply solve_shape; auto).
    rewrite !(solve_entry_succ N C) by auto.
    rewrite Hent by auto.
    assert (Hin : incoming_spec N F (solve F rho (madd (mscale a E1) (mscale b E2)) (Z.of_nat n)) i c
                  = a * incoming_spec N F (solve F rho E1 (Z.of_nat n)) i c
                    + b * incoming_spec N F (solve F rho E2 (Z.of_nat n)) i c).
    { unfold incoming_spec.
      rewrite <- (Rmult_comm _ a), <- (Rmult_comm _ b), <- !Rsum_scale, <- Rsum_plus.
      f_equal. apply map_ext_in. intros j Hj. apply in_seq in Hj.
      rewrite IH by (auto; lia).
      rewrite Hent by (auto; try apply solve_shape; auto; lia). ring. }
    rewrite Hin. ring.
Qed.

Lemma solver_superposition_witness :
  solve [[0; 1/2]; [1/2; 0]] [[1/2]; [1/2]]
        (madd (mscale 2 [[1]; [0]]) (mscale 3 [[0]; [1]])) 4
  = madd (mscale 2 (solve [[0; 1/2]; [1/2; 0]] [[1/2]; [1/2]] [[1]; [0]] 4))
         (mscale 3 (solve [[0; 1/2]; [1/2; 0]] [[1/2]; [1/2]] [[0]; [1]] 4)).
Proof.
  apply (solver_superposition 2 1 [[0; 1/2]; [1/2; 0]] [[1/2]; [1/2]] [[1]; [0]] [[0]; [1]] 2 3 4);
    (split; [reflexivity | repeat constructor]).
Defined.

(** X3. A non-negative array that one pass of the loop body does not
    raise (a super-solution of [B = E + rho * (F @ B)]) bounds the solver's
    result from above, for every iteration budget. *)
Theorem solver_below_supersolution (N C : nat) (F rho E Bs : matrix) (n : Z) :
  has_shape N N F -> has_shape N C rho -> has_shape N C E -> has_shape N C Bs ->
  nonneg F -> nonneg rho -> nonneg Bs ->
  mle (bounce (csr_matrix F) rho E Bs) Bs ->
  mle (solve F rho E n) Bs.
Proof.
  intros HF Hrho HE HBs NF Nrho NBs Hsup.
  rewrite (bounce_spec N C) in Hsup by auto.
  rewrite solve_to_nat.
  apply (shape_mle N C); [apply solve_shape; auto | auto |].
  intros i c Hi Hc. apply (iterate_le_super N C); auto.
  clear i c Hi Hc. intros i c Hi Hc.
  rewrite <- (update_entry N C F rho E Bs i c Hi Hc).
  apply (mle_nth N C); auto. apply has_shape_update.
Qed.

Lemma solver_below_supersolution_witness :
  mle (solve [[0; 1/2]; [1/2; 0]] [[1/2]; [1/2]] [[1]; [0]] 7) [[2]; [1]].
Proof.
  apply (solver_below_supersolution 2 1 [[0; 1/2]; [1/2; 0]] [[1/2]; [1/2]] [[1]; [0]] [[2]; [1]] 7);
    try (split; [reflexivity | repeat constructor]);
    try (repeat constructor; lra).
  rewrite csr_matrix_two_patches. unfold bounce, matmul, csr_row_dot, madd, mmul, vadd, vscale, ncols.
  simpl. repeat constructor; lra.
Defined.

(** X4. Energy bound.  If every row of [F] is non-negative and sums to at
    most 1, every reflectance lies in [[0, q]] with [q < 1], and every
    emission is at most [e], then no entry of the solver's result exceeds
    [e / (1 - q)], whatever the iteration budget. *)
Theorem solver_energy_bound (N C : nat) (F rho E : matrix) (q e : R) (n : Z) :
  has_shape N N F -> has_shape N C rho -> has_shape N C E ->
  nonneg F -> row_sums_le_1 F ->
  nonneg rho -> all_le q rho -> q < 1 ->
  0 <= e -> all_le e E ->
  all_le (e / (1 - q)) (solve F rho E n).
Proof.
  intros HF Hrho HE NF HS Nrho Hq Hq1 He HEe.
  set (M := e / (1 - q)).
  assert (HM : 0 <= M).
  { unfold M, Rdiv. apply Rmult_le_pos; auto. left. apply Rinv_0_lt_compat. lra. }
  assert (HMeq : e + q * M = M) by (unfold M; field; lra).
  set (Bs := repeat (repeat M C) N).
  assert (HBs : forall i c, (i < N)%nat -> (c < C)%nat -> nth c (nth i Bs []) 0 = M).
  { intros i c Hi Hc. unfold Bs.
    rewrite (nth_indep _ [] (repeat M C)) by (rewrite repeat_length; auto).
    rewrite nth_repeat. rewrite (nth_indep _ 0 M) by (rewrite repeat_length; auto).
    apply nth_repeat. }
  assert (NBs : nonneg Bs).
  { unfold Bs, nonneg. apply Forall_forall. intros r Hr. apply repeat_spec in Hr. subst r.
    apply Forall_forall. intros x Hx. apply repeat_spec in Hx. subst x. auto. }
  pose proof (solve_shape N C F rho E n HF Hrho HE) as Hshape.
  unfold all_le. apply Forall_forall. intros r Hr.
  apply (In_nth _ _ []) in Hr as (i & Hi & <-).
  apply Forall_forall. intros x Hx.
  apply (In_nth _ _ 0) in Hx as (c & Hc & <-).
  destruct Hshape as [HN HC]. rewrite HN in Hi.
  assert (HCc : (c < C)%nat).
  { rewrite Forall_forall in HC. rewrite <- (HC (nth i (solve F rho E n) [])); auto.
    apply nth_In. lia. }
  rewrite solve_to_nat. rewrite <- (HBs i c Hi HCc).
  apply (iterate_le_super N C); auto.
  clear i c Hi Hc HCc. intros i c Hi Hc.
  rewrite HBs by auto.
  assert (Hinc : incoming_spec N F Bs i c <= M).
  { unfold incoming_spec.
    rewrite (map_ext_in _ (fun j => nth j (nth i F []) 0 * M)).
    2:{ intros j Hj. apply in_seq in Hj. rewrite HBs by (auto; lia). reflexivity. }
    rewrite Rsum_scale.
    assert (Hrow : Rsum (map (fun j => nth j (nth i F []) 0) (seq 0 N)) <= 1).
    { rewrite <- (has_shape_nth N N F i HF Hi). rewrite <- Rsum_nth.
      unfold row_sums_le_1 in HS. rewrite Forall_forall in HS. apply HS, nth_In.
      destruct HF; lia. }
    nra. }
  assert (Hinc0 : 0 <= incoming_spec N F Bs i c).
  { unfold incoming_spec. apply Rsum_nonneg. apply Forall_forall. intros x Hx.
    apply in_map_iff in Hx as (j & <- & _).
    apply Rmult_le_pos; apply nonneg_nth; auto. }
  assert (Hr0 : 0 <= nth c (nth i rho []) 0) by (apply nonneg_nth; auto).
  assert (Hrq : nth c (nth i rho []) 0 <= q).
  { apply all_le_nth; auto; [destruct Hrho; lia|].
    rewrite (has_shape_nth N C rho i Hrho Hi). auto. }
  assert (HEic : nth c (nth i E []) 0 <= e).
  { apply all_le_nth; auto; [destruct HE; lia|].
    rewrite (has_shape_nth N C E i HE Hi). auto. }
  apply Rle_trans with (e + q * M); [|lra].
  apply Rplus_le_compat; auto.
  apply Rle_trans with (q * incoming_spec N F Bs i c).
  - apply Rmult_le_compat_r; auto.
  - apply Rmult_le_compat_l; auto. lra.
Qed.

Lemma solver_energy_bound_witness :
  all_le (1 / (1 - 1/2)) (solve [[0; 1/2]; [1/2; 0]] [[1/2]; [1/2]] [[1]; [0]] 9).
Proof.
  apply (solver_energy_bound 2 1 [[0; 1/2]; [1/2; 0]] [[1/2]; [1/2]] [[1]; [0]] (1/2) 1 9);
    try (split; [reflexivity | repeat constructor]);
    try (repeat constructor; simpl; lra); lra.
Defined.

(** X5. The passes settle geometrically.  Under the conditions of the
    energy bound (here [q] need not be below 1), the entries of the result
    for the budget [n + 1] exceed those for the budget [n] by at most
    [e * q^n]: what the [n + 1]-st pass adds. *)
Theorem solver_steps_shrink (N C : nat) (F rho E : matrix) (q e : R) (n i c : nat) :
  has_shape N N F -> has_shape N C rho -> has_shape N C E ->
  nonneg F -> row_sums_le_1 F ->
  nonneg rho -> all_le q rho -> 0 <= q ->
  nonneg E -> all_le e E -> 0 <= e ->
  (i < N)%nat -> (c < C)%nat ->
  0 <= nth c (nth i (solve F rho E (Z.of_nat (S n))) []) 0
       - nth c (nth i (solve F rho E (Z.of_nat n)) []) 0
  <= e * q ^ n.
Proof.
  intros HF Hrho HE NF HS Nrho Hq Hq0 NE HEe He Hi Hc. split.
  { rewrite !(solve_iterate N C) by auto.
    pose proof (iterate_entries_grow N C F rho E NF Nrho NE n i c Hi Hc). lra. }
  revert i c Hi Hc. induction n as [|n IH]; intros i c Hi Hc.
  - rewrite (solve_entry_succ N C), (solve_entry_zero N C) by auto.
    assert (Hin : incoming_spec N F (solve F rho E (Z.of_nat 0)) i c = 0).
    { unfold incoming_spec. apply Rsum_zero. intros j _.
      rewrite (solve_entry_zero N C) by auto. lra. }
    rewrite Hin. simpl.
    assert (HEic : nth c (nth i E []) 0 <= e).
    { apply all_le_nth; auto; [destruct HE; lia|].
      rewrite (has_shape_nth N C E i HE Hi). auto. }
    lra.
  - rewrite (solve_entry_succ N C F rho E (S n)), (solve_entry_succ N C F rho E n) by auto.
    set (d := e * q ^ n) in *.
    assert (Hd : 0 <= d) by (apply Rmult_le_pos; [auto | apply pow_le; auto]).
    assert (Hrow : Rsum (map (fun j => nth j (nth i F []) 0) (seq 0 N)) <= 1).
    { rewrite <- (has_shape_nth N N F i HF Hi) at 1. rewrite <- Rsum_nth.
      unfold row_sums_le_1 in HS. rewrite Forall_forall in HS. apply HS, nth_In.
      destruct HF; lia. }
    assert (Hrow0 : 0 <= Rsum (map (fun j => nth j (nth i F []) 0) (seq 0 N))).
    { apply Rsum_nonneg, Forall_forall. intros x Hx.
      apply in_map_iff in Hx as (j & <- & _). apply nonneg_nth; auto. }
    assert (Hinc : incoming_spec N F (solve F rho E (Z.of_nat (S n))) i c
                   <= incoming_spec N F (solve F rho E (Z.of_nat n)) i c + d).
    { unfold incoming_spec.
      apply Rle_trans with
        (Rsum (map (fun j => nth j (nth i F []) 0 * nth c (nth j (solve F rho E (Z.of_nat n)) []) 0
                             + nth j (nth i F []) 0 * d) (seq 0 N))).
      - apply Rsum_le. intros j Hj. apply in_seq in Hj.
        specialize (IH j c ltac:(lia) Hc).
        pose proof (nonneg_nth F i j NF). nra.
      - rewrite Rsum_plus, Rsum_scale. nra. }
    assert (Hr0 : 0 <= nth c (nth i rho []) 0) by (apply nonneg_nth; auto).
    assert (Hrq : nth c (nth i rho []) 0 <= q).
    { apply all_le_nth; auto; [destruct Hrho; lia|].
      rewrite (has_shape_nth N C rho i Hrho Hi). auto. }
    assert (Hmono : incoming_spec N F (solve F rho E (Z.of_nat n)) i c
                    <= incoming_spec N F (solve F rho E (Z.of_nat (S n))) i c).
    { apply incoming_le; auto. intros j Hj.
      rewrite !(solve_iterate N C) by auto.
      apply (iterate_entries_grow N C F rho E NF Nrho NE n j c Hj Hc). }
    cbn [pow]. fold d in IH |- *.
    replace (e * (q * q ^ n)) with (q * d) by (unfold d; ring).
    set (I1 := incoming_spec N F (solve F rho E (Z.of_nat (S n))) i c) in *.
    set (I0 := incoming_spec N F (solve F rho E (Z.of_nat n)) i c) in *.
    set (r := nth c (nth i rho []) 0) in *.
    replace (nth c (nth i E []) 0 + r * I1 - (nth c (nth i E []) 0 + r * I0))
      with (r * (I1 - I0)) by ring.
    apply Rle_trans with (q * (I1 - I0)).
    + apply Rmult_le_compat_r; lra.
    + apply Rmult_le_compat_l; lra.
Qed.

Lemma solver_steps_shrink_witness :
  0 <= nth 0 (nth 1 (solve [[0; 1/2]; [1/2; 0]] [[1/2]; [1/2]] [[1]; [0]] (Z.of_nat (S 3))) []) 0
       - nth 0 (nth 1 (solve [[0; 1/2]; [1/2; 0]] [[1/2]; [1/2]] [[1]; [0]] (Z.of_nat 3)) []) 0
  <= 1 * (1/2) ^ 3.
Proof.
  apply (solver_steps_shrink 2 1 [[0; 1/2]; [1/2; 0]] [[1/2]; [1/2]] [[1]; [0]] (1/2) 1 3 1 0);
    try (split; [reflexivity | repeat constructor]);
    try (repeat constructor; simpl; lra); try lra; lia.
Defined.

End SolverExtras.

(* ================================================================= *)
(** * Further properties of the form-factor engine *)

Lemma assign_length (idx : list nat) (vals : list R) :
  forall row : list R, length (assign row idx vals) = length row.
Proof.
  unfold assign. generalize (combine idx vals). intros l.
  induction l as [|[k x] l IH]; intros row; simpl; auto.
  rewrite IH. apply set_nth_length.
Qed.

Section FormFactorShape.
Import FormFactor.
Variable intersects_location : list V3 -> list V3 -> list (V3 * nat).
Variables (hit_dist64 : V3 -> V3 -> R) (reach64 : R -> R -> R).
Variables (centroids normals : list V3) (areas : list R) (epsilon : R).

Local Abbreviation N := (FormFactor.N centroids).
Local Abbreviation r := (FormFactor.r centroids).
Local Abbreviation d := (FormFactor.d centroids).
Local Abbreviation cos_i := (FormFactor.cos_i centroids normals).
Local Abbreviation cos_j := (FormFactor.cos_j centroids normals).
Local Abbreviation facing := (FormFactor.facing centroids normals epsilon).
Local Abbreviation targets := (FormFactor.targets centroids normals epsilon).
Local Abbreviation visible :=
  (FormFactor.visible intersects_location hit_dist64 reach64 centroids normals epsilon).
Local Abbreviation point_to_patch := (FormFactor.point_to_patch centroids normals areas).
Local Abbreviation form_factor_row :=
  (FormFactor.form_factor_row intersects_location hit_dist64 reach64 centroids normals areas epsilon).
Local Abbreviation form_factors :=
  (FormFactor.form_factors intersects_location hit_dist64 reach64 centroids normals areas epsilon).

Lemma form_factor_row_length (i : nat) : length (form_factor_row i) = N.
Proof.
  rewrite form_factor_row_eq, assign_length. apply repeat_length.
Qed.

Lemma form_factors_shape : Solver.has_shape N N form_factors.
Proof.
  unfold FormFactor.form_factors. split.
  - rewrite length_map, length_seq. reflexivity.
  - apply Forall_forall. intros row Hrow.
    apply in_map_iff in Hrow as (i & <- & _). apply form_factor_row_length.
Qed.

Lemma form_factors_row (i : nat) : (i < N)%nat -> nth i form_factors [] = form_factor_row i.
Proof.
  intros Hi. unfold FormFactor.form_factors. apply nth_map_seq. exact Hi.
Qed.

Lemma form_factors_entries (P : R -> Prop) :
  (forall i j, (i < N)%nat -> (j < N)%nat -> P (nth j (nth i form_factors []) 0)) ->
  Forall (Forall P) form_factors.
Proof.
  intros H. apply Forall_forall. intros row Hrow.
  apply (In_nth _ _ []) in Hrow as (i & Hi & <-).
  destruct form_factors_shape as [HN HC]. rewrite HN in Hi.
  apply Forall_forall. intros x Hx.
  apply (In_nth _ _ 0) in Hx as (j & Hj & <-).
  apply H; auto.
  rewrite form_factors_row, form_factor_row_length in Hj; auto.
Qed.

Lemma form_factors_entry_bounds (i j : nat) :
  (i < N)%nat -> 0 <= nth j (nth i form_factors []) 0 <= 1.
Proof.
  intros Hi. rewrite form_factors_entry by auto.
  destruct (existsb _ _); [apply clip_bounds | lra].
Qed.

(** The cosine at patch [i] has the sign of the unnormalised
    [(centroid(j) - centroid(i)) . normal(i)]. *)
Lemma cos_i_behind (i j : nat) :
  dot (v3sub (nth j centroids v3zero) (nth i centroids v3zero)) (nth i normals v3zero) <= 0 ->
  cos_i i j <= 0.
Proof.
  intros H. unfold FormFactor.cos_i, FormFactor.d. rewrite dot_v3div_l.
  fold (r i j).
  destruct (Req_dec_T (r i j) 0) as [H0|Hn].
  - rewrite H0. unfold Rdiv. rewrite Rinv_0. lra.
  - assert (Hr : 0 < r i j).
    { pose proof (norm_nonneg (v3sub (nth j centroids v3zero) (nth i centroids v3zero))).
      unfold FormFactor.r in *. lra. }
    unfold Rdiv. pose proof (Rinv_0_lt_compat _ Hr). nra.
Qed.

Lemma not_facing_entries (i j : nat) :
  (i < N)%nat -> (j < N)%nat -> facing i j = false ->
  nth j (nth i form_factors []) 0 = 0 /\ nth i (nth j form_factors []) 0 = 0.
Proof.
  intros Hi Hj Hf. split; apply form_factors_entry_zero; auto;
    rewrite visible_spec, targets_spec; intros [(_ & _ & H) _].
  - congruence.
  - rewrite facing_sym in H. congruence.
Qed.

(** X6. What the engine hands to the solver.  Whatever the scene and
    whatever the ray intersector answers, [F] is an [N] by [N] array with
    every entry in [[0, 1]]; and the solver run on it with non-negative
    reflectances and emissions of [C] channels returns a non-negative [N] by
    [C] array, for every iteration budget. *)
Theorem engine_feeds_solver :
  Solver.has_shape N N form_factors /\
  Solver.nonneg form_factors /\
  Energy.all_le 1 form_factors /\
  forall (C : nat) (rho E : matrix) (n : Z),
    Solver.has_shape N C rho -> Solver.has_shape N C E ->
    Solver.nonneg rho -> Solver.nonneg E ->
    Solver.has_shape N C (Solver.solve form_factors rho E n) /\
    Solver.nonneg (Solver.solve form_factors rho E n).
Proof.
  assert (Hnn : Solver.nonneg form_factors).
  { apply form_factors_entries. intros i j Hi _. apply form_factors_entry_bounds; auto. }
  split; [apply form_factors_shape|].
  split; [exact Hnn|].
  split.
  { apply form_factors_entries. intros i j Hi _. apply form_factors_entry_bounds; auto. }
  intros C rho E n Hrho HE Nrho NE. split.
  - apply solve_shape; auto. apply form_factors_shape.
  - unfold Solver.solve.
    apply (radiosity_per_bounce_nonneg (Z.to_nat n) _ rho E); auto.
    + apply csr_matrix_nonneg; auto.
    + apply zeros_like_nonneg.
Qed.

(** X7. Back faces are dark in both directions.  With [epsilon >= 0], if
    the centroid of patch [j] lies in or behind the plane of patch [i]
    ([(centroid(j) - centroid(i)) . normal(i) <= 0], which includes two
    patches with one centroid), then [F[i][j]] and [F[j][i]] are both
    zero, whatever the ray intersector answers. *)
Theorem back_face_exchanges_nothing (i j : nat) :
  (i < N)%nat -> (j < N)%nat -> 0 <= epsilon ->
  dot (v3sub (nth j centroids v3zero) (nth i centroids v3zero)) (nth i normals v3zero) <= 0 ->
  nth j (nth i form_factors []) 0 = 0 /\ nth i (nth j form_factors []) 0 = 0.
Proof.
  intros Hi Hj He Hb. apply not_facing_entries; auto.
  pose proof (cos_i_behind i j Hb) as Hc.
  unfold FormFactor.facing.
  assert (Hlt : Rltb epsilon (cos_i i j) = false) by (apply Rltb_false; lra).
  rewrite Hlt. reflexivity.
Qed.

(** X8. Inverse-square bound.  With [epsilon >= 0], normals of length at
    most 1 and a non-negative area of patch [j], [F[i][j] * pi * r^2] never
    exceeds [area(j)]: the entry is at most [area(j) / (pi * r^2)] (stated
    multiplied out, so that it reads for coincident centroids too). *)
Theorem form_factor_inverse_square (i j : nat) :
  (i < N)%nat -> (j < N)%nat -> 0 <= epsilon -> 0 <= nth j areas 0 ->
  norm (nth i normals v3zero) <= 1 -> norm (nth j normals v3zero) <= 1 ->
  nth j (nth i form_factors []) 0 * (PI * r i j ^ 2) <= nth j areas 0.
Proof.
  intros Hi Hj He HA Hni Hnj.
  destruct (facing i j) eqn:Hf.
  - pose proof (facing_r_pos _ _ _ i j He Hf) as Hr.
    apply facing_spec in Hf as [Hci Hcj].
    pose proof (cos_i_le_1 centroids normals i j Hni) as H1.
    pose proof (cos_j_le_1 centroids normals i j Hnj) as H2.
    pose proof PI_RGT_0 as Hpi.
    assert (Hden : 0 < PI * r i j ^ 2) by (apply Rmult_lt_0_compat; [lra | nra]).
    assert (Hcc : 0 <= cos_i i j * cos_j i j <= 1) by nra.
    assert (Hp : point_to_patch i j
                 = cos_i i j * cos_j i j * nth j areas 0 / (PI * r i j ^ 2)) by reflexivity.
    assert (Hp0 : 0 <= point_to_patch i j).
    { rewrite Hp. apply Rmult_le_pos; [nra | left; apply Rinv_0_lt_compat; auto]. }
    pose proof (entry_le_term intersects_location hit_dist64 reach64 centroids normals areas
                              epsilon i j Hi Hp0) as [_ Hle].
    apply Rle_trans with (point_to_patch i j * (PI * r i j ^ 2)).
    + apply Rmult_le_compat_r; lra.
    + rewrite Hp.
      replace (cos_i i j * cos_j i j * nth j areas 0 / (PI * r i j ^ 2) * (PI * r i j ^ 2))
        with (cos_i i j * cos_j i j * nth j areas 0) by (field; lra).
      destruct Hcc as [Hc0 Hc1]. generalize dependent (cos_i i j * cos_j i j).
      intros; nra.
  - destruct (not_facing_entries i j Hi Hj Hf) as [-> _]. lra.
Qed.

End FormFactorShape.

Section FormFactorExtrasWitnesses.

Import FormFactor.

Lemma back_face_exchanges_nothing_witness :
  nth 1 (nth 0 (form_factors no_hits exact_hit_dist exact_reach two_centroids [mkV3 0 0 (-1); mkV3 0 0 (-1)] two_areas 1e-5) []) 0 = 0 /\
  nth 0 (nth 1 (form_factors no_hits exact_hit_dist exact_reach two_centroids [mkV3 0 0 (-1); mkV3 0 0 (-1)] two_areas 1e-5) []) 0 = 0.
Proof.
  apply (back_face_exchanges_nothing no_hits exact_hit_dist exact_reach two_centroids [mkV3 0 0 (-1); mkV3 0 0 (-1)]
           two_areas 1e-5 0 1).
  - unfold N, two_centroids; simpl; lia.
  - unfold N, two_centroids; simpl; lia.
  - lra.
  - unfold two_centroids, dot, v3sub; simpl. lra.
Defined.

Lemma form_factor_inverse_square_witness :
  nth 1 (nth 0 (form_factors no_hits exact_hit_dist exact_reach two_centroids two_normals two_areas 1e-5) []) 0
  * (PI * r two_centroids 0 1 ^ 2) <= nth 1 two_areas 0.
Proof.
  apply (form_factor_inverse_square no_hits exact_hit_dist exact_reach two_centroids two_normals two_areas 1e-5 0 1).
  - unfold N, two_centroids; simpl; lia.
  - unfold N, two_centroids; simpl; lia.
  - lra.
  - unfold two_areas; simpl; lra.
  - change (norm (mkV3 0 0 1) <= 1). rewrite norm_unit_z; lra.
  - change (norm (mkV3 0 0 (-1)) <= 1). rewrite norm_unit_z; lra.
Defined.

End FormFactorExtrasWitnesses.

(* ================================================================= *)
(** * The occlusion test at its boundary *)

Section Binary64Run.

Import FormFactor.

Lemma powerRZ_2_neg (k : positive) : powerRZ 2 (Zneg k) = / IZR (2 ^ Zpos k).
Proof.
  unfold powerRZ. rewrite pow_IZR, positive_nat_Z. reflexivity.
Qed.

(** What binary64 computes on the scene. *)
Lemma binary64_blocked :
  Binary64.blocked Binary64.scene_epsilon Binary64.lower Binary64.upper Binary64.upper = true /\
  Binary64.blocked Binary64.scene_epsilon Binary64.upper Binary64.lower Binary64.lower = true /\
  Binary64.hit_dist Binary64.scene_epsilon Binary64.upper Binary64.lower Binary64.lower
  = Binary64.hit_dist Binary64.scene_epsilon Binary64.lower Binary64.upper Binary64.upper /\
  Binary64.reach Binary64.scene_epsilon Binary64.upper Binary64.lower
  = Binary64.reach Binary64.scene_epsilon Binary64.lower Binary64.upper.
Proof.
  repeat split; vm_compute; reflexivity.
Qed.

Lemma scene_epsilon_value :
  Binary64.epsilon = 5902958103587057 / 590295810358705651712.
Proof.
  unfold Binary64.epsilon, Binary64.B2R.
  replace (FloatOps.Prim2SF Binary64.scene_epsilon)
    with (SpecFloat.S754_finite false 5902958103587057 (-69)) by (vm_compute; reflexivity).
  unfold Binary64.SF2R. rewrite powerRZ_2_neg.
  replace (2 ^ 69)%Z with 590295810358705651712%Z by reflexivity.
  unfold Rdiv. ring.
Qed.

Lemma hit_dist64_value (h o : V3) :
  Binary64.hit_dist64 h o = 9007109182748444 / 9007199254740992.
Proof.
  unfold Binary64.hit_dist64, Binary64.B2R.
  replace (FloatOps.Prim2SF
             (Binary64.hit_dist Binary64.scene_epsilon Binary64.lower Binary64.upper
                                Binary64.upper))
    with (SpecFloat.S754_finite false 9007109182748444 (-53)) by (vm_compute; reflexivity).
  unfold Binary64.SF2R. rewrite powerRZ_2_neg.
  replace (2 ^ 53)%Z with 9007199254740992%Z by reflexivity.
  unfold Rdiv. ring.
Qed.

Lemma reach64_value (e eps : R) :
  Binary64.reach64 e eps = 9007109182748445 / 9007199254740992.
Proof.
  unfold Binary64.reach64, Binary64.B2R.
  replace (FloatOps.Prim2SF
             (Binary64.reach Binary64.scene_epsilon Binary64.lower Binary64.upper))
    with (SpecFloat.S754_finite false 9007109182748445 (-53)) by (vm_compute; reflexivity).
  unfold Binary64.SF2R. rewrite powerRZ_2_neg.
  replace (2 ^ 53)%Z with 9007199254740992%Z by reflexivity.
  unfold Rdiv. ring.
Qed.

Lemma scene_epsilon_bounds : 0 < Binary64.epsilon < 1 / 2.
Proof.
  rewrite scene_epsilon_value. lra.
Qed.

Lemma scene_r (i j : nat) : i <> j -> (i < 2)%nat -> (j < 2)%nat -> r Binary64.centroids i j = 1.
Proof.
  intros Hne Hi Hj. unfold r, Binary64.centroids.
  destruct i as [|[|i]], j as [|[|j]]; try lia; simpl.
  - replace (v3sub _ _) with (mkV3 0 0 1) by (apply v3_ext; unfold v3sub; simpl; lra).
    apply norm_unit_z. lra.
  - replace (v3sub _ _) with (mkV3 0 0 (-1)) by (apply v3_ext; unfold v3sub; simpl; lra).
    apply norm_unit_z. lra.
Qed.

Lemma scene_d_up : d Binary64.centroids 0 1 = mkV3 0 0 1.
Proof.
  unfold d. rewrite (scene_r 0 1) by lia.
  apply v3_ext; unfold Binary64.centroids, v3div, v3sub; simpl; field.
Qed.

Lemma scene_d_down : d Binary64.centroids 1 0 = mkV3 0 0 (-1).
Proof.
  unfold d. rewrite (scene_r 1 0) by lia.
  apply v3_ext; unfold Binary64.centroids, v3div, v3sub; simpl; field.
Qed.

Lemma scene_facing (i j : nat) :
  i <> j -> (i < 2)%nat -> (j < 2)%nat ->
  facing Binary64.centroids Binary64.normals Binary64.epsilon i j = true.
Proof.
  intros Hne Hi Hj. pose proof scene_epsilon_bounds as He.
  apply facing_spec. unfold cos_i, cos_j.
  destruct i as [|[|i]], j as [|[|j]]; try lia.
  - rewrite scene_d_up. unfold Binary64.normals, dot; simpl. lra.
  - rewrite scene_d_down. unfold Binary64.normals, dot; simpl. lra.
Qed.

Lemma scene_targets_up :
  targets Binary64.centroids Binary64.normals Binary64.epsilon 0 = [1%nat].
Proof.
  unfold targets.
  change (remove Nat.eq_dec 0%nat (seq 0 (N Binary64.centroids))) with [1%nat].
  cbn [filter]. rewrite (scene_facing 0 1) by lia. reflexivity.
Qed.

Lemma scene_targets_down :
  targets Binary64.centroids Binary64.normals Binary64.epsilon 1 = [0%nat].
Proof.
  unfold targets.
  change (remove Nat.eq_dec 1%nat (seq 0 (N Binary64.centroids))) with [0%nat].
  cbn [filter]. rewrite (scene_facing 1 0) by lia. reflexivity.
Qed.

Lemma scene_hits_up :
  row_hits Binary64.hits_target Binary64.centroids Binary64.normals Binary64.epsilon 0
  = [(mkV3 0 0 2, 0%nat)].
Proof.
  pose proof scene_epsilon_bounds as He.
  unfold row_hits. rewrite scene_targets_up. cbn [map]. unfold Binary64.hits_target.
  unfold ray_origin. rewrite scene_d_up. unfold Binary64.centroids; simpl.
  destruct (Rlt_dec _ _) as [_|Hn]; [reflexivity | exfalso; apply Hn; lra].
Qed.

Lemma scene_hits_down :
  row_hits Binary64.hits_target Binary64.centroids Binary64.normals Binary64.epsilon 1
  = [(mkV3 0 0 1, 0%nat)].
Proof.
  pose proof scene_epsilon_bounds as He.
  unfold row_hits. rewrite scene_targets_down. cbn [map]. unfold Binary64.hits_target.
  unfold ray_origin. rewrite scene_d_down. unfold Binary64.centroids; simpl.
  destruct (Rlt_dec _ _) as [Hl|_]; [exfalso; lra | reflexivity].
Qed.

Lemma scene_occluded (i j : nat) :
  i <> j -> (i < 2)%nat -> (j < 2)%nat ->
  occluded Binary64.hits_target Binary64.hit_dist64 Binary64.reach64
           Binary64.centroids Binary64.normals Binary64.epsilon i j.
Proof.
  intros Hne Hi Hj.
  assert (Hlt : forall h o e eps, Binary64.hit_dist64 h o < Binary64.reach64 e eps).
  { intros. rewrite hit_dist64_value, reach64_value. lra. }
  destruct i as [|[|i]], j as [|[|j]]; try lia.
  - exists 0%nat, (mkV3 0 0 2). rewrite scene_targets_up, scene_hits_up.
    split; [reflexivity|]. split; [left; reflexivity | apply Hlt].
  - exists 0%nat, (mkV3 0 0 1). rewrite scene_targets_down, scene_hits_down.
    split; [reflexivity|]. split; [left; reflexivity | apply Hlt].
Qed.

(** The hit on the target is [r - epsilon] from the ray's origin: nothing
    is hit before it. *)
Lemma scene_nothing_closer (i j : nat) :
  i <> j -> (i < 2)%nat -> (j < 2)%nat ->
  ~ hit_closer Binary64.hits_target Binary64.centroids Binary64.normals Binary64.epsilon i j
      (r Binary64.centroids i j - Binary64.epsilon).
Proof.
  intros Hne Hi Hj (k & loc & Hk & Hin & Hlt). pose proof scene_epsilon_bounds as He.
  rewrite scene_r in Hlt by auto.
  destruct i as [|[|i]], j as [|[|j]]; try lia.
  - rewrite scene_hits_up in Hin. destruct Hin as [Heq|[]]. inversion Heq; subst.
    unfold ray_origin in Hlt. rewrite scene_d_up in Hlt.
    replace (v3sub _ _) with (mkV3 0 0 (1 - Binary64.epsilon)) in Hlt
      by (apply v3_ext; unfold Binary64.centroids, v3sub, v3add, v3scale; simpl; lra).
    rewrite norm_along_z, Rabs_pos_eq in Hlt; lra.
  - rewrite scene_hits_down in Hin. destruct Hin as [Heq|[]]. inversion Heq; subst.
    unfold ray_origin in Hlt. rewrite scene_d_down in Hlt.
    replace (v3sub _ _) with (mkV3 0 0 (- (1 - Binary64.epsilon))) in Hlt
      by (apply v3_ext; unfold Binary64.centroids, v3sub, v3add, v3scale; simpl; lra).
    rewrite norm_along_z, Rabs_Ropp, Rabs_pos_eq in Hlt; lra.
Qed.

Lemma scene_term (i j : nat) :
  i <> j -> (i < 2)%nat -> (j < 2)%nat ->
  clip (point_to_patch Binary64.centroids Binary64.normals Binary64.areas i j) 0 1 = 1.
Proof.
  intros Hne Hi Hj. unfold point_to_patch, cos_i, cos_j. rewrite scene_r by auto.
  pose proof PI_RGT_0 as Hp0. pose proof PI_4 as Hp4.
  assert (Hclip : clip (9 / 2 / PI) 0 1 = 1).
  { assert (1 <= 9 / 2 / PI).
    { unfold Rdiv. apply Rmult_le_reg_r with PI; [lra|].
      replace (9 * / 2 * / PI * PI) with (9 / 2) by (field; lra). lra. }
    unfold clip, Rmin, Rmax.
    destruct (Rle_dec (9 / 2 / PI) 0); [lra|]. destruct (Rle_dec _ 1); lra. }
  destruct i as [|[|i]], j as [|[|j]]; try lia.
  - rewrite scene_d_up. unfold Binary64.normals, Binary64.areas, dot; simpl.
    match goal with |- clip ?x 0 1 = 1 => replace x with (9 / 2 / PI) by (field; lra) end.
    exact Hclip.
  - rewrite scene_d_down. unfold Binary64.normals, Binary64.areas, dot; simpl.
    match goal with |- clip ?x 0 1 = 1 => replace x with (9 / 2 / PI) by (field; lra) end.
    exact Hclip.
Qed.

(** C1.  Two facing patches with nothing between them: the claim gives
    [F[0][1] = F[1][0] = clip(4.5 / pi, 0, 1) = 1].  The ray from either
    patch is reported to reach the other at its centroid, [r - epsilon] from
    the ray's origin and no closer; but the two numbers the cell computes for
    the test in binary64 are [0x1.fffeb074a771cp-1] for the hit distance and
    [0x1.fffeb074a771dp-1] for [expected_dist - epsilon], one unit in the
    last place apart (the same two numbers for the ray up and for the ray
    down), so the test finds both rays blocked and both entries of [F] are
    zero. *)
Theorem rounding_blocks_visible_pair :
  let F := form_factors Binary64.hits_target Binary64.hit_dist64 Binary64.reach64
                        Binary64.centroids Binary64.normals Binary64.areas Binary64.epsilon in
  Binary64.blocked Binary64.scene_epsilon Binary64.lower Binary64.upper Binary64.upper = true /\
  Binary64.blocked Binary64.scene_epsilon Binary64.upper Binary64.lower Binary64.lower = true /\
  Binary64.hit_dist Binary64.scene_epsilon Binary64.upper Binary64.lower Binary64.lower
  = Binary64.hit_dist Binary64.scene_epsilon Binary64.lower Binary64.upper Binary64.upper /\
  Binary64.reach Binary64.scene_epsilon Binary64.upper Binary64.lower
  = Binary64.reach Binary64.scene_epsilon Binary64.lower Binary64.upper /\
  Binary64.hit_dist64 (mkV3 0 0 2) (ray_origin Binary64.centroids Binary64.epsilon 0 1)
  = 9007109182748444 / 9007199254740992 /\
  Binary64.reach64 (r Binary64.centroids 0 1) Binary64.epsilon
  = 9007109182748445 / 9007199254740992 /\
  F = [[0; 0]; [0; 0]] /\
  forall i j, i <> j -> (i < 2)%nat -> (j < 2)%nat ->
    facing Binary64.centroids Binary64.normals Binary64.epsilon i j = true /\
    ~ hit_closer Binary64.hits_target Binary64.centroids Binary64.normals Binary64.epsilon i j
        (r Binary64.centroids i j - Binary64.epsilon) /\
    clip (point_to_patch Binary64.centroids Binary64.normals Binary64.areas i j) 0 1 = 1.
Proof.
  intros F. destruct binary64_blocked as (B1 & B2 & B3 & B4).
  split; [exact B1|]. split; [exact B2|]. split; [exact B3|]. split; [exact B4|].
  split; [apply hit_dist64_value|]. split; [apply reach64_value|]. split.
  - assert (Hshape : Solver.has_shape 2 2 F).
    { apply (form_factors_shape Binary64.hits_target Binary64.hit_dist64 Binary64.reach64
               Binary64.centroids Binary64.normals Binary64.areas Binary64.epsilon). }
    apply (shape_ext 2 2); auto.
    { split; [reflexivity | repeat constructor]. }
    intros i j Hi Hj.
    assert (Hz : nth j (nth i F []) 0 = 0).
    { apply form_factors_entry_zero; [exact Hi|].
      rewrite visible_spec, targets_spec. intros [(_ & Hne & _) Hocc].
      apply Hocc. apply scene_occluded; auto. }
    rewrite Hz. destruct i as [|[|i]], j as [|[|j]]; try lia; reflexivity.
  - intros i j Hne Hi Hj. split; [apply scene_facing; auto|].
    split; [apply scene_nothing_closer; auto | apply scene_term; auto].
Qed.

End Binary64Run.

Section SceneScale.

Import FormFactor Energy.

Lemma v3le_refl (a : V3) : v3le a a.
Proof. unfold v3le; lra. Qed.

Lemma v3le_trans (a b c : V3) : v3le a b -> v3le b c -> v3le a c.
Proof. unfold v3le; intros (? & ? & ?) (? & ? & ?); lra. Qed.

Lemma v3min_le (a b : V3) : v3le (v3min a b) a /\ v3le (v3min a b) b.
Proof.
  unfold v3le, v3min; simpl.
  pose proof (Rmin_l (vx a) (vx b)). pose proof (Rmin_r (vx a) (vx b)).
  pose proof (Rmin_l (vy a) (vy b)). pose proof (Rmin_r (vy a) (vy b)).
  pose proof (Rmin_l (vz a) (vz b)). pose proof (Rmin_r (vz a) (vz b)).
  repeat split; assumption.
Qed.

Lemma v3max_ge (a b : V3) : v3le a (v3max a b) /\ v3le b (v3max a b).
Proof.
  unfold v3le, v3max; simpl.
  pose proof (Rmax_l (vx a) (vx b)). pose proof (Rmax_r (vx a) (vx b)).
  pose proof (Rmax_l (vy a) (vy b)). pose proof (Rmax_r (vy a) (vy b)).
  pose proof (Rmax_l (vz a) (vz b)). pose proof (Rmax_r (vz a) (vz b)).
  repeat split; assumption.
Qed.

(** The corner [bbox_min] is below every centroid, [bbox_max] above. *)
Lemma bbox_min_le (cs : list V3) :
  forall c p, In p (c :: cs) -> v3le (fold_left v3min cs c) p.
Proof.
  induction cs as [|a cs IH]; intros c p Hin; simpl.
  - destruct Hin as [<-|[]]. apply v3le_refl.
  - destruct (v3min_le c a) as [Hc Ha].
    destruct Hin as [<-|[<-|Hin]].
    + eapply v3le_trans; [apply IH; left; reflexivity | exact Hc].
    + eapply v3le_trans; [apply IH; left; reflexivity | exact Ha].
    + apply IH. right. exact Hin.
Qed.

Lemma bbox_max_ge (cs : list V3) :
  forall c p, In p (c :: cs) -> v3le p (fold_left v3max cs c).
Proof.
  induction cs as [|a cs IH]; intros c p Hin; simpl.
  - destruct Hin as [<-|[]]. apply v3le_refl.
  - destruct (v3max_ge c a) as [Hc Ha].
    destruct Hin as [<-|[<-|Hin]].
    + eapply v3le_trans; [exact Hc | apply IH; left; reflexivity].
    + eapply v3le_trans; [exact Ha | apply IH; left; reflexivity].
    + apply IH. right. exact Hin.
Qed.

Lemma v3min_translate (t a b : V3) : v3min (v3add t a) (v3add t b) = v3add t (v3min a b).
Proof.
  apply v3_ext; unfold v3min, v3add; simpl; unfold Rmin;
    repeat destruct (Rle_dec _ _); lra.
Qed.

Lemma v3max_translate (t a b : V3) : v3max (v3add t a) (v3add t b) = v3add t (v3max a b).
Proof.
  apply v3_ext; unfold v3max, v3add; simpl; unfold Rmax;
    repeat destruct (Rle_dec _ _); lra.
Qed.

Lemma bbox_translate (f : V3 -> V3 -> V3) (t : V3) (cs : list V3) :
  (forall a b, f (v3add t a) (v3add t b) = v3add t (f a b)) ->
  forall c, fold_left f (map (v3add t) cs) (v3add t c) = v3add t (fold_left f cs c).
Proof.
  intros Hf. induction cs as [|a cs IH]; intros c; simpl; auto.
  rewrite Hf. apply IH.
Qed.

Lemma norm_sub_le (lo hi p q : V3) :
  v3le lo p -> v3le p hi -> v3le lo q -> v3le q hi ->
  norm (v3sub p q) <= norm (v3sub hi lo).
Proof.
  intros (A1 & A2 & A3) (B1 & B2 & B3) (C1 & C2 & C3) (D1 & D2 & D3).
  unfold norm. apply sqrt_le_1_alt. unfold dot, v3sub; simpl.
  assert (Hsq : forall a b l h : R, l <= a <= h -> l <= b <= h ->
                                    (a - b) * (a - b) <= (h - l) * (h - l)).
  { intros a b l h Ha Hb. nra. }
  pose proof (Hsq (vx p) (vx q) (vx lo) (vx hi) (conj A1 B1) (conj C1 D1)).
  pose proof (Hsq (vy p) (vy q) (vy lo) (vy hi) (conj A2 B2) (conj C2 D2)).
  pose proof (Hsq (vz p) (vz q) (vz lo) (vz hi) (conj A3 B3) (conj C3 D3)).
  lra.
Qed.

(** X9. [epsilon] measures the scene.  For a scene with centroids [p]
    and [q], the cell's [epsilon] is at least [1e-5] times their distance
    (so it is zero only if all centroids coincide), and moving the whole
    scene by a vector leaves it unchanged. *)
Theorem epsilon_scene_scale (centroids : list V3) (p q : V3) :
  In p centroids -> In q centroids ->
  exists eps,
    epsilon centroids = Returned eps /\
    1e-5 * norm (v3sub p q) <= eps /\
    forall t, epsilon (map (v3add t) centroids) = Returned eps.
Proof.
  destruct centroids as [|c cs]; [intros []|]. intros Hp Hq.
  eexists. split; [reflexivity|]. split.
  - apply Rmult_le_compat_l; [lra|].
    apply norm_sub_le.
    + apply bbox_min_le; auto.
    + apply bbox_max_ge; auto.
    + apply bbox_min_le; auto.
    + apply bbox_max_ge; auto.
  - intros t. cbn [map epsilon].
    rewrite (bbox_translate v3min t cs (v3min_translate t)).
    rewrite (bbox_translate v3max t cs (v3max_translate t)).
    do 3 f_equal. apply v3_ext; unfold v3sub, v3add; simpl; ring.
Qed.

Lemma epsilon_scene_scale_witness :
  exists eps,
    epsilon two_centroids = Returned eps /\
    1e-5 * norm (v3sub (mkV3 0 0 0) (mkV3 0 0 1)) <= eps /\
    forall t, epsilon (map (v3add t) two_centroids) = Returned eps.
Proof.
  apply (epsilon_scene_scale two_centroids (mkV3 0 0 0) (mkV3 0 0 1)).
  - left. reflexivity.
  - right. left. reflexivity.
Defined.

End SceneScale.

(* ================================================================= *)
(** * Further properties of the refiner *)

Section Projection.

Import Refiner Subdivision.

(** A vector of the plane spanned by the orthonormal [u] and [v] is the sum
    of its two components. *)
Lemma plane_decomposition (u v w : V3) :
  dot u u = 1 -> dot v v = 1 -> dot u v = 0 -> dot w (cross u v) = 0 ->
  w = v3add (v3scale (dot w u) u) (v3scale (dot w v) v).
Proof.
  intros Huu Hvv Huv Hw.
  assert (Hid : v3scale (dot (cross u v) (cross u v)) w
                = v3add (v3add (v3scale (dot w (cross u v)) (cross u v))
                               (v3scale (dot w u * dot v v - dot w v * dot u v) u))
                        (v3scale (dot w v * dot u u - dot w u * dot u v) v)).
  { apply v3_ext; unfold dot, cross, v3add, v3scale; simpl; ring. }
  rewrite dot_cross_cross, Hw, Huu, Hvv, (dot_comm v u), Huv in Hid.
  apply v3_ext.
  - apply (f_equal vx) in Hid. simpl in Hid. simpl. lra.
  - apply (f_equal vy) in Hid. simpl in Hid. simpl. lra.
  - apply (f_equal vz) in Hid. simpl in Hid. simpl. lra.
Qed.

Lemma cross_v3div (a b : V3) (k m : R) :
  cross (v3div a k) (v3div b m) = v3div (cross a b) (k * m).
Proof.
  apply v3_ext; unfold cross, v3div, Rdiv; simpl; rewrite Rinv_mult; ring.
Qed.

Lemma in_plane_normal (t : triangle) (p : V3) :
  in_plane t p -> let '(v0, _, _) := t in dot (v3sub p v0) (frame_n t) = 0.
Proof.
  destruct t as [[v0 v1] v2]. unfold in_plane, frame_n. intros H.
  rewrite dot_v3div_r, H. unfold Rdiv. ring.
Qed.

(** Lifting undoes the projection on the plane of the triangle. *)
Lemma to_3d_project (t : triangle) (p : V3) :
  nondegenerate t -> in_plane t p ->
  let '(v0, _, _) := t in
  to_3d (project_to_2d v0 (frame_u t) (frame_v t) p) v0 (frame_u t) (frame_v t) = p.
Proof.
  intros Hnd Hp.
  destruct (frame_orthonormal t Hnd) as (Huu & Hvv & Huv & Hn).
  pose proof (in_plane_normal t p Hp) as Hpn.
  destruct t as [[v0 v1] v2].
  set (u := frame_u (v0, v1, v2)) in *. set (v := frame_v (v0, v1, v2)) in *.
  rewrite <- Hn in Hpn.
  pose proof (plane_decomposition u v (v3sub p v0) Huu Hvv Huv Hpn) as Hd.
  unfold project_to_2d, to_3d.
  set (x := dot (v3sub p v0) u) in *. set (y := dot (v3sub p v0) v) in *.
  apply v3_ext.
  - apply (f_equal vx) in Hd. simpl in Hd. simpl. lra.
  - apply (f_equal vy) in Hd. simpl in Hd. simpl. lra.
  - apply (f_equal vz) in Hd. simpl in Hd. simpl. lra.
Qed.

Lemma vertices_in_plane (v0 v1 v2 : V3) :
  in_plane (v0, v1, v2) v0 /\ in_plane (v0, v1, v2) v1 /\ in_plane (v0, v1, v2) v2.
Proof.
  unfold in_plane. repeat split.
  - unfold dot, cross, v3sub; simpl; ring.
  - apply dot_cross_l.
  - apply dot_cross_r.
Qed.

(** The three projected vertices lift back to the triangle. *)
Lemma to_3d_vertices (t : triangle) :
  nondegenerate t ->
  let '(p0, p1, p2, origin, u, v) := project_triangle_2D t in
  (to_3d p0 origin u v, to_3d p1 origin u v, to_3d p2 origin u v) = t.
Proof.
  intros Hnd. rewrite project_triangle_2D_eq.
  pose proof (to_3d_project t) as H. destruct t as [[v0 v1] v2].
  destruct (vertices_in_plane v0 v1 v2) as (H0 & H1 & H2).
  pose proof (H v0 Hnd H0) as A0. pose proof (H v1 Hnd H1) as A1.
  pose proof (H v2 Hnd H2) as A2. cbv beta iota in A0, A1, A2.
  rewrite A0, A1, A2. reflexivity.
Qed.

Lemma project_to_3d (origin u v : V3) (q : point) :
  dot u u = 1 -> dot v v = 1 -> dot u v = 0 ->
  project_to_2d origin u v (to_3d q origin u v) = q.
Proof.
  intros Huu Hvv Huv. destruct q as [x y]. unfold project_to_2d, to_3d.
  replace (dot (v3sub (v3add (v3add origin (v3scale x u)) (v3scale y v)) origin) u)
    with (x * dot u u + y * dot u v)
    by (unfold dot, v3sub, v3add, v3scale; simpl; ring).
  replace (dot (v3sub (v3add (v3add origin (v3scale x u)) (v3scale y v)) origin) v)
    with (x * dot u v + y * dot v v)
    by (unfold dot, v3sub, v3add, v3scale; simpl; ring).
  rewrite Huu, Hvv, Huv. f_equal; ring.
Qed.

(** The projected edges have the lengths of the triangle's edges. *)
Lemma projected_edges (t : triangle) :
  nondegenerate t ->
  let '(p0, p1, p2, _, _, _) := project_triangle_2D t in
  let '(v0, v1, v2) := t in
  length2d p0 p1 = dist3 v0 v1 /\ length2d p1 p2 = dist3 v1 v2 /\
  length2d p0 p2 = dist3 v0 v2.
Proof.
  intros Hnd. pose proof (to_3d_vertices t Hnd) as Hv.
  destruct (frame_orthonormal t Hnd) as (Huu & Hvv & Huv & _).
  rewrite project_triangle_2D_eq in *. destruct t as [[v0 v1] v2].
  set (u := frame_u (v0, v1, v2)) in *. set (v := frame_v (v0, v1, v2)) in *.
  set (p0 := project_to_2d v0 u v v0) in *. set (p1 := project_to_2d v0 u v v1) in *.
  set (p2 := project_to_2d v0 u v v2) in *.
  assert (E0 : to_3d p0 v0 u v = v0) by exact (f_equal (fun x => fst (fst x)) Hv).
  assert (E1 : to_3d p1 v0 u v = v1) by exact (f_equal (fun x => snd (fst x)) Hv).
  assert (E2 : to_3d p2 v0 u v = v2) by exact (f_equal snd Hv).
  rewrite <- !(to_3d_dist v0 u v Huu Hvv Huv), E0, E1, E2. auto.
Qed.

(** The second coordinate of the third projected vertex. *)
Lemma projected_height (v0 v1 v2 : V3) :
  nondegenerate (v0, v1, v2) ->
  dot (v3sub v2 v0) (frame_v (v0, v1, v2))
  = norm (cross (v3sub v1 v0) (v3sub v2 v0)) / norm (v3sub v1 v0).
Proof.
  unfold nondegenerate, frame_v, frame_n, frame_u.
  set (e1 := v3sub v1 v0). set (e2 := v3sub v2 v0). intros Hc.
  pose proof (edge_nonzero v0 v1 v2 Hc) as He. fold e1 in He.
  pose proof (norm_pos _ Hc) as Hcp. pose proof (norm_pos _ He) as Hep.
  rewrite cross_v3div, dot_v3div_r.
  replace (dot e2 (cross (cross e1 e2) e1)) with (dot (cross e1 e2) (cross e1 e2))
    by (unfold dot, cross; simpl; ring).
  rewrite <- norm_sqr. field. lra.
Qed.

(** X10. Where the projection puts a non-degenerate triangle: the first
    vertex at the origin, the second on the positive [x] axis at the length
    of the first edge, the third strictly above the axis; the three
    projected edges have the lengths of the triangle's edges. *)
Theorem projection_placement (t : triangle) :
  nondegenerate t ->
  let '(p0, p1, p2, _, _, _) := project_triangle_2D t in
  let '(v0, v1, v2) := t in
  p0 = (0, 0) /\ p1 = (dist3 v0 v1, 0) /\ 0 < dist3 v0 v1 /\ 0 < snd p2 /\
  length2d p0 p1 = dist3 v0 v1 /\ length2d p1 p2 = dist3 v1 v2 /\
  length2d p0 p2 = dist3 v0 v2.
Proof.
  intros Hnd. pose proof (projected_edges t Hnd) as Hedges.
  rewrite project_triangle_2D_eq in *. destruct t as [[v0 v1] v2].
  pose proof (projected_height v0 v1 v2 Hnd) as Hh.
  unfold nondegenerate in Hnd.
  pose proof (edge_nonzero v0 v1 v2 Hnd) as He.
  pose proof (norm_pos _ Hnd) as Hcp. pose proof (norm_pos _ He) as Hep.
  destruct Hedges as (E01 & E12 & E02).
  assert (H0 : project_to_2d v0 (frame_u (v0, v1, v2)) (frame_v (v0, v1, v2)) v0 = (0, 0)).
  { unfold project_to_2d. f_equal; unfold dot, v3sub; simpl; ring. }
  assert (H1 : project_to_2d v0 (frame_u (v0, v1, v2)) (frame_v (v0, v1, v2)) v1
               = (dist3 v0 v1, 0)).
  { unfold project_to_2d, frame_v, frame_n. f_equal.
    - unfold frame_u, dist3. rewrite dot_v3div_r, <- norm_sqr. field. lra.
    - unfold frame_u. rewrite cross_v3div, dot_v3div_r.
      replace (dot (v3sub v1 v0) (cross (cross (v3sub v1 v0) (v3sub v2 v0)) (v3sub v1 v0)))
        with 0 by (unfold dot, cross; simpl; ring).
      unfold Rdiv. ring. }
  repeat split; auto.
  - unfold project_to_2d. cbn [snd]. rewrite Hh.
    apply Rmult_lt_0_compat; [lra | apply Rinv_0_lt_compat; lra].
Qed.

Lemma projection_placement_witness :
  let '(p0, p1, p2, _, _, _) := project_triangle_2D unit_triangle in
  let '(v0, v1, v2) := unit_triangle in
  p0 = (0, 0) /\ p1 = (dist3 v0 v1, 0) /\ 0 < dist3 v0 v1 /\ 0 < snd p2 /\
  length2d p0 p1 = dist3 v0 v1 /\ length2d p1 p2 = dist3 v1 v2 /\
  length2d p0 p2 = dist3 v0 v2.
Proof.
  apply (projection_placement unit_triangle). apply unit_triangle_nondegenerate.
Defined.

(** X11. Projection and lifting are inverse to each other.  For a
    non-degenerate triangle and the frame [project_triangle_2D] returns:
    lifting the projection of any point of the triangle's plane gives the
    point back, projecting the lift of any 2D point gives the 2D point back,
    and the three projected vertices lift to the triangle itself. *)
Theorem projection_round_trip (t : triangle) :
  nondegenerate t ->
  let '(p0, p1, p2, origin, u, v) := project_triangle_2D t in
  (forall p, in_plane t p -> to_3d (project_to_2d origin u v p) origin u v = p) /\
  (forall q, project_to_2d origin u v (to_3d q origin u v) = q) /\
  (to_3d p0 origin u v, to_3d p1 origin u v, to_3d p2 origin u v) = t.
Proof.
  intros Hnd. pose proof (to_3d_vertices t Hnd) as Hv.
  pose proof (to_3d_project t) as Hp.
  destruct (frame_orthonormal t Hnd) as (Huu & Hvv & Huv & _).
  rewrite project_triangle_2D_eq in *. destruct t as [[v0 v1] v2].
  split; [intros p Hin; apply Hp; auto|].
  split; [intros q; apply project_to_3d; auto | exact Hv].
Qed.

Lemma projection_round_trip_witness :
  let '(p0, p1, p2, origin, u, v) := project_triangle_2D unit_triangle in
  (forall p, in_plane unit_triangle p -> to_3d (project_to_2d origin u v p) origin u v = p) /\
  (forall q, project_to_2d origin u v (to_3d q origin u v) = q) /\
  (to_3d p0 origin u v, to_3d p1 origin u v, to_3d p2 origin u v) = unit_triangle.
Proof.
  apply (projection_round_trip unit_triangle). apply unit_triangle_nondegenerate.
Defined.

End Projection.

Section RefinerStability.

Import Refiner Subdivision.

Variable Delaunay : list point -> option (list simplex).
Variable set_order : list edge -> list edge.

Local Abbreviation split_pass := (Refiner.split_pass Delaunay set_order).
Local Abbreviation splitViaDelaunay := (Refiner.splitViaDelaunay Delaunay set_order).
Local Abbreviation subdivide_triangle := (Refiner.subdivide_triangle Delaunay set_order).
Local Abbreviation subdivide_triangles := (Refiner.subdivide_triangles Delaunay set_order).

(** A pass over a triangulation with short edges only changes nothing. *)
Lemma split_pass_short (maxLength : R) (s : list point) (simplices : list simplex) :
  Delaunay s = Some simplices ->
  Forall (short s maxLength) (set_order (flat_map simplex_edges simplices)) ->
  split_pass maxLength s = (Returned true, s).
Proof.
  intros HD Hs. unfold Refiner.split_pass, triangulate, bind. rewrite HD.
  apply for_edges_short_run. exact Hs.
Qed.

(** X13. [splitViaDelaunay] is idempotent: on the point list a returning
    run leaves, a further call returns at once (at any limit of at least
    one call) and leaves the list as it is. *)
Theorem splitViaDelaunay_idempotent (depth depth' : nat) (maxLength : R)
        (s s1 : list point) :
  splitViaDelaunay depth maxLength s = (Returned tt, s1) ->
  splitViaDelaunay (S depth') maxLength s1 = (Returned tt, s1).
Proof.
  intros Hrun. apply splitViaDelaunay_returned in Hrun as (simplices & HD & Hs).
  apply splitViaDelaunay_done. apply (split_pass_short _ _ simplices); auto.
Qed.

End RefinerStability.

Section RefinerStabilityWitnesses.

Import Refiner Subdivision.

Lemma splitViaDelaunay_idempotent_witness :
  splitViaDelaunay Delaunay_small insertion_order 1 1 [(0, 0); (1, 0); (0, 1); (1 / 2, 1 / 2)]
  = (Returned tt, [(0, 0); (1, 0); (0, 1); (1 / 2, 1 / 2)]).
Proof.
  apply (splitViaDelaunay_idempotent Delaunay_small insertion_order 5 0 1
           [(0, 0); (1, 0); (0, 1)]).
  exact unit_triangle_points.
Defined.

End RefinerStabilityWitnesses.

Section RefinerPieces.

Import Refiner Subdivision.

Lemma ceil_ge (x : R) : x <= IZR (ceil x).
Proof.
  unfold ceil. rewrite minus_IZR. destruct (archimed (- x)) as [H1 H2]. lra.
Qed.

Lemma sqrt_le_bound (x b : R) : 0 <= b -> x <= b * b -> sqrt x <= b.
Proof.
  intros Hb Hx. rewrite <- (sqrt_square b Hb). apply sqrt_le_1_alt. exact Hx.
Qed.

(** Consecutive points of an edge cut in [n] pieces are a [n]-th of the
    edge apart. *)
Lemma piece_point_step (P1 P2 : point) (n k : Z) :
  (0 < n)%Z ->
  length2d (piece_point P1 P2 n k) (piece_point P1 P2 n (k + 1)) = length2d P1 P2 / IZR n.
Proof.
  intros Hn. apply IZR_lt in Hn.
  destruct P1 as [x1 y1], P2 as [x2 y2]. unfold piece_point, length2d. cbn [fst snd].
  rewrite plus_IZR.
  replace ((x1 + (IZR k + 1) / IZR n * (x2 - x1) - (x1 + IZR k / IZR n * (x2 - x1)))
           * (x1 + (IZR k + 1) / IZR n * (x2 - x1) - (x1 + IZR k / IZR n * (x2 - x1)))
           + (y1 + (IZR k + 1) / IZR n * (y2 - y1) - (y1 + IZR k / IZR n * (y2 - y1)))
             * (y1 + (IZR k + 1) / IZR n * (y2 - y1) - (y1 + IZR k / IZR n * (y2 - y1))))
    with (((x2 - x1) * (x2 - x1) + (y2 - y1) * (y2 - y1)) * (/ IZR n * / IZR n))
    by (field; lra).
  assert (Hi : 0 < / IZR n) by (apply Rinv_0_lt_compat; lra).
  rewrite sqrt_mult;
    [| apply Rplus_le_le_0_compat; apply Rle_0_sqr | apply Rle_0_sqr].
  rewrite sqrt_square by lra. reflexivity.
Qed.

(** X14. A long edge is cut evenly.  For [0 < maxLength < length] the body
    of the edge loop clears [isFinished] and appends the [nPieces - 1]
    points that cut the edge in [nPieces = ceil(length / maxLength) >= 2]
    equal pieces, in order from the first end to the second; every piece is
    at most [maxLength] long. *)
Theorem long_edge_cut_evenly (maxLength : R) (isFinished : bool) (p1 p2 : nat)
        (P1 P2 : point) (s : list point) :
  nth_error s p1 = Some P1 -> nth_error s p2 = Some P2 ->
  0 < maxLength < length2d P1 P2 ->
  let nPieces := ceil (length2d P1 P2 / maxLength) in
  (2 <= nPieces)%Z /\
  split_edge maxLength isFinished (p1, p2) s
  = (Returned false, s ++ map (piece_point P1 P2 nPieces) (range 1 nPieces)) /\
  piece_point P1 P2 nPieces 0 = P1 /\
  piece_point P1 P2 nPieces nPieces = P2 /\
  forall piece : Z,
    length2d (piece_point P1 P2 nPieces piece) (piece_point P1 P2 nPieces (piece + 1))
    <= maxLength.
Proof.
  intros H1 H2 [Hm Hlen]. intros nPieces.
  pose proof (ceil_ge (length2d P1 P2 / maxLength)) as Hc. fold nPieces in Hc.
  assert (Hq : 1 < length2d P1 P2 / maxLength).
  { apply Rmult_lt_reg_r with maxLength; auto.
    replace (length2d P1 P2 / maxLength * maxLength) with (length2d P1 P2) by (field; lra).
    lra. }
  assert (Hn2 : (2 <= nPieces)%Z).
  { assert (Hlt : (1 < nPieces)%Z) by (apply lt_IZR; lra). lia. }
  assert (Hnpos : 0 < IZR nPieces) by (apply IZR_lt; lia).
  destruct P1 as [x1 y1], P2 as [x2 y2].
  split; [exact Hn2|]. split; [|split; [|split]].
  - apply split_edge_long_run; auto. lra.
  - unfold piece_point. cbn [fst snd]. f_equal; unfold Rdiv; ring.
  - unfold piece_point. cbn [fst snd]. f_equal; field; lra.
  - intros piece. rewrite piece_point_step by lia.
    apply Rmult_le_reg_r with (IZR nPieces); auto.
    replace (length2d (x1, y1) (x2, y2) / IZR nPieces * IZR nPieces)
      with (length2d (x1, y1) (x2, y2)) by (field; lra).
    apply Rmult_le_reg_r with (/ maxLength); [apply Rinv_0_lt_compat; auto|].
    replace (maxLength * IZR nPieces * / maxLength) with (IZR nPieces) by (field; lra).
    exact Hc.
Qed.

Lemma long_edge_cut_evenly_witness :
  let nPieces := ceil (length2d (1, 0) (0, 1) / 1) in
  (2 <= nPieces)%Z /\
  split_edge 1 true (1, 2)%nat [(0, 0); (1, 0); (0, 1)]
  = (Returned false,
     [(0, 0); (1, 0); (0, 1)] ++ map (piece_point (1, 0) (0, 1) nPieces) (range 1 nPieces)) /\
  piece_point (1, 0) (0, 1) nPieces 0 = (1, 0) /\
  piece_point (1, 0) (0, 1) nPieces nPieces = (0, 1) /\
  forall piece : Z,
    length2d (piece_point (1, 0) (0, 1) nPieces piece)
             (piece_point (1, 0) (0, 1) nPieces (piece + 1)) <= 1.
Proof.
  apply (long_edge_cut_evenly 1 true 1 2 (1, 0) (0, 1) [(0, 0); (1, 0); (0, 1)]).
  - reflexivity.
  - reflexivity.
  - split; [lra|]. unfold length2d.
    replace ((0 - 1) * (0 - 1) + (1 - 0) * (1 - 0)) with 2 by ring.
    apply sqrt_2_bounds.
Defined.

End RefinerPieces.

Section RefinerInside.

Import Refiner Subdivision.

Variable Delaunay : list point -> option (list simplex).
Variable set_order : list edge -> list edge.

Local Abbreviation splitViaDelaunay := (Refiner.splitViaDelaunay Delaunay set_order).
Local Abbreviation subdivide_triangle := (Refiner.subdivide_triangle Delaunay set_order).
Local Abbreviation subdivide_triangles := (Refiner.subdivide_triangles Delaunay set_order).

(** Lifting is affine: it maps a triangle of the plane onto the lifted
    triangle. *)
Lemma to_3d_affine (origin u v : V3) (a b c p : point) :
  in_triangle a b c p ->
  in_triangle3 (to_3d a origin u v, to_3d b origin u v, to_3d c origin u v)
               (to_3d p origin u v).
Proof.
  intros (al & be & ga & Ha & Hb & Hg & Hs & Hx & Hy).
  exists al, be, ga. repeat split; auto.
  destruct a as [ax ay], b as [bx by_], c as [cx cy], p as [px py].
  cbn [fst snd] in Hx, Hy. subst px py.
  assert (Hga : ga = 1 - al - be) by lra. subst ga.
  apply v3_ext; unfold to_3d, v3add, v3scale; simpl; ring.
Qed.

Lemma subdivide_triangle_inside (depth : nat) (maxLength : R) (t : triangle)
      (ts : list triangle) :
  nondegenerate t ->
  subdivide_triangle depth maxLength t = Returned ts ->
  forall tr p, In tr ts -> In p (vertices tr) -> in_triangle3 t p.
Proof.
  intros Hnd. unfold Refiner.subdivide_triangle.
  pose proof (to_3d_vertices t Hnd) as Hv.
  destruct (project_triangle_2D t) as [[[[[p0 p1] p2] origin] u] v].
  destruct (splitViaDelaunay depth maxLength [p0; p1; p2]) as [[x|ex] points] eqn:Hrun;
    [|discriminate].
  pose proof (grows_splitViaDelaunay Delaunay set_order depth maxLength [p0; p1; p2]) as Hg.
  rewrite Hrun in Hg. simpl in Hg.
  assert (Hin : Forall (in_triangle p0 p1 p2) points).
  { eapply grows_closed; [| exact Hg | apply in_triangle_vertices].
    intros pa pb p. apply in_triangle_between. }
  destruct (Delaunay points) as [simplices|]; [|discriminate].
  intros Hlift. apply lift_simplices_returned in Hlift as [Hidx ->].
  intros tr p Htr Hp. apply in_map_iff in Htr as ([[x1 y1] z1] & <- & Hs).
  rewrite Forall_forall in Hidx. specialize (Hidx _ Hs). cbv beta iota in Hidx.
  destruct Hidx as (Hx & Hy & Hz).
  rewrite Forall_forall in Hin. rewrite <- Hv.
  cbn [vertices] in Hp.
  destruct Hp as [<-|[<-|[<-|[]]]]; apply to_3d_affine, Hin, nth_In; auto.
Qed.

(** X15. The refinement stays inside its triangle.  Whatever the
    triangulation answers, every vertex of every triangle that
    [subdivide_triangles] returns for non-degenerate input triangles lies
    in one of the input triangles (a convex combination of its three
    vertices). *)
Theorem refinement_stays_inside (depth : nat) (maxLength : R) :
  forall (tris out : list triangle),
    Forall nondegenerate tris ->
    subdivide_triangles depth tris maxLength = Returned out ->
    forall tr, In tr out ->
      exists t, In t tris /\ forall p, In p (vertices tr) -> in_triangle3 t p.
Proof.
  induction tris as [|t rest IH]; intros out Hnd; cbn [Refiner.subdivide_triangles].
  - intros H; inversion H; subst. intros tr [].
  - inversion Hnd as [|? ? Ht Hrest]; subst.
    destruct (subdivide_triangle depth maxLength t) as [new|] eqn:Hnew; [|discriminate].
    destruct (subdivide_triangles depth rest maxLength) as [refined|] eqn:Hr; [|discriminate].
    intros H; inversion H; subst. intros tr Htr. apply in_app_or in Htr as [Htr|Htr].
    + exists t. split; [left; reflexivity|].
      intros p Hp. apply (subdivide_triangle_inside depth maxLength t new Ht Hnew tr p); auto.
    + destruct (IH refined Hrest eq_refl tr Htr) as (t' & Ht' & Hp).
      exists t'. split; [right; exact Ht' | exact Hp].
Qed.

(** X16. Triangles are refined one by one: the refinement of two batches
    put together is the refinement of the first followed by that of the
    second, and it raises what the first batch raises, or else what the
    second raises. *)
Theorem subdivide_triangles_app (depth : nat) (maxLength : R) (tris1 tris2 : list triangle) :
  subdivide_triangles depth (tris1 ++ tris2) maxLength
  = match subdivide_triangles depth tris1 maxLength with
    | Raised e => Raised e
    | Returned out1 =>
        match subdivide_triangles depth tris2 maxLength with
        | Raised e => Raised e
        | Returned out2 => Returned (out1 ++ out2)
        end
    end.
Proof.
  induction tris1 as [|t rest IH]; cbn [Refiner.subdivide_triangles app].
  - destruct (subdivide_triangles depth tris2 maxLength); reflexivity.
  - destruct (subdivide_triangle depth maxLength t) as [new|e]; [|reflexivity].
    rewrite IH.
    destruct (subdivide_triangles depth rest maxLength) as [out1|e]; [|reflexivity].
    destruct (subdivide_triangles depth tris2 maxLength) as [out2|e]; [|reflexivity].
    rewrite app_assoc. reflexivity.
Qed.

Lemma length2d_sym (p q : point) : length2d p q = length2d q p.
Proof.
  destruct p as [x1 y1], q as [x2 y2]. unfold length2d. f_equal. ring.
Qed.

(** A triangle with three short edges, triangulated as itself with its
    vertices in some order, is returned with its vertices in that order. *)
Lemma subdivide_fine_triangle (depth : nat) (maxLength : R) (t : triangle) :
  (forall l e, In e (set_order l) -> In e l) ->
  (forall a b c, collinear a b c = false ->
                 exists s, In s orders3 /\ Delaunay [a; b; c] = Some [s]) ->
  nondegenerate t -> edges_le maxLength t ->
  exists s, In s orders3 /\
            subdivide_triangle (S depth) maxLength t = Returned [reorder s t].
Proof.
  intros Hso HD Hnd Hle. unfold Refiner.subdivide_triangle.
  pose proof (to_3d_vertices t Hnd) as Hv.
  pose proof (projected_edges t Hnd) as He.
  pose proof (projected_area t Hnd) as Ha.
  pose proof (area3_pos t Hnd) as Hpos.
  destruct (project_triangle_2D t) as [[[[[p0 p1] p2] origin] u] v].
  destruct t as [[v0 v1] v2]. destruct He as (E01 & E12 & E02).
  destruct Hle as (L01 & L12 & L02).
  assert (E0 : to_3d p0 origin u v = v0) by exact (f_equal (fun x => fst (fst x)) Hv).
  assert (E1 : to_3d p1 origin u v = v1) by exact (f_equal (fun x => snd (fst x)) Hv).
  assert (E2 : to_3d p2 origin u v = v2) by exact (f_equal snd Hv).
  assert (Hcol : collinear p0 p1 p2 = false).
  { unfold collinear. destruct (Req_dec_T _ 0) as [Hz|Hnz]; [|reflexivity].
    exfalso. unfold area2 in Ha. rewrite Hz, Rabs_R0 in Ha. lra. }
  destruct (HD p0 p1 p2 Hcol) as (s & Hs & HD3).
  pose proof (length2d_sym p1 p0) as S10. pose proof (length2d_sym p2 p1) as S21.
  pose proof (length2d_sym p2 p0) as S20.
  exists s. split; [exact Hs|].
  assert (Hpass : Refiner.split_pass Delaunay set_order maxLength [p0; p1; p2]
                  = (Returned true, [p0; p1; p2])).
  { apply (split_pass_short _ _ _ _ [s]); auto.
    apply Forall_forall. intros e Hin. apply Hso in Hin.
    cbn [flat_map app] in Hin. rewrite app_nil_r in Hin.
    simpl in Hs.
    destruct Hs as [<-|[<-|[<-|[<-|[<-|[<-|[]]]]]]]; simpl in Hin;
      destruct Hin as [<-|[<-|[<-|[]]]];
      (eexists; eexists; split; [reflexivity | split; [reflexivity|]]; lra). }
  rewrite (splitViaDelaunay_done _ _ _ _ _ _ Hpass), HD3.
  simpl in Hs.
  destruct Hs as [<-|[<-|[<-|[<-|[<-|[<-|[]]]]]]]; simpl; rewrite E0, E1, E2; reflexivity.
Qed.

(** X17. Fine triangles pass through.  Let the set of edges hold nothing
    but the edges added to it, and let three points not on a line
    triangulate to one simplex, with their indices in whatever order the
    triangulation chooses.  Then for non-degenerate triangles whose edges
    are all at most [maxLength] long [subdivide_triangles] returns one
    triangle for each, in order, with the same three vertices, in the order
    the triangulation chose. *)
Theorem fine_triangles_pass_through (depth : nat) (maxLength : R) (tris : list triangle) :
  (forall l e, In e (set_order l) -> In e l) ->
  (forall a b c, collinear a b c = false ->
                 exists s, In s orders3 /\ Delaunay [a; b; c] = Some [s]) ->
  Forall nondegenerate tris -> Forall (edges_le maxLength) tris ->
  exists out,
    subdivide_triangles (S depth) tris maxLength = Returned out /\
    Forall2 (fun t' t => exists s, In s orders3 /\ t' = reorder s t) out tris.
Proof.
  intros Hso HD Hnd Hle.
  induction tris as [|t rest IH]; cbn [Refiner.subdivide_triangles].
  - exists []. split; [reflexivity | constructor].
  - inversion Hnd as [|? ? Ht Hrest]; subst. inversion Hle as [|? ? Lt Lrest]; subst.
    destruct (subdivide_fine_triangle depth maxLength t Hso HD Ht Lt) as (s & Hs & ->).
    destruct (IH Hrest Lrest) as (out & -> & Hout).
    exists (reorder s t :: out). split; [reflexivity|].
    constructor; [|exact Hout]. exists s. split; [exact Hs | reflexivity].
Qed.

End RefinerInside.

Section RefinerInsideWitnesses.

Import Refiner Subdivision.

Lemma refinement_stays_inside_witness :
  exists t,
    In t [unit_triangle] /\
    forall p, In p (vertices (mkV3 0 0 0, mkV3 1 0 0, mkV3 (1 / 2) (1 / 2) 0)) ->
              in_triangle3 t p.
Proof.
  apply (refinement_stays_inside Delaunay_small insertion_order 5 1 [unit_triangle]
           [(mkV3 0 0 0, mkV3 1 0 0, mkV3 (1 / 2) (1 / 2) 0);
            (mkV3 0 0 0, mkV3 (1 / 2) (1 / 2) 0, mkV3 0 1 0)]).
  - constructor; [apply unit_triangle_nondegenerate | constructor].
  - apply unit_triangle_run.
  - left. reflexivity.
Defined.

Lemma insertion_order_sound (l : list edge) (e : edge) : In e (insertion_order l) -> In e l.
Proof.
  unfold insertion_order. apply nodup_In.
Qed.

Lemma Delaunay_rotated_noncollinear (a b c : point) :
  collinear a b c = false ->
  exists s, In s orders3 /\ Delaunay_rotated [a; b; c] = Some [s].
Proof.
  intros H. exists (1, 2, 0)%nat. unfold Delaunay_rotated. rewrite H.
  split; [simpl; auto | reflexivity].
Qed.

Lemma unit_triangle_edges_le_2 : edges_le 2 unit_triangle.
Proof.
  unfold edges_le, unit_triangle, dist3, norm, dot, v3sub. simpl.
  repeat split; apply sqrt_le_bound; lra.
Qed.

Lemma fine_triangles_pass_through_witness :
  exists out,
    subdivide_triangles Delaunay_rotated insertion_order 1 [unit_triangle] 2 = Returned out /\
    Forall2 (fun t' t => exists s, In s orders3 /\ t' = reorder s t) out [unit_triangle].
Proof.
  apply (fine_triangles_pass_through Delaunay_rotated insertion_order 0 2 [unit_triangle]).
  - apply insertion_order_sound.
  - apply Delaunay_rotated_noncollinear.
  - constructor; [apply unit_triangle_nondegenerate | constructor].
  - constructor; [apply unit_triangle_edges_le_2 | constructor].
Defined.

End RefinerInsideWitnesses.

(* ================================================================= *)
(** * The extraction cell *)

Section Extraction.

Import Refiner Subdivision.

Variable Delaunay : list point -> option (list simplex).
Variable set_order : list edge -> list edge.
Variable fix_normals : list triangle -> list triangle.

Local Abbreviation refine_scene := (Refiner.refine_scene Delaunay set_order fix_normals).

Lemma extract_returns (sc : scene) :
  Forall has_material sc ->
  exists T rho E,
    extract sc = Returned (T, rho, E) /\
    T = flat_map (fun km => triangles (snd km)) sc.
Proof.
  induction 1 as [|[key m] rest Hm _ IH]; simpl.
  - exists [], [], []. auto.
  - unfold has_material in Hm. simpl in Hm.
    destruct (visual_material m) as [mat|]; [|congruence].
    destruct IH as (T & rho & E & -> & ->). eauto.
Qed.

Lemma extract_raises (sc : scene) :
  Exists (fun km => visual_material (snd km) = None) sc ->
  extract sc = Raised AttributeError.
Proof.
  induction sc as [|[key m] rest IH]; intros H; [inversion H|].
  simpl. destruct (visual_material m) as [mat|] eqn:Hm; [|reflexivity].
  inversion H as [? ? H0|? ? H0]; subst.
  - simpl in H0. congruence.
  - rewrite (IH H0). reflexivity.
Qed.

Lemma refine_scene_materials (depth : nat) (maxLength : R) :
  forall sc sc', refine_scene depth sc maxLength = Returned sc' ->
    map (fun km => visual_material (snd km)) sc' = map (fun km => visual_material (snd km)) sc.
Proof.
  induction sc as [|[key m] rest IH]; intros sc'; simpl.
  - intros H; inversion H; reflexivity.
  - destruct (subdivide_triangles Delaunay set_order depth (triangles m) maxLength);
      [|discriminate].
    destruct (refine_scene depth rest maxLength) as [rs|]; [|discriminate].
    intros H; inversion H; subst. simpl. f_equal. apply IH. reflexivity.
Qed.

Lemma missing_material_map (sc : scene) :
  Exists (fun km => visual_material (snd km) = None) sc
  <-> In None (map (fun km => visual_material (snd km)) sc).
Proof.
  rewrite Exists_exists, in_map_iff. split.
  - intros (km & Hin & H). exists km. auto.
  - intros (km & H & Hin). exists km. auto.
Qed.

(** X18. The extraction needs a material on every mesh, and nothing
    else.  If every mesh of the scene has a material, the cell returns, and
    [T] lists the triangles of the meshes in the order of the scene; if
    some mesh has none, it raises [AttributeError].  A scene that
    [refine_scene] returns has a mesh without material exactly when the
    scene it was given has one. *)
Theorem extraction_needs_materials (sc : scene) :
  (Forall has_material sc ->
   exists T rho E,
     extract sc = Returned (T, rho, E) /\ T = flat_map (fun km => triangles (snd km)) sc) /\
  (Exists (fun km => visual_material (snd km) = None) sc ->
   extract sc = Raised AttributeError) /\
  (forall depth maxLength sc',
      refine_scene depth sc maxLength = Returned sc' ->
      (Exists (fun km => visual_material (snd km) = None) sc'
       <-> Exists (fun km => visual_material (snd km) = None) sc)).
Proof.
  split; [apply extract_returns|]. split; [apply extract_raises|].
  intros depth maxLength sc' H.
  rewrite !missing_material_map, (refine_scene_materials depth maxLength sc sc' H).
  reflexivity.
Qed.

(** The rows of [rho] and [E] are the materials' [kd] and [ke]. *)
Lemma extract_rows :
  forall (sc : scene) (T : list triangle) (rho E : matrix),
    extract sc = Returned (T, rho, E) ->
    length rho = length T /\ length E = length T /\
    (forall r, In r rho ->
       exists key m mat, In (key, m) sc /\ visual_material m = Some mat /\
                         r = get_default (kd mat) default_kd) /\
    (forall e, In e E ->
       exists key m mat, In (key, m) sc /\ visual_material m = Some mat /\
                         e = get_default (ke mat) default_ke).
Proof.
  induction sc as [|[key m] rest IH]; intros T rho E; simpl.
  - intros H; inversion H; subst. split; [reflexivity|]. split; [reflexivity|]. split; intros ? Hin; destruct Hin.
  - destruct (visual_material m) as [mat|] eqn:Hm; [|discriminate].
    destruct (extract rest) as [[[T' rho'] E']|]; [|discriminate].
    intros H; inversion H; subst.
    destruct (IH T' rho' E' eq_refl) as (L1 & L2 & Hr & He).
    rewrite !length_app, !repeat_length. repeat split; try lia.
    + intros r Hin. apply in_app_or in Hin as [Hin|Hin].
      * apply repeat_spec in Hin. subst. exists key, m, mat. auto.
      * destruct (Hr r Hin) as (k' & m' & mat' & H1 & H2 & H3).
        exists k', m', mat'. auto.
    + intros e Hin. apply in_app_or in Hin as [Hin|Hin].
      * apply repeat_spec in Hin. subst. exists key, m, mat. auto.
      * destruct (He e Hin) as (k' & m' & mat' & H1 & H2 & H3).
        exists k', m', mat'. auto.
Qed.

End Extraction.

Section ExtractionShapes.

Import Refiner Subdivision.

Lemma default_kd_rgb : rgb_nonneg default_kd.
Proof.
  split; [reflexivity|]. unfold default_kd. repeat constructor; lra.
Qed.

Lemma default_ke_rgb : rgb_nonneg default_ke.
Proof.
  split; [reflexivity|]. unfold default_ke. repeat constructor; lra.
Qed.

Lemma rows_shape (N : nat) (X : matrix) :
  length X = N -> (forall r, In r X -> rgb_nonneg r) ->
  Solver.has_shape N 3 X /\ Solver.nonneg X.
Proof.
  intros HN H. split; [split; auto|]; apply Forall_forall; intros r Hr; apply H; auto.
Qed.

(** X19. What the extraction hands to the solver.  If the colours the
    materials give have three non-negative channels each, the cell's [rho]
    and [E] are non-negative arrays of one row of three channels a
    triangle of [T]; and with the form factors of [N = len(T)] patches,
    whatever the intersector answers, the solver returns a non-negative
    [N] by 3 array for every iteration budget. *)
Theorem extraction_feeds_solver (sc : scene) (T : list triangle) (rho E : matrix) :
  extract sc = Returned (T, rho, E) ->
  (forall key m mat, In (key, m) sc -> visual_material m = Some mat -> material_ok mat) ->
  Solver.has_shape (length T) 3 rho /\ Solver.nonneg rho /\
  Solver.has_shape (length T) 3 E /\ Solver.nonneg E /\
  forall intersects_location hit_dist64 reach64 centroids normals areas epsilon (n : Z),
    length centroids = length T ->
    let F := FormFactor.form_factors intersects_location hit_dist64 reach64
                                     centroids normals areas epsilon in
    Solver.has_shape (length T) 3 (Solver.solve F rho E n) /\
    Solver.nonneg (Solver.solve F rho E n).
Proof.
  intros Hex Hmat.
  destruct (extract_rows sc T rho E Hex) as (L1 & L2 & Hr & He).
  assert (Hrho : Solver.has_shape (length T) 3 rho /\ Solver.nonneg rho).
  { apply rows_shape; auto. intros r Hin.
    destruct (Hr r Hin) as (key & m & mat & H1 & H2 & ->).
    destruct (Hmat key m mat H1 H2) as [Hkd _].
    destruct (kd mat) as [c|] eqn:Hc; simpl; [apply Hkd; reflexivity | apply default_kd_rgb]. }
  assert (HE : Solver.has_shape (length T) 3 E /\ Solver.nonneg E).
  { apply rows_shape; auto. intros e Hin.
    destruct (He e Hin) as (key & m & mat & H1 & H2 & ->).
    destruct (Hmat key m mat H1 H2) as [_ Hke].
    destruct (ke mat) as [c|] eqn:Hc; simpl; [apply Hke; reflexivity | apply default_ke_rgb]. }
  destruct Hrho as [S1 N1]. destruct HE as [S2 N2].
  split; [exact S1|]. split; [exact N1|]. split; [exact S2|]. split; [exact N2|].
  intros intersects_location hit_dist64 reach64 centroids normals areas epsilon n H F. split.
  - pose proof (form_factors_shape intersects_location hit_dist64 reach64
                                   centroids normals areas epsilon) as HF.
    unfold FormFactor.N in HF. rewrite H in HF.
    apply (solve_shape (length T) 3); auto.
  - unfold Solver.solve.
    apply (radiosity_per_bounce_nonneg (Z.to_nat n) _ rho E); auto.
    + apply csr_matrix_nonneg. apply form_factors_entries.
      intros i j Hi _. apply form_factors_entry_bounds; auto.
    + apply zeros_like_nonneg.
Qed.

Lemma extraction_feeds_solver_witness :
  Solver.has_shape (length [unit_triangle]) 3 [[1; 0; 0]] /\ Solver.nonneg [[1; 0; 0]] /\
  Solver.has_shape (length [unit_triangle]) 3 [default_ke] /\ Solver.nonneg [default_ke] /\
  forall intersects_location hit_dist64 reach64 centroids normals areas epsilon (n : Z),
    length centroids = length [unit_triangle] ->
    let F := FormFactor.form_factors intersects_location hit_dist64 reach64
                                     centroids normals areas epsilon in
    Solver.has_shape (length [unit_triangle]) 3 (Solver.solve F [[1; 0; 0]] [default_ke] n) /\
    Solver.nonneg (Solver.solve F [[1; 0; 0]] [default_ke] n).
Proof.
  apply (extraction_feeds_solver
           [(String.EmptyString,
             mkMesh [unit_triangle] (Some (mkMaterial (Some [1; 0; 0]) None)))]
           [unit_triangle] [[1; 0; 0]] [default_ke]).
  - reflexivity.
  - intros key m mat [Heq|[]] Hm. inversion Heq; subst. simpl in Hm. inversion Hm; subst.
    split; simpl; intros c Hc; [|discriminate].
    inversion Hc; subst. split; [reflexivity | repeat constructor; lra].
Defined.

End ExtractionShapes.

(* ================================================================= *)
(** * Vertex and face arrays *)

Section MeshArrays.

Import Refiner Mesh.

Lemma reshape_vertices_length (T : list triangle) :
  length (reshape_vertices T) = (3 * length T)%nat.
Proof.
  unfold reshape_vertices. induction T as [|[[a b] c] T IH]; simpl; [reflexivity|].
  simpl in IH. rewrite IH. lia.
Qed.

(** The faces [np.arange(3 n).reshape(-1, 3)] from an offset. *)
Lemma reshape3_seq (n : nat) :
  forall a, reshape3 (seq a (3 * n))
            = Returned (map (fun k => (a + 3 * k, a + 3 * k + 1, a + 3 * k + 2)%nat) (seq 0 n)).
Proof.
  induction n as [|n IH]; intros a; [reflexivity|].
  replace (3 * S n)%nat with (S (S (S (3 * n)))) by lia.
  cbn [seq reshape3]. rewrite IH. cbn [map]. f_equal.
  rewrite <- seq_shift, map_map.
  f_equal; [f_equal; [f_equal|]; lia|].
  apply map_ext. intros k. f_equal; [f_equal|]; lia.
Qed.

Lemma arange_faces_3n (n : nat) :
  arange_faces (3 * n)
  = Returned (map (fun k => (3 * k, 3 * k + 1, 3 * k + 2)%nat) (seq 0 n)).
Proof.
  unfold arange_faces. rewrite reshape3_seq. reflexivity.
Qed.

(** Indexing the flattened vertices by these faces gives the triangles
    back. *)
Lemma mesh_triangles_flat (T : list triangle) :
  forall pre : list V3,
    mesh_triangles (pre ++ reshape_vertices T)
      (map (fun k => (length pre + 3 * k, length pre + 3 * k + 1, length pre + 3 * k + 2)%nat)
           (seq 0 (length T)))
    = Returned T.
Proof.
  induction T as [|[[a b] c] T IH]; intros pre; [reflexivity|].
  cbn [length seq map mesh_triangles]. unfold vertex_at.
  change (reshape_vertices ((a, b, c) :: T)) with (a :: b :: c :: reshape_vertices T).
  assert (E0 : nth_error (pre ++ a :: b :: c :: reshape_vertices T) (length pre + 3 * 0)
               = Some a).
  { rewrite nth_error_app2 by lia.
    replace (length pre + 3 * 0 - length pre)%nat with 0%nat by lia. reflexivity. }
  assert (E1 : nth_error (pre ++ a :: b :: c :: reshape_vertices T) (length pre + 3 * 0 + 1)
               = Some b).
  { rewrite nth_error_app2 by lia.
    replace (length pre + 3 * 0 + 1 - length pre)%nat with 1%nat by lia. reflexivity. }
  assert (E2 : nth_error (pre ++ a :: b :: c :: reshape_vertices T) (length pre + 3 * 0 + 2)
               = Some c).
  { rewrite nth_error_app2 by lia.
    replace (length pre + 3 * 0 + 2 - length pre)%nat with 2%nat by lia. reflexivity. }
  rewrite E0, E1, E2. cbn [rbind].
  specialize (IH (pre ++ [a; b; c])).
  rewrite <- app_assoc in IH. cbn [app] in IH.
  rewrite <- seq_shift, map_map.
  erewrite map_ext; [rewrite IH; reflexivity|].
  intros k. rewrite length_app. cbn [length]. f_equal; [f_equal|]; lia.
Qed.

(** X20. The flattened arrays are the triangles.  For the vertices
    [triangles.reshape(-1, 3)] and the faces
    [np.arange(len(vertices)).reshape(-1, 3)] that the notebook builds (for
    the scene mesh, in [refine_scene], for the plots and in the PLY
    export): the reshape never fails, face [k] is [(3k, 3k+1, 3k+2)], and
    indexing the vertices by the faces gives the triangles back, in
    order. *)
Theorem flattened_arrays_round_trip (T : list triangle) :
  exists faces,
    arange_faces (length (reshape_vertices T)) = Returned faces /\
    faces = map (fun k => (3 * k, 3 * k + 1, 3 * k + 2)%nat) (seq 0 (length T)) /\
    mesh_triangles (reshape_vertices T) faces = Returned T.
Proof.
  eexists. rewrite reshape_vertices_length, arange_faces_3n.
  split; [reflexivity|]. split; [reflexivity|].
  apply (mesh_triangles_flat T []).
Qed.

Lemma repeat3_length {A : Type} (l : list A) : length (repeat3 l) = (3 * length l)%nat.
Proof.
  unfold repeat3. induction l as [|a l IH]; simpl; [reflexivity|].
  simpl in IH. rewrite IH. lia.
Qed.

Lemma map2_flat (T : list triangle) :
  forall colours : list V3,
    length colours = length T ->
    map2 mkPlyVertex (reshape_vertices T) (repeat3 colours)
    = flat_map (fun tc : triangle * V3 =>
                  let '((a, b, c), col) := tc in
                  [mkPlyVertex a col; mkPlyVertex b col; mkPlyVertex c col])
               (combine T colours).
Proof.
  induction T as [|[[a b] c] T IH]; intros [|col colours] H; simpl in *;
    try discriminate; auto.
  do 3 f_equal. apply IH. lia.
Qed.

(** X21. The face-coloured export.  With one colour a triangle,
    [create_ply_with_face_color] writes three vertex rows a triangle, its
    three vertices each with the triangle's colour, and the faces
    [(3k, 3k+1, 3k+2)]; with any other number of colours it raises
    [ValueError]. *)
Theorem face_colour_export (T : list triangle) (face_colors : list V3) :
  (length face_colors = length T ->
   create_ply_with_face_color T face_colors
   = Returned (flat_map (fun tc : triangle * V3 =>
                           let '((a, b, c), col) := tc in
                           [mkPlyVertex a col; mkPlyVertex b col; mkPlyVertex c col])
                        (combine T face_colors),
               map (fun k => (3 * k, 3 * k + 1, 3 * k + 2)%nat) (seq 0 (length T)))) /\
  (length face_colors <> length T ->
   create_ply_with_face_color T face_colors = Raised ValueError).
Proof.
  unfold create_ply_with_face_color.
  rewrite reshape_vertices_length, arange_faces_3n. cbn [rbind].
  pose proof (mesh_triangles_flat T []) as Hm. cbn [app length Nat.add] in Hm.
  rewrite Hm. cbn [rbind].
  rewrite length_map, length_seq, Nat.mul_comm, arange_faces_3n. cbn [rbind].
  unfold pack. rewrite repeat3_length, reshape_vertices_length. split.
  - intros H. rewrite H, Nat.eqb_refl. cbn [rbind]. rewrite map2_flat by auto. reflexivity.
  - intros H.
    destruct (Nat.eqb (3 * length face_colors) (3 * length T)) eqn:He.
    + apply Nat.eqb_eq in He. lia.
    + destruct face_colors as [|c1 [|c2 cs]]; reflexivity.
Qed.

End MeshArrays.

Section VertexColours.

Import Refiner Mesh.

Lemma update_at_spec {A : Type} (f : A -> A) :
  forall (l : list A) (g : nat),
    (g < length l)%nat ->
    exists l',
      update_at l g f = Returned l' /\ length l' = length l /\
      forall j d, nth j l' d = if Nat.eqb j g then f (nth j l d) else nth j l d.
Proof.
  induction l as [|a l IH]; intros g Hg; simpl in Hg; [lia|].
  destruct g as [|g]; simpl.
  - eexists. split; [reflexivity|]. split; [reflexivity|].
    intros [|j] d; reflexivity.
  - destruct (IH g) as (l' & -> & Hl & Hn); [lia|].
    eexists. split; [reflexivity|]. split; [simpl; lia|].
    intros [|j] d; simpl; auto.
Qed.

Lemma wrap32_small (z : Z) : (- 2 ^ 31 <= z < 2 ^ 31)%Z -> wrap32 z = z.
Proof.
  intros H. unfold wrap32. rewrite Z.mod_small; lia.
Qed.

Lemma v3add_zero_l (a : V3) : v3add v3zero a = a.
Proof. apply v3_ext; unfold v3add, v3zero; simpl; ring. Qed.

Lemma v3add_zero_r (a : V3) : v3add a v3zero = a.
Proof. apply v3_ext; unfold v3add, v3zero; simpl; ring. Qed.

Lemma v3add_assoc (a b c : V3) : v3add (v3add a b) c = v3add a (v3add b c).
Proof. apply v3_ext; unfold v3add; simpl; ring. Qed.

Variables (inverse_indices : list nat) (triangle_colors : list V3).

Local Abbreviation at_vertex g :=
  (fun corner => Nat.eqb (corner_vertex inverse_indices corner) g).
Local Abbreviation colour_of :=
  (fun corner : nat * nat => nth (fst corner) triangle_colors v3zero).

(** The loops over a list of corners: every vertex gains the colours of
    the corners that map to it, and counts them. *)
Lemma rfold_add_corner (num_unique : nat) (cs : list (nat * nat)) :
  forall (vc : list V3) (cnt : list Z),
    length vc = num_unique -> length cnt = num_unique ->
    Forall (fun corner =>
              exists g c,
                nth_error inverse_indices (fst corner * 3 + snd corner) = Some g /\
                (g < num_unique)%nat /\
                nth_error triangle_colors (fst corner) = Some c) cs ->
    (forall g, (0 <= nth g cnt 0 /\ nth g cnt 0 + Z.of_nat (length cs) < 2 ^ 31)%Z) ->
    exists vc' cnt',
      rfold (add_corner inverse_indices triangle_colors) cs (vc, cnt) = Returned (vc', cnt') /\
      length vc' = num_unique /\ length cnt' = num_unique /\
      forall g,
        nth g vc' v3zero
        = v3add (nth g vc v3zero) (v3sum (map colour_of (filter (at_vertex g) cs))) /\
        nth g cnt' 0%Z = (nth g cnt 0 + Z.of_nat (length (filter (at_vertex g) cs)))%Z.
Proof.
  induction cs as [|[t l] cs IH]; intros vc cnt Hvc Hcnt Hok Hb.
  - exists vc, cnt. split; [reflexivity|]. split; [auto|]. split; [auto|].
    intros g. simpl. rewrite v3add_zero_r. split; [reflexivity | lia].
  - inversion Hok as [|? ? (g0 & c & Hg0 & Hlt & Hc) Hok']; subst. cbn [fst snd] in *.
    cbn [rfold]. unfold add_corner at 1. rewrite Hg0, Hc.
    destruct (nth_error vc g0) as [x|] eqn:Hx;
      [|apply nth_error_None in Hx; lia].
    destruct (update_at_spec (fun x => v3add x c) vc g0) as (vc1 & -> & L1 & N1); [lia|].
    destruct (update_at_spec (fun k => wrap32 (k + 1)) cnt g0) as (cnt1 & -> & L2 & N2); [lia|].
    cbn [rbind].
    destruct (IH vc1 cnt1) as (vc' & cnt' & Hrun & L1' & L2' & Hn); try lia; auto.
    { intros g. rewrite N2. cbn [length] in Hb. specialize (Hb g).
      destruct (Nat.eqb g g0).
      - rewrite wrap32_small; lia.
      - lia. }
    exists vc', cnt'. split; [exact Hrun|]. split; [exact L1'|]. split; [exact L2'|].
    intros g. destruct (Hn g) as [Hv Hk]. rewrite Hv, Hk, N1, N2.
    assert (Hcv : corner_vertex inverse_indices (t, l) = g0).
    { unfold corner_vertex. cbn [fst snd]. apply (nth_error_nth _ _ _ Hg0). }
    cbn [filter]. rewrite Hcv, (Nat.eqb_sym g0 g).
    destruct (Nat.eqb g g0) eqn:Hgg.
    + cbn [map v3sum fold_right length fst]. rewrite (nth_error_nth _ _ v3zero Hc).
      split; [apply v3add_assoc|].
      cbn [length] in Hb. specialize (Hb g). rewrite wrap32_small; lia.
    + split; reflexivity.
Qed.

Lemma corners_length (n : nat) : length (corners n) = (3 * n)%nat.
Proof.
  unfold corners. induction n as [|n IH]; [reflexivity|].
  rewrite (seq_S n 0), flat_map_app, length_app, IH. simpl. lia.
Qed.

Lemma corners_spec (n : nat) (corner : nat * nat) :
  In corner (corners n) -> (fst corner < n)%nat /\ (snd corner < 3)%nat.
Proof.
  unfold corners. intros H. apply in_flat_map in H as (t & Ht & H).
  apply in_map_iff in H as (l & <- & Hl). apply in_seq in Ht. apply in_seq in Hl.
  simpl. lia.
Qed.

End VertexColours.

Section VertexColourExport.

Import Refiner Mesh.

Variable unique : list V3 -> list V3 * list nat.

(** The faces of the inverse index back to the triangles. *)
Lemma remapped_faces (U : list V3) (T : list triangle) :
  forall inv : list nat,
    length inv = length (reshape_vertices T) ->
    (forall k v, nth_error (reshape_vertices T) k = Some v ->
                 exists g, nth_error inv k = Some g /\ nth_error U g = Some v) ->
    exists faces, reshape3 inv = Returned faces /\ mesh_triangles U faces = Returned T.
Proof.
  induction T as [|[[a b] c] T IH]; intros inv Hlen Hk.
  - destruct inv; [|discriminate]. exists []. auto.
  - change (reshape_vertices ((a, b, c) :: T)) with (a :: b :: c :: reshape_vertices T) in *.
    destruct inv as [|g0 [|g1 [|g2 inv]]]; try discriminate.
    destruct (Hk 0%nat a eq_refl) as (g & Hg & H0). inversion Hg; subst g.
    destruct (Hk 1%nat b eq_refl) as (g & Hg' & H1). inversion Hg'; subst g.
    destruct (Hk 2%nat c eq_refl) as (g & Hg'' & H2). inversion Hg''; subst g.
    destruct (IH inv) as (faces & Hr & Hm).
    + simpl in Hlen. lia.
    + intros k v Hv. apply (Hk (S (S (S k))) v Hv).
    + exists ((g0, g1, g2) :: faces). cbn [reshape3 mesh_triangles]. rewrite Hr.
      split; [reflexivity|]. unfold vertex_at. rewrite H0, H1, H2. cbn [rbind].
      rewrite Hm. reflexivity.
Qed.

(** What the function returns when [np.unique] keeps its promise and
    there is a colour for every triangle. *)
Lemma create_ply_with_vertex_color_run (T : list triangle) (colors : list V3)
      (U : list V3) (inv : list nat) :
  unique (reshape_vertices T) = (U, inv) ->
  unique_contract unique (reshape_vertices T) ->
  (length T <= length colors)%nat ->
  (3 * Z.of_nat (length T) < 2 ^ 31)%Z ->
  exists faces,
    create_ply_with_vertex_color unique T colors
    = Returned (map2 mkPlyVertex U
                     (map (mean_colour inv colors (length T)) (seq 0 (length U))),
                faces) /\
    reshape3 inv = Returned faces /\
    mesh_triangles U faces = Returned T.
Proof.
  intros HU Hc Hcol Hn. unfold unique_contract in Hc. rewrite HU in Hc.
  destruct Hc as (Hlen & Hk & Hsur).
  destruct (remapped_faces U T inv Hlen Hk) as (faces & Hr & Hm).
  exists faces. split; [|split; assumption].
  unfold create_ply_with_vertex_color.
  rewrite reshape_vertices_length, arange_faces_3n. cbn [rbind]. rewrite HU.
  rewrite length_map, length_seq.
  destruct (rfold_add_corner inv colors (length U) (corners (length T))
              (repeat v3zero (length U)) (repeat 0%Z (length U)))
    as (vc & cnt & -> & L1 & L2 & Hnth).
  - apply repeat_length.
  - apply repeat_length.
  - apply Forall_forall. intros [t l] Hin. apply corners_spec in Hin. cbn [fst snd] in *.
    destruct (nth_error (reshape_vertices T) (t * 3 + l)) as [v|] eqn:Hv.
    2:{ apply nth_error_None in Hv. rewrite reshape_vertices_length in Hv. lia. }
    destruct (Hk _ _ Hv) as (g & Hg & HUg).
    destruct (nth_error colors t) as [c|] eqn:Hct.
    2:{ apply nth_error_None in Hct. lia. }
    exists g, c. repeat split; auto.
    apply nth_error_Some. congruence.
  - intros g. rewrite corners_length.
    assert (Hz : nth g (repeat 0%Z (length U)) 0%Z = 0%Z).
    { destruct (Nat.lt_ge_cases g (length U)) as [Hg|Hg].
      - apply nth_repeat.
      - apply nth_overflow. rewrite repeat_length. exact Hg. }
    rewrite Hz. lia.
  - cbn [rbind].
    assert (Havg : map2 (fun c k => v3div c (IZR k)) vc cnt
                   = map (mean_colour inv colors (length T)) (seq 0 (length U))).
    { apply (nth_ext _ _ v3zero v3zero).
      - rewrite map2_length, length_map, length_seq. lia.
      - intros g Hg. rewrite map2_length in Hg.
        rewrite (nth_map2 _ _ _ g v3zero v3zero 0%Z) by lia.
        rewrite nth_map_seq by lia.
        destruct (Hnth g) as [Hv Hcnt]. rewrite Hv, Hcnt.
        assert (Hz : nth g (repeat 0%Z (length U)) 0%Z = 0%Z) by (apply nth_repeat).
        assert (Hz' : nth g (repeat v3zero (length U)) v3zero = v3zero) by (apply nth_repeat).
        rewrite Hz, Hz', v3add_zero_l. reflexivity. }
    rewrite Havg. unfold pack. rewrite length_map, length_seq, Nat.eqb_refl. cbn [rbind].
    rewrite Hr. reflexivity.
Qed.

End VertexColourExport.

Section VertexColourFacts.

Import Refiner Mesh.

Lemma rfold_app {A S : Type} (body : S -> A -> result S) (l1 l2 : list A) :
  forall s, rfold body (l1 ++ l2) s = rbind (rfold body l1 s) (rfold body l2).
Proof.
  induction l1 as [|a l1 IH]; intros s; simpl; auto.
  destruct (body s a) as [s'|e]; simpl; auto.
Qed.

Lemma corners_app (m k : nat) :
  corners (m + k)
  = corners m
    ++ flat_map (fun tri_idx => map (fun local_vidx => (tri_idx, local_vidx)) (seq 0 3))
                (seq m k).
Proof.
  unfold corners. rewrite seq_app, flat_map_app. reflexivity.
Qed.

Lemma corners_In (n t l : nat) : (t < n)%nat -> (l < 3)%nat -> In (t, l) (corners n).
Proof.
  intros Ht Hl. unfold corners. apply in_flat_map. exists t. split.
  - apply in_seq. lia.
  - apply in_map_iff. exists l. split; [reflexivity | apply in_seq; lia].
Qed.

Lemma map_position (U cols : list V3) :
  length cols = length U -> map position (map2 mkPlyVertex U cols) = U.
Proof.
  revert cols. induction U as [|u U IH]; intros [|c cols] H; simpl in *;
    try discriminate; auto.
  f_equal. apply IH. lia.
Qed.

Lemma nth_colour (U cols : list V3) (g : nat) (d : ply_vertex) :
  length cols = length U -> (g < length U)%nat ->
  colour (nth g (map2 mkPlyVertex U cols) d) = nth g cols v3zero.
Proof.
  intros H Hg. rewrite (nth_map2 _ _ _ g d v3zero v3zero) by lia. reflexivity.
Qed.

(** Sums of colours of bounded channels. *)
Lemma v3sum_within (lo hi : R) (l : list V3) :
  Forall (colour_within lo hi) l ->
  let k := IZR (Z.of_nat (length l)) in
  lo * k <= vx (v3sum l) <= hi * k /\
  lo * k <= vy (v3sum l) <= hi * k /\
  lo * k <= vz (v3sum l) <= hi * k.
Proof.
  induction 1 as [|c l (Hx & Hy & Hz) _ IH].
  - simpl. lra.
  - cbn [length v3sum fold_right]. rewrite Nat2Z.inj_succ, succ_IZR.
    fold (v3sum l). cbv zeta in IH. destruct IH as (Ix & Iy & Iz).
    unfold v3add; simpl. repeat split; lra.
Qed.

Lemma mean_within (lo hi : R) (l : list V3) :
  Forall (colour_within lo hi) l -> l <> [] ->
  colour_within lo hi (v3div (v3sum l) (IZR (Z.of_nat (length l)))).
Proof.
  intros H Hne. pose proof (v3sum_within lo hi l H) as Hs. cbv zeta in Hs.
  assert (Hk : 1 <= IZR (Z.of_nat (length l))).
  { apply IZR_le. destruct l; [congruence | simpl; lia]. }
  set (k := IZR (Z.of_nat (length l))) in *.
  assert (Hi : 0 < / k) by (apply Rinv_0_lt_compat; lra).
  assert (Hdiv : forall s, lo * k <= s <= hi * k -> lo <= s / k <= hi).
  { intros s [H1 H2]. unfold Rdiv. split.
    - replace lo with (lo * k * / k) by (field; lra).
      apply Rmult_le_compat_r; lra.
    - replace hi with (hi * k * / k) by (field; lra).
      apply Rmult_le_compat_r; lra. }
  destruct Hs as (Hx & Hy & Hz). unfold colour_within, v3div; simpl.
  repeat split; apply Hdiv; lra.
Qed.

End VertexColourFacts.

Section VertexColourTheorems.

Import Refiner Mesh.

Variable unique : list V3 -> list V3 * list nat.

(** Fewer colours than triangles: the loop reaches the first triangle
    without a colour and raises. *)
Lemma create_ply_with_vertex_color_short (T : list triangle) (colors : list V3) :
  unique_contract unique (reshape_vertices T) ->
  (length colors < length T)%nat ->
  (3 * Z.of_nat (length T) < 2 ^ 31)%Z ->
  create_ply_with_vertex_color unique T colors = Raised IndexError.
Proof.
  intros Hc Hcol Hn. unfold unique_contract in Hc.
  unfold create_ply_with_vertex_color.
  rewrite reshape_vertices_length, arange_faces_3n. cbn [rbind].
  destruct (unique (reshape_vertices T)) as [U inv].
  destruct Hc as (Hlen & Hk & Hsur).
  rewrite length_map, length_seq.
  set (m := length colors) in *.
  replace (length T) with (m + (length T - m))%nat at 1 by lia.
  rewrite corners_app, rfold_app.
  assert (Hvalid : forall t l, (t < length T)%nat -> (l < 3)%nat ->
            exists g, nth_error inv (t * 3 + l) = Some g /\ (g < length U)%nat).
  { intros t l Ht Hl.
    destruct (nth_error (reshape_vertices T) (t * 3 + l)) as [v|] eqn:Hv.
    2:{ apply nth_error_None in Hv. rewrite reshape_vertices_length in Hv. lia. }
    destruct (Hk _ _ Hv) as (g & Hg & HUg). exists g. split; auto.
    apply nth_error_Some. congruence. }
  destruct (rfold_add_corner inv colors (length U) (corners m)
              (repeat v3zero (length U)) (repeat 0%Z (length U)))
    as (vc & cnt & -> & L1 & L2 & _).
  - apply repeat_length.
  - apply repeat_length.
  - apply Forall_forall. intros [t l] Hin. apply corners_spec in Hin. cbn [fst snd] in *.
    destruct (Hvalid t l) as (g & Hg & HgU); try lia.
    destruct (nth_error colors t) as [c|] eqn:Hct.
    2:{ apply nth_error_None in Hct. fold m in Hct. lia. }
    exists g, c. auto.
  - intros g. rewrite corners_length.
    assert (Hz : nth g (repeat 0%Z (length U)) 0%Z = 0%Z).
    { destruct (Nat.lt_ge_cases g (length U)) as [Hg|Hg].
      - apply nth_repeat.
      - apply nth_overflow. rewrite repeat_length. exact Hg. }
    rewrite Hz. lia.
  - cbn [rbind].
    destruct (length T - m)%nat as [|k] eqn:Hk'; [lia|].
    cbn [seq flat_map map app rfold]. unfold add_corner at 1.
    destruct (Hvalid m 0%nat) as (g & Hg & HgU); try lia.
    rewrite Hg.
    destruct (nth_error vc g) as [x|] eqn:Hx; [|apply nth_error_None in Hx; lia].
    assert (Hnone : nth_error colors m = None) by (apply nth_error_None; unfold m; lia).
    rewrite Hnone. reflexivity.
Qed.

(** X22. The vertex-coloured export keeps the mesh.  Let [np.unique] keep
    its promise on the flattened vertices, with fewer than [2^31] corners.
    With a colour for every triangle, [create_ply_with_vertex_color]
    writes the distinct vertices, one row each, and faces that index them
    back to the input triangles, in order; with fewer colours than
    triangles it raises [IndexError]. *)
Theorem vertex_colour_export (T : list triangle) (colors : list V3) :
  unique_contract unique (reshape_vertices T) ->
  (3 * Z.of_nat (length T) < 2 ^ 31)%Z ->
  ((length T <= length colors)%nat ->
   exists vertex_data faces,
     create_ply_with_vertex_color unique T colors = Returned (vertex_data, faces) /\
     map position vertex_data = fst (unique (reshape_vertices T)) /\
     mesh_triangles (map position vertex_data) faces = Returned T) /\
  ((length colors < length T)%nat ->
   create_ply_with_vertex_color unique T colors = Raised IndexError).
Proof.
  intros Hc Hn. split.
  - intros Hcol. destruct (unique (reshape_vertices T)) as [U inv] eqn:HU.
    destruct (create_ply_with_vertex_color_run unique T colors U inv HU Hc Hcol Hn)
      as (faces & Hrun & _ & Hm).
    eexists. exists faces. split; [exact Hrun|].
    rewrite map_position by (rewrite length_map, length_seq; reflexivity).
    split; [reflexivity | exact Hm].
  - intros Hcol. apply create_ply_with_vertex_color_short; auto.
Qed.

(** X23. Vertex colours are means.  Under the same conditions, with a
    colour for every triangle, the colour written for a vertex is the mean
    of the colours of the triangles' corners that map to it; so if every
    channel of every triangle colour lies in [[lo, hi]], so does every
    channel of every vertex colour. *)
Theorem vertex_colours_are_means (T : list triangle) (colors : list V3) :
  unique_contract unique (reshape_vertices T) ->
  (3 * Z.of_nat (length T) < 2 ^ 31)%Z ->
  (length T <= length colors)%nat ->
  exists vertex_data faces,
    create_ply_with_vertex_color unique T colors = Returned (vertex_data, faces) /\
    (forall g d, (g < length vertex_data)%nat ->
       colour (nth g vertex_data d)
       = mean_colour (snd (unique (reshape_vertices T))) colors (length T) g) /\
    (forall lo hi, Forall (colour_within lo hi) colors ->
       Forall (fun row => colour_within lo hi (colour row)) vertex_data).
Proof.
  intros Hc Hn Hcol. destruct (unique (reshape_vertices T)) as [U inv] eqn:HU.
  destruct (create_ply_with_vertex_color_run unique T colors U inv HU Hc Hcol Hn)
    as (faces & Hrun & _ & _).
  unfold unique_contract in Hc. rewrite HU in Hc. destruct Hc as (Hlen & Hk & Hsur).
  eexists. exists faces. split; [exact Hrun|].
  assert (HL : length (map (mean_colour inv colors (length T)) (seq 0 (length U)))
               = length U) by (rewrite length_map, length_seq; reflexivity).
  assert (Hg : forall g d, (g < length U)%nat ->
            colour (nth g (map2 mkPlyVertex U
                                (map (mean_colour inv colors (length T)) (seq 0 (length U)))) d)
            = mean_colour inv colors (length T) g).
  { intros g d Hg. rewrite nth_colour by auto. apply nth_map_seq. exact Hg. }
  cbn [snd]. split.
  - intros g d Hlt. rewrite map2_length, HL, Nat.min_id in Hlt. apply Hg. exact Hlt.
  - intros lo hi Hw. apply Forall_forall. intros row Hin.
    apply (In_nth _ _ (mkPlyVertex v3zero v3zero)) in Hin as (g & Hlt & <-).
    rewrite map2_length, HL, Nat.min_id in Hlt. rewrite Hg by exact Hlt.
    unfold mean_colour. cbv zeta.
    rewrite <- (length_map (fun corner : nat * nat => nth (fst corner) colors v3zero)
                           (corners_at inv (length T) g)).
    apply mean_within.
    + apply Forall_forall. intros c Hc. apply in_map_iff in Hc as ([t l] & <- & Hin).
      unfold corners_at in Hin. apply filter_In in Hin as [Hin _].
      apply corners_spec in Hin. cbn [fst snd] in *.
      rewrite Forall_forall in Hw. apply Hw, nth_In. lia.
    + specialize (Hsur g Hlt). apply In_nth_error in Hsur as (k & Hk').
      assert (Hklt : (k < 3 * length T)%nat).
      { rewrite <- reshape_vertices_length, <- Hlen. apply nth_error_Some. congruence. }
      assert (Hin : In (k / 3, k mod 3)%nat (corners_at inv (length T) g)).
      { unfold corners_at. apply filter_In. split.
        - apply corners_In.
          + apply Nat.Div0.div_lt_upper_bound. lia.
          + apply Nat.mod_upper_bound. lia.
        - unfold corner_vertex. cbn [fst snd].
          replace (k / 3 * 3 + k mod 3)%nat with k
            by (rewrite (Nat.div_mod_eq k 3) at 1; lia).
          rewrite (nth_error_nth _ _ _ Hk'). apply Nat.eqb_refl. }
      intros Hnil. apply map_eq_nil in Hnil. rewrite Hnil in Hin. destruct Hin.
Qed.

End VertexColourTheorems.

Section VertexColourWitnesses.

Import Refiner Mesh.

Lemma unique_two_contract : unique_contract unique_two (reshape_vertices two_triangles).
Proof.
  unfold unique_contract, unique_two, two_triangles. simpl.
  split; [reflexivity|]. split.
  - intros k v Hv.
    do 6 (destruct k as [|k]; [inversion Hv; subst; eexists; split; reflexivity|]).
    destruct k; discriminate.
  - intros g Hg. do 4 (destruct g as [|g]; [simpl; auto 7|]). lia.
Qed.

Lemma vertex_colour_export_witness :
  ((length two_triangles <= length [mkV3 1 0 0; mkV3 0 0 1])%nat ->
   exists vertex_data faces,
     create_ply_with_vertex_color unique_two two_triangles [mkV3 1 0 0; mkV3 0 0 1]
     = Returned (vertex_data, faces) /\
     map position vertex_data = fst (unique_two (reshape_vertices two_triangles)) /\
     mesh_triangles (map position vertex_data) faces = Returned two_triangles) /\
  ((length [mkV3 1 0 0; mkV3 0 0 1] < length two_triangles)%nat ->
   create_ply_with_vertex_color unique_two two_triangles [mkV3 1 0 0; mkV3 0 0 1]
   = Raised IndexError).
Proof.
  apply (vertex_colour_export unique_two two_triangles [mkV3 1 0 0; mkV3 0 0 1]).
  - apply unique_two_contract.
  - simpl. lia.
Defined.

Lemma vertex_colours_are_means_witness :
  exists vertex_data faces,
    create_ply_with_vertex_color unique_two two_triangles [mkV3 1 0 0; mkV3 0 0 1]
    = Returned (vertex_data, faces) /\
    (forall g d, (g < length vertex_data)%nat ->
       colour (nth g vertex_data d)
       = mean_colour (snd (unique_two (reshape_vertices two_triangles)))
                     [mkV3 1 0 0; mkV3 0 0 1] (length two_triangles) g) /\
    (forall lo hi, Forall (colour_within lo hi) [mkV3 1 0 0; mkV3 0 0 1] ->
       Forall (fun row => colour_within lo hi (colour row)) vertex_data).
Proof.
  apply (vertex_colours_are_means unique_two two_triangles [mkV3 1 0 0; mkV3 0 0 1]).
  - apply unique_two_contract.
  - simpl. lia.
  - simpl. lia.
Defined.

End VertexColourWitnesses.
